(** * Graph sanitization and layout engine of gemini-flow

    A shallow embedding of [src/utils/layoutUtils.ts] ([computeLayout]) and
    of the types it uses ([FlowchartNode], [FlowchartEdge], [FlowchartData],
    [NodeShape], [LayoutDirection]).

    Conventions of the embedding.
    - A JavaScript string is the list of its UTF-16 code units.
    - A JavaScript number is modelled by an integer: every number the
      function computes is an integer far below 2^53 (the halves of the
      even constants [NODE_WIDTH] and [NODE_HEIGHT] are integers, and the
      division in [startX] is shown exact in [startX_exact]), and the [x],
      [y] and [level] an input node may carry are overwritten before they
      are read.
    - The nodes array is a list; a reference to a node object is its index
      in that list, and an assignment to a field of a node is an [alter] at
      that index. The array is never resized.
    - [Set] and [Map] keyed by strings are [gset] and [gmap]; the [Map] from
      levels to rows, whose iteration order is its insertion order, is an
      association list. *)

From Stdlib Require Import ZArith.
From stdpp Require Import gmap list strings sorting.

(** ** Strings *)

Definition jsstring : Type := list N.

(** [WhiteSpace] and [LineTerminator] code points of ECMAScript, the ones
    [String.prototype.trim] removes. *)
Definition isWhiteSpace (c : N) : bool :=
  ((9 <=? c) && (c <=? 13) || (c =? 32) || (c =? 160) || (c =? 5760)
   || (8192 <=? c) && (c <=? 8202) || (c =? 8232) || (c =? 8233)
   || (c =? 8239) || (c =? 8287) || (c =? 12288) || (c =? 65279))%N.

Fixpoint trimStart (s : jsstring) : jsstring :=
  match s with
  | c :: s' => if isWhiteSpace c then trimStart s' else s
  | [] => []
  end.

Definition trimEnd (s : jsstring) : jsstring := rev (trimStart (rev s)).

Definition trim (s : jsstring) : jsstring := trimEnd (trimStart s).

(** Code units of an ASCII literal, to write examples. *)
Definition str (s : string) : jsstring :=
  map (fun a => N.of_nat (Ascii.nat_of_ascii a)) (String.list_ascii_of_string s).

(** ** Types ([types.ts]) *)

Inductive LayoutDirection := TOP_BOTTOM | ZIG_ZAG.

Inductive NodeShape := RECTANGLE | DIAMOND | PILL | PARALLELOGRAM.

Record FlowchartNode := mkNode {
  node_id : jsstring;
  node_label : jsstring;
  node_shape : NodeShape;
  node_x : option Z;
  node_y : option Z;
  node_level : option Z
}.

Record FlowchartEdge := mkEdge {
  edge_source : jsstring;
  edge_target : jsstring;
  edge_label : option jsstring
}.

Record FlowchartData := mkData {
  nodes : list FlowchartNode;
  edges : list FlowchartEdge
}.

#[global] Instance LayoutDirection_eq_dec : EqDecision LayoutDirection.
Proof. solve_decision. Defined.
#[global] Instance NodeShape_eq_dec : EqDecision NodeShape.
Proof. solve_decision. Defined.
#[global] Instance FlowchartNode_eq_dec : EqDecision FlowchartNode.
Proof. solve_decision. Defined.
#[global] Instance FlowchartEdge_eq_dec : EqDecision FlowchartEdge.
Proof. solve_decision. Defined.

(** ** Constants *)

Definition NODE_WIDTH : Z := 220.
Definition NODE_HEIGHT : Z := 140.
Definition X_GAP : Z := 60.
Definition Y_GAP : Z := 100.
Definition CANVAS_PADDING : Z := 50.
Definition SNAKE_COLUMNS : nat := 4.

(** ** Field assignments *)

Definition setLevel (l : Z) (n : FlowchartNode) : FlowchartNode :=
  mkNode (node_id n) (node_label n) (node_shape n) (node_x n) (node_y n) (Some l).

Definition setXY (x y : Z) (n : FlowchartNode) : FlowchartNode :=
  mkNode (node_id n) (node_label n) (node_shape n) (Some x) (Some y) (node_level n).

(** [node.level || 0] *)
Definition levelOr0 (n : FlowchartNode) : Z := default 0%Z (node_level n).

(** ** Sanitization step (lines 15-38) *)

Definition nodeIds (ns : list FlowchartNode) : gset jsstring :=
  list_to_set (node_id <$> ns).

Definition diamondNodeIds (ns : list FlowchartNode) : gset jsstring :=
  list_to_set (node_id <$> filter (fun n => node_shape n = DIAMOND) ns).

(** [e.label && e.label.trim().length > 0], as a truth value: an absent
    label and the empty string are falsy. *)
Definition labelled (e : FlowchartEdge) : bool :=
  match edge_label e with
  | None => false
  | Some l =>
      match l with
      | [] => false
      | _ => bool_decide (0 < length (trim l))
      end
  end.

Definition removeDangling (ns : list FlowchartNode) (es : list FlowchartEdge) :=
  filter (fun e => edge_source e ∈ nodeIds ns ∧ edge_target e ∈ nodeIds ns) es.

Definition removeSelfLoops (es : list FlowchartEdge) :=
  filter (fun e => edge_source e ≠ edge_target e) es.

Definition removeGhostEdges (ns : list FlowchartNode) (es : list FlowchartEdge) :=
  filter (fun e => edge_source e ∈ diamondNodeIds ns → labelled e = true) es.

Definition sanitizeEdges (ns : list FlowchartNode) (es : list FlowchartEdge) :=
  removeGhostEdges ns (removeSelfLoops (removeDangling ns es)).

(** The sanitization step on its own: the graph with [data.edges = edges]. *)
Definition sanitize (data : FlowchartData) : FlowchartData :=
  mkData (nodes data) (sanitizeEdges (nodes data) (edges data)).

(** ** Level assignment (lines 40-82) *)

(** [nodes.forEach(node => { node.level = 0; ... })] *)
Definition resetLevels (ns : list FlowchartNode) : list FlowchartNode :=
  setLevel 0 <$> ns.

(** [nodeMap.set(node.id, node)] for every node in turn, from index [i] on:
    a later node with the same id replaces the earlier one. *)
Fixpoint fillNodeMap (i : nat) (ns : list FlowchartNode)
    (m : gmap jsstring nat) : gmap jsstring nat :=
  match ns with
  | [] => m
  | n :: ns' => fillNodeMap (S i) ns' (<[node_id n := i]> m)
  end.

Definition buildNodeMap (ns : list FlowchartNode) : gmap jsstring nat :=
  fillNodeMap 0 ns ∅.

Definition targets (es : list FlowchartEdge) : gset jsstring :=
  list_to_set (edge_target <$> es).

(** [nodes.find(n => !targets.has(n.id))] *)
Definition findUntargeted (ns : list FlowchartNode) (es : list FlowchartEdge)
    : option FlowchartNode :=
  list_find (fun n => node_id n ∉ targets es) ns ≫= (fun p => Some p.2).

(** [nodes.find(...)?.id || nodes[0].id], with [n0] the node [nodes[0]]:
    [||] takes its right operand when the left one is [undefined] or the
    empty string. *)
Definition startNodeId (n0 : FlowchartNode) (ns : list FlowchartNode)
    (es : list FlowchartEdge) : jsstring :=
  match findUntargeted ns es with
  | Some n =>
      match node_id n with
      | [] => node_id n0
      | _ => node_id n
      end
  | None => node_id n0
  end.

(** The state of the traversal. [discovered] is a ghost field, read by no
    step: it logs, in order, the edges whose target was enqueued. *)
Record BfsState := mkBfs {
  queue : list (jsstring * Z);
  visited : gset jsstring;
  store : list FlowchartNode;
  discovered : list (jsstring * jsstring)
}.

(** Body of [outgoingEdges.forEach]; the [else] branch of the source has no
    effect. *)
Definition visitEdge (lvl : Z) (st : BfsState) (e : FlowchartEdge) : BfsState :=
  if decide (edge_target e ∈ visited st) then st
  else mkBfs (queue st ++ [(edge_target e, (lvl + 1)%Z)])
             ({[edge_target e]} ∪ visited st)
             (store st)
             (discovered st ++ [(edge_source e, edge_target e)]).

(** [node.level = Math.max(node.level || 0, level)] on [nodeMap.get(id)]. *)
Definition raiseLevel (nodeMap : gmap jsstring nat) (id : jsstring) (lvl : Z)
    (ns : list FlowchartNode) : list FlowchartNode :=
  match nodeMap !! id with
  | Some r => alter (fun n => setLevel (Z.max (levelOr0 n) lvl) n) r ns
  | None => ns
  end.

(** One iteration of the [while] loop, after [queue.shift()] gave
    [(id, lvl)] and left [q]. *)
Definition bfsStep (es : list FlowchartEdge) (nodeMap : gmap jsstring nat)
    (id : jsstring) (lvl : Z) (q : list (jsstring * Z)) (st : BfsState) : BfsState :=
  foldl (visitEdge lvl)
        (mkBfs q (visited st) (raiseLevel nodeMap id lvl (store st)) (discovered st))
        (filter (fun e => edge_source e = id) es).

Fixpoint bfsLoop (fuel : nat) (es : list FlowchartEdge)
    (nodeMap : gmap jsstring nat) (st : BfsState) : BfsState :=
  match fuel with
  | O => st
  | S fuel' =>
      match queue st with
      | [] => st
      | (id, lvl) :: q => bfsLoop fuel' es nodeMap (bfsStep es nodeMap id lvl q st)
      end
  end.

(** Every iteration dequeues one entry and every entry enqueued marks the
    target of an edge visited, so [S (length es)] iterations empty the
    queue ([bfs_queue_empty]). *)
Definition bfs (n0 : FlowchartNode) (ns : list FlowchartNode)
    (es : list FlowchartEdge) : BfsState :=
  let start := startNodeId n0 ns es in
  bfsLoop (S (length es)) es (buildNodeMap ns)
          (mkBfs [(start, 0%Z)] {[start]} (resetLevels ns) []).

(** ** Sorting (lines 84-90) *)

(** [Array.prototype.sort] is stable; with a consistent comparator its
    result is the one stable sorted arrangement, which insertion from the
    right computes: an element goes before the first one it does not
    exceed, so before its equals that came later. *)
Fixpoint insertSorted {A} (cmp : A → A → Z) (a : A) (l : list A) : list A :=
  match l with
  | [] => [a]
  | b :: l' => if (cmp a b <=? 0)%Z then a :: l else b :: insertSorted cmp a l'
  end.

Definition stableSort {A} (cmp : A → A → Z) (l : list A) : list A :=
  foldr (insertSorted cmp) [] l.

(** [l.forEach((a, index) => ...)] threading the state [s]. *)
Fixpoint forEachFrom {A St} (f : St → A → nat → St) (i : nat) (l : list A) (s : St) : St :=
  match l with
  | [] => s
  | a :: l' => forEachFrom f (S i) l' (f s a i)
  end.

(** Code-unit order of strings: what [localeCompare] is in examples. *)
Fixpoint codeUnitCompare (a b : jsstring) : Z :=
  match a, b with
  | [], [] => 0
  | [], _ :: _ => -1
  | _ :: _, [] => 1
  | c :: a', d :: b' =>
      if (c <? d)%N then -1 else if (d <? c)%N then 1 else codeUnitCompare a' b'
  end.

Section Layout.

(** [String.prototype.localeCompare] depends on the host's locale and
    collation data: it is a parameter of the development. *)
Variable localeCompare : jsstring → jsstring → Z.

Definition compareNodes (a b : FlowchartNode) : Z :=
  let levA := levelOr0 a in
  let levB := levelOr0 b in
  if decide (levA ≠ levB) then (levA - levB)%Z
  else localeCompare (node_id a) (node_id b).

(** The comparator on references into the nodes array [ns]. *)
Definition compareRefs (ns : list FlowchartNode) (i j : nat) : Z :=
  match ns !! i, ns !! j with
  | Some a, Some b => compareNodes a b
  | _, _ => 0%Z
  end.

(** [[...nodes].sort(...)]: the references to all nodes, sorted. *)
Definition sortedNodes (ns : list FlowchartNode) : list nat :=
  stableSort (compareRefs ns) (seq 0 (length ns)).

(** ** Zig-zag layout (lines 93-109) *)

Definition snakeRow (index : nat) : nat := index / SNAKE_COLUMNS.

Definition snakeCol (index : nat) : nat :=
  let col := index mod SNAKE_COLUMNS in
  if decide (snakeRow index mod 2 ≠ 0) then SNAKE_COLUMNS - 1 - col else col.

Definition snakePlace (ns : list FlowchartNode) (r index : nat) : list FlowchartNode :=
  alter (setXY (Z.of_nat (snakeCol index) * (NODE_WIDTH + X_GAP) + CANVAS_PADDING + NODE_WIDTH / 2)
               (Z.of_nat (snakeRow index) * (NODE_HEIGHT + Y_GAP) + CANVAS_PADDING + NODE_HEIGHT / 2))
        r ns.

Definition snakeLayout (sorted : list nat) (ns : list FlowchartNode) :=
  forEachFrom snakePlace 0 sorted ns.

(** ** Top-bottom layout (lines 110-138) *)

Definition levelOf (ns : list FlowchartNode) (r : nat) : Z :=
  from_option levelOr0 0%Z (ns !! r).

(** [if (!levels.has(lvl)) levels.set(lvl, []); levels.get(lvl).push(node)]
    on the insertion-ordered map [levels]. *)
Fixpoint pushToLevel (lvl : Z) (r : nat) (levels : list (Z * list nat))
    : list (Z * list nat) :=
  match levels with
  | [] => [(lvl, [r])]
  | (l, row) :: levels' =>
      if decide (l = lvl) then (l, row ++ [r]) :: levels'
      else (l, row) :: pushToLevel lvl r levels'
  end.

(** The first [forEach] of the branch; [maxLevel] is computed there and
    never read, and is left out. *)
Definition groupByLevel (ns : list FlowchartNode) (sorted : list nat)
    : list (Z * list nat) :=
  foldl (fun levels r => pushToLevel (levelOf ns r) r levels) [] sorted.

Definition maxRowWidth (levels : list (Z * list nat)) : Z :=
  foldl (fun m g => Z.max m (Z.of_nat (length g.2) * (NODE_WIDTH + X_GAP))) 0%Z levels.

Definition rowWidth (row : list nat) : Z :=
  Z.of_nat (length row) * (NODE_WIDTH + X_GAP) - X_GAP.

Definition startX (maxW : Z) (row : list nat) : Z :=
  (maxW - rowWidth row) / 2 + CANVAS_PADDING.

Definition rowPlace (sx lvl : Z) (ns : list FlowchartNode) (r index : nat)
    : list FlowchartNode :=
  alter (setXY (sx + Z.of_nat index * (NODE_WIDTH + X_GAP) + NODE_WIDTH / 2)
               (lvl * (NODE_HEIGHT + Y_GAP) + CANVAS_PADDING + NODE_HEIGHT / 2))
        r ns.

Definition placeLevel (maxW : Z) (ns : list FlowchartNode) (g : Z * list nat)
    : list FlowchartNode :=
  forEachFrom (rowPlace (startX maxW g.2) g.1) 0 g.2 ns.

Definition topBottomLayout (sorted : list nat) (ns : list FlowchartNode) :=
  let levels := groupByLevel ns sorted in
  foldl (placeLevel (maxRowWidth levels)) ns levels.

(** ** [computeLayout] *)

(** The nodes after level assignment. *)
Definition leveled (n0 : FlowchartNode) (ns : list FlowchartNode)
    (es : list FlowchartEdge) : list FlowchartNode :=
  store (bfs n0 ns es).

Definition applyLayout (direction : LayoutDirection) (ns : list FlowchartNode) :=
  match direction with
  | ZIG_ZAG => snakeLayout (sortedNodes ns) ns
  | TOP_BOTTOM => topBottomLayout (sortedNodes ns) ns
  end.

(** The value returned, which is also the content of the argument [data]
    after the call: its nodes are the objects mutated in place and its
    [edges] field was assigned the sanitized list. *)
Definition computeLayout (direction : LayoutDirection) (data : FlowchartData)
    : FlowchartData :=
  match nodes data with
  | [] => data
  | n0 :: _ =>
      let es := sanitizeEdges (nodes data) (edges data) in
      mkData (applyLayout direction (leveled n0 (nodes data) es)) es
  end.

(** ** The renderer's reading of a graph ([DiagramCanvas.tsx], lines 333-347) *)

(** [data.nodes.find(n => n.id === i)] *)
Definition findNode (ns : list FlowchartNode) (i : jsstring) : option FlowchartNode :=
  list_find (fun n => node_id n = i) ns ≫= (fun p => Some p.2).

(** The edges for which the [map] callback does not [return null] at
    [if (!src || !trg)]. *)
Definition drawnEdges (data : FlowchartData) : list FlowchartEdge :=
  filter (fun e => is_Some (findNode (nodes data) (edge_source e))
                   ∧ is_Some (findNode (nodes data) (edge_target e)))
         (edges data).

(** [Math.abs(tx - sx) < 20]: the edge is routed as a vertical one. *)
Definition isVerticalRoute (sx tx : Z) : bool :=
  bool_decide (Z.abs (tx - sx) < 20)%Z.

(** ** Text wrapping ([DiagramCanvas.tsx], lines 173-188) *)

(** [text.split(' ')]: the pieces between single spaces; the empty string
    gives one empty piece. *)
Fixpoint splitSpaces (s : jsstring) : list jsstring :=
  match s with
  | [] => [[]]
  | c :: s' =>
      if (c =? 32)%N then [] :: splitSpaces s'
      else match splitSpaces s' with
           | w :: ws => (c :: w) :: ws
           | [] => [[c]]
           end
  end.

(** The [for] loop of [wrapText], from [words[i]] on. *)
Fixpoint wrapWords (maxCharsPerLine : Z) (lines : list jsstring)
    (currentLine : jsstring) (words : list jsstring) : list jsstring * jsstring :=
  match words with
  | [] => (lines, currentLine)
  | w :: ws =>
      if (Z.of_nat (length currentLine + 1 + length w) <=? maxCharsPerLine)%Z
      then wrapWords maxCharsPerLine lines (currentLine ++ 32%N :: w) ws
      else wrapWords maxCharsPerLine (lines ++ [currentLine]) w ws
  end.

(** [wrapText]; [if (currentLine)] leaves an empty last line out. [split]
    never returns an empty array ([splitSpaces_cons]), so the first case is
    never taken. *)
Definition wrapText (text : jsstring) (maxCharsPerLine : Z) : list jsstring :=
  match splitSpaces text with
  | [] => []
  | w0 :: ws =>
      let (lines, currentLine) := wrapWords maxCharsPerLine [] w0 ws in
      match currentLine with
      | [] => lines
      | _ => lines ++ [currentLine]
      end
  end.

(** [lines.join(' ')] *)
Fixpoint joinSpaces (ls : list jsstring) : jsstring :=
  match ls with
  | [] => []
  | l :: ls' =>
      match ls' with
      | [] => l
      | _ => l ++ 32%N :: joinSpaces ls'
      end
  end.

(** The first word of a line: what precedes its first space. *)
Fixpoint firstWord (l : jsstring) : jsstring :=
  match l with
  | [] => []
  | c :: l' => if (c =? 32)%N then [] else c :: firstWord l'
  end.

(** Each line is followed by a line whose first word it had no room for. *)
Fixpoint greedy (maxCharsPerLine : Z) (ls : list jsstring) : Prop :=
  match ls with
  | [] => True
  | a :: ls' =>
      match ls' with
      | [] => True
      | b :: _ =>
          (maxCharsPerLine < Z.of_nat (length a + 1 + length (firstWord b)))%Z
          ∧ greedy maxCharsPerLine ls'
      end
  end.

(** ** The caller's state ([App.tsx], lines 165-171) *)

Record AppState := mkApp {
  app_layoutDirection : LayoutDirection;
  app_data : option FlowchartData
}.

(** [handleLayoutChange]: the two state fields it sets; [{...layoutData}] is
    a copy with the same content. *)
Definition handleLayoutChange (newDirection : LayoutDirection) (st : AppState)
    : AppState :=
  mkApp newDirection
        (match app_data st with
         | Some data => Some (computeLayout newDirection data)
         | None => None
         end).

(** ** The specification's vocabulary *)

(** Rule (i): both endpoints are ids of listed nodes. *)
Definition endpointsExist (ns : list FlowchartNode) (e : FlowchartEdge) : Prop :=
  Exists (fun n => node_id n = edge_source e) ns
  ∧ Exists (fun n => node_id n = edge_target e) ns.

(** Rule (ii). *)
Definition notSelfLoop (e : FlowchartEdge) : Prop :=
  edge_source e ≠ edge_target e.

(** The edge has a label whose trimmed length is positive. *)
Definition hasTrimmedLabel (e : FlowchartEdge) : Prop :=
  ∃ l, edge_label e = Some l ∧ 0 < length (trim l).

(** Rule (iii): a decision node as source demands such a label. *)
Definition decisionLabelled (ns : list FlowchartNode) (e : FlowchartEdge) : Prop :=
  Exists (fun n => node_id n = edge_source e ∧ node_shape n = DIAMOND) ns
  → hasTrimmedLabel e.

Definition passesFilters (ns : list FlowchartNode) (e : FlowchartEdge) : Prop :=
  endpointsExist ns e ∧ notSelfLoop e ∧ decisionLabelled ns e.

#[global] Instance hasTrimmedLabel_dec e : Decision (hasTrimmedLabel e).
Proof.
  unfold hasTrimmedLabel. destruct (edge_label e) as [l|].
  - destruct (decide (0 < length (trim l))) as [H|H].
    + left. eauto.
    + right. intros (l' & [= <-] & ?). done.
  - right. intros (l' & [=] & _).
Defined.

#[global] Instance passesFilters_dec ns e : Decision (passesFilters ns e).
Proof. unfold passesFilters, endpointsExist, notSelfLoop, decisionLabelled. apply _. Defined.

(** What identifies a node: the fields [computeLayout] must not touch. *)
Definition identity (n : FlowchartNode) : jsstring * jsstring * NodeShape :=
  (node_id n, node_label n, node_shape n).

(** [v] can be reached from [r] along edges of [es]. *)
Inductive reachable (es : list FlowchartEdge) (r : jsstring) : jsstring → Prop :=
  | reachable_root : reachable es r r
  | reachable_edge e v :
      reachable es r (edge_source e) → e ∈ es → v = edge_target e →
      reachable es r v.

(** The root and the discovering edges of the traversal [computeLayout]
    runs on [data]. *)
Definition rootOf (data : FlowchartData) : option jsstring :=
  match nodes data with
  | [] => None
  | n0 :: _ =>
      Some (startNodeId n0 (nodes data) (sanitizeEdges (nodes data) (edges data)))
  end.

Definition discoveries (data : FlowchartData) : list (jsstring * jsstring) :=
  match nodes data with
  | [] => []
  | n0 :: _ =>
      discovered (bfs n0 (nodes data) (sanitizeEdges (nodes data) (edges data)))
  end.

(** The sorted sequence of references the layout step walks. *)
Definition sortedSequence (data : FlowchartData) : list nat :=
  match nodes data with
  | [] => []
  | n0 :: _ =>
      sortedNodes (leveled n0 (nodes data) (sanitizeEdges (nodes data) (edges data)))
  end.

(** The rows of the top-bottom layout: the [levels] map. *)
Definition levelGroups (data : FlowchartData) : list (Z * list nat) :=
  match nodes data with
  | [] => []
  | n0 :: _ =>
      groupByLevel (leveled n0 (nodes data) (sanitizeEdges (nodes data) (edges data)))
                   (sortedSequence data)
  end.

(** ** Example graphs *)

Definition plainNode (i : string) (s : NodeShape) : FlowchartNode :=
  mkNode (str i) (str i) s None None None.

Definition plainEdge (a b : string) : FlowchartEdge :=
  mkEdge (str a) (str b) None.

(** A linear chain of nine nodes, [n0 → n1 → ... → n8]. *)
Definition chain9 : FlowchartData :=
  mkData
    [plainNode "n0" PILL; plainNode "n1" RECTANGLE; plainNode "n2" RECTANGLE;
     plainNode "n3" RECTANGLE; plainNode "n4" RECTANGLE; plainNode "n5" RECTANGLE;
     plainNode "n6" RECTANGLE; plainNode "n7" RECTANGLE; plainNode "n8" PILL]
    [plainEdge "n0" "n1"; plainEdge "n1" "n2"; plainEdge "n2" "n3";
     plainEdge "n3" "n4"; plainEdge "n4" "n5"; plainEdge "n5" "n6";
     plainEdge "n6" "n7"; plainEdge "n7" "n8"].

(** Scenario A of the specification: the unlabelled edge [B → E] leaves a
    decision node. *)
Definition scenarioA : FlowchartData :=
  mkData
    [plainNode "S" PILL; plainNode "A" RECTANGLE; plainNode "B" DIAMOND;
     plainNode "C" RECTANGLE; plainNode "D" RECTANGLE; plainNode "E" PILL]
    [plainEdge "S" "A"; plainEdge "A" "B";
     mkEdge (str "B") (str "C") (Some (str "Yes"));
     mkEdge (str "B") (str "D") (Some (str "No"));
     plainEdge "B" "E"].

(** Two nodes, the second with the empty string as id, and the edge from
    the second to the first. *)
Definition emptyIdGraph : FlowchartData :=
  mkData [plainNode "A" RECTANGLE; plainNode "" RECTANGLE] [plainEdge "" "A"].

(** A decision node [D] and a node [X] whose one incoming edge, [D → X],
    has no label. *)
Definition ghostRootGraph : FlowchartData :=
  mkData [plainNode "D" DIAMOND; plainNode "X" RECTANGLE]
         [plainEdge "X" "D"; plainEdge "D" "X"].

(** No nodes, one edge between ids that name nothing. *)
Definition noNodes : FlowchartData :=
  mkData [] [plainEdge "a" "b"].

(** ** Vocabulary of the traversal's correctness argument *)

(** The level stored in the node the node map holds for id [i]. *)
Definition repLevel (m : gmap jsstring nat) (s : list FlowchartNode)
    (i : jsstring) : Z :=
  match m !! i with
  | Some k => levelOf s k
  | None => 0%Z
  end.

(** The loop invariant. [E] gives every visited id the level it was
    enqueued with; [ids] are the ids of the nodes array. *)
Record bfsInv (es : list FlowchartEdge) (m : gmap jsstring nat) (root : jsstring)
    (ids : list jsstring) (E : gmap jsstring Z) (st : BfsState) : Prop := mkBfsInv {
  inv_root : E !! root = Some 0%Z;
  inv_visited : ∀ i, i ∈ visited st ↔ is_Some (E !! i);
  inv_known : ∀ i, is_Some (E !! i) → is_Some (m !! i);
  inv_nonneg : ∀ i l, E !! i = Some l → (0 ≤ l)%Z;
  inv_queue_nodup : NoDup (queue st).*1;
  inv_queue : ∀ i l, (i, l) ∈ queue st →
      E !! i = Some l ∧ repLevel m (store st) i = 0%Z;
  inv_done : ∀ i l, E !! i = Some l → i ∉ (queue st).*1 →
      repLevel m (store st) i = l;
  inv_fresh : ∀ i, E !! i = None → repLevel m (store st) i = 0%Z;
  inv_nonrep : ∀ k n, store st !! k = Some n → m !! (node_id n) ≠ Some k →
      node_level n = Some 0%Z;
  inv_disc : ∀ u v, (u, v) ∈ discovered st →
      (u ∉ (queue st).*1) ∧ ∃ l, E !! u = Some l ∧ E !! v = Some (l + 1)%Z;
  inv_disc_edge : ∀ u v, (u, v) ∈ discovered st →
      ∃ e, e ∈ es ∧ edge_source e = u ∧ edge_target e = v;
  inv_reach : ∀ i, i ∈ visited st → reachable es root i;
  inv_ids : node_id <$> store st = ids;
  inv_levels : Forall (fun n => is_Some (node_level n)) (store st)
}.

(** Edges whose target is still unvisited: with the queue's length, the
    measure that bounds the iterations left. *)
Definition unvisitedTargets (es : list FlowchartEdge) (st : BfsState)
    : list FlowchartEdge :=
  filter (fun e => edge_target e ∉ visited st) es.

(** How a traversal state [st'] extends an earlier one [st]: ids are only
    added, an id enters the queue when it enters [visited], and a newly
    visited id comes with its discovering edge. *)
Record bfsGrows (st st' : BfsState) : Prop := mkBfsGrows {
  grows_visited : ∀ j, j ∈ visited st → j ∈ visited st';
  grows_queue : ∀ j, j ∈ (queue st).*1 → j ∈ (queue st').*1;
  grows_queued : ∀ j, j ∈ (queue st').*1 →
      j ∈ (queue st).*1 ∨ (j ∈ visited st' ∧ j ∉ visited st);
  grows_new : ∀ j, j ∈ visited st' → j ∈ visited st ∨ j ∈ (queue st').*1;
  grows_log : ∀ p, p ∈ discovered st → p ∈ discovered st';
  grows_discovered : ∀ v, v ∈ visited st' →
      v ∈ visited st ∨ ∃ u, (u, v) ∈ discovered st'
}.

(** Every id that left the queue has all its successors visited. *)
Record bfsClosed (es : list FlowchartEdge) (root : jsstring) (st : BfsState)
    : Prop := mkBfsClosed {
  closed_queue : ∀ j, j ∈ (queue st).*1 → j ∈ visited st;
  closed_root : root ∈ visited st;
  closed_edges : ∀ e, e ∈ es → edge_source e ∈ visited st →
      edge_source e ∉ (queue st).*1 → edge_target e ∈ visited st;
  closed_discovered : ∀ v, v ∈ visited st → v = root ∨ ∃ u, (u, v) ∈ discovered st
}.

(** ** Vocabulary of the shortest-path argument *)

(** A path of [k] edges of [es] from [r] to an id. *)
Inductive pathLen (es : list FlowchartEdge) (r : jsstring) : nat → jsstring → Prop :=
  | pathLen_root : pathLen es r 0 r
  | pathLen_edge k e v :
      pathLen es r k (edge_source e) → e ∈ es → v = edge_target e →
      pathLen es r (S k) v.

(** The target of [e] is visited and its level, the one it waits with in
    the queue or else the stored one, is at most one more than the stored
    level of the source. *)
Definition relaxed (m : gmap jsstring nat) (st : BfsState) (e : FlowchartEdge) : Prop :=
  edge_target e ∈ visited st
  ∧ (∀ l, (edge_target e, l) ∈ queue st →
       (l ≤ repLevel m (store st) (edge_source e) + 1)%Z)
  ∧ (edge_target e ∉ (queue st).*1 →
       (repLevel m (store st) (edge_target e)
        ≤ repLevel m (store st) (edge_source e) + 1)%Z).

(** The breadth-first order: the queue holds levels [c] and [c + 1], in
    this order, every id that left it has a level of at most [c] and a path
    of that length, and the edges out of those ids, [cur] apart (the id
    whose edges are being walked), are relaxed. *)
Record bfsDist (es : list FlowchartEdge) (m : gmap jsstring nat) (root : jsstring)
    (c : Z) (cur : option jsstring) (st : BfsState) : Prop := mkBfsDist {
  dist_nonneg : (0 ≤ c)%Z;
  dist_range : ∀ j l, (j, l) ∈ queue st → (c ≤ l ≤ c + 1)%Z;
  dist_sorted : StronglySorted Z.le (queue st).*2;
  dist_queue_visited : ∀ j, j ∈ (queue st).*1 → j ∈ visited st;
  dist_done : ∀ j, j ∈ visited st → j ∉ (queue st).*1 →
      (repLevel m (store st) j ≤ c)%Z;
  dist_path_queue : ∀ j l, (j, l) ∈ queue st → pathLen es root (Z.to_nat l) j;
  dist_path_done : ∀ j, j ∈ visited st → j ∉ (queue st).*1 →
      pathLen es root (Z.to_nat (repLevel m (store st) j)) j;
  dist_relaxed : ∀ e, e ∈ es → edge_source e ∈ visited st →
      edge_source e ∉ (queue st).*1 → Some (edge_source e) ≠ cur → relaxed m st e
}.

(** ** Vocabulary of the layout argument *)

(** The shape both [forEach] bodies of the layout step have: the node [r]
    met at position [i] gets the coordinates [(fx i, fy i)]. *)
Definition placeAt (fx fy : nat → Z) (ns : list FlowchartNode) (r i : nat)
    : list FlowchartNode :=
  alter (setXY (fx i) (fy i)) r ns.

(** ** Vocabulary of the re-layout argument *)

(** A node without its coordinates. *)
Definition eraseXY (n : FlowchartNode) : FlowchartNode :=
  mkNode (node_id n) (node_label n) (node_shape n) None None (node_level n).

(** A traversal state with [f] applied to every node of its store. *)
Definition mapStore (f : FlowchartNode → FlowchartNode) (st : BfsState) : BfsState :=
  mkBfs (queue st) (visited st) (f <$> store st) (discovered st).

(** * Properties *)

(** ** Sanitization *)

Lemma elem_of_nodeIds ns i :
  i ∈ nodeIds ns ↔ Exists (fun n => node_id n = i) ns.
Proof.
  unfold nodeIds. rewrite elem_of_list_to_set, list_elem_of_fmap, Exists_exists.
  split; intros (n & H1 & H2); eauto.
Qed.

Lemma elem_of_diamondNodeIds ns i :
  i ∈ diamondNodeIds ns ↔ Exists (fun n => node_id n = i ∧ node_shape n = DIAMOND) ns.
Proof.
  unfold diamondNodeIds.
  rewrite elem_of_list_to_set, list_elem_of_fmap, Exists_exists.
  setoid_rewrite list_elem_of_filter.
  split; [intros (n & H1 & H2 & H3)|intros (n & H1 & H2 & H3)]; eauto.
Qed.

Lemma labelled_spec e : labelled e = true ↔ hasTrimmedLabel e.
Proof.
  unfold labelled, hasTrimmedLabel. destruct (edge_label e) as [[|c l]|].
  - split; [done|]. intros (l' & [= <-] & H). cbn in H. lia.
  - rewrite bool_decide_eq_true. split; [eauto|]. by intros (l' & [= <-] & H).
  - split; [done|]. by intros (l' & [=] & _).
Qed.

Lemma sanitizeEdges_filter ns es :
  sanitizeEdges ns es = filter (passesFilters ns) es.
Proof.
  unfold sanitizeEdges, removeGhostEdges, removeSelfLoops, removeDangling.
  rewrite !list_filter_filter. apply list_filter_iff. intros e.
  unfold passesFilters, endpointsExist, notSelfLoop, decisionLabelled.
  rewrite !elem_of_nodeIds, elem_of_diamondNodeIds, labelled_spec. tauto.
Qed.

Lemma sanitizeEdges_idemp ns es :
  sanitizeEdges ns (sanitizeEdges ns es) = sanitizeEdges ns es.
Proof.
  rewrite !sanitizeEdges_filter, list_filter_filter.
  apply list_filter_iff. tauto.
Qed.

Lemma computeLayout_nil d data : nodes data = [] → computeLayout d data = data.
Proof. intros H. unfold computeLayout. by rewrite H. Qed.

Lemma computeLayout_edges d data :
  nodes data ≠ [] →
  edges (computeLayout d data) = sanitizeEdges (nodes data) (edges data).
Proof. unfold computeLayout. by destruct (nodes data). Qed.

(** C1. With a non-empty node list, the edges [computeLayout] returns are
    the input edges that pass the three filters (endpoints exist, no
    self-loop, labelled when the source is a decision node): the same list
    filtered, so in input order, each passing edge kept and each failing
    edge dropped. *)
Theorem C1_sanitization_characterization d data :
  nodes data ≠ [] →
  edges (computeLayout d data) = filter (passesFilters (nodes data)) (edges data)
  ∧ edges (computeLayout d data) `sublist_of` edges data
  ∧ ∀ e, e ∈ edges (computeLayout d data)
         ↔ e ∈ edges data ∧ passesFilters (nodes data) e.
Proof.
  intros Hne. rewrite computeLayout_edges, sanitizeEdges_filter by done.
  split; [done|]. split; [apply sublist_filter|].
  intros e. rewrite list_elem_of_filter. tauto.
Qed.

(** C7. Sanitizing a sanitized graph removes nothing more. *)
Theorem C7_sanitize_idempotent data :
  sanitize (sanitize data) = sanitize data.
Proof. unfold sanitize. f_equal. apply sanitizeEdges_idemp. Qed.

(** C9. On an empty node list [computeLayout] returns its argument as it
    is: in particular the edge list is not sanitized. *)
Theorem C9_empty_graph_guard d data :
  nodes data = [] →
  computeLayout d data = data ∧ edges (computeLayout d data) = edges data.
Proof. intros H. by rewrite (computeLayout_nil d data H). Qed.

(** ** Frame lemmas: what a field assignment leaves alone *)

Lemma fmap_alter_frame {B} (f : FlowchartNode → B) g i (ns : list FlowchartNode) :
  (∀ n, f (g n) = f n) → f <$> alter g i ns = f <$> ns.
Proof.
  intros H. revert i. induction ns as [|a ns' IH]; intros [|i]; csimpl; [done..| |].
  - by rewrite H.
  - by rewrite IH.
Qed.

Lemma raiseLevel_frame {B} (f : FlowchartNode → B) m i l ns :
  (∀ l n, f (setLevel l n) = f n) → f <$> raiseLevel m i l ns = f <$> ns.
Proof.
  intros H. unfold raiseLevel. destruct (m !! i) as [r|]; [|done].
  apply fmap_alter_frame. intros n. apply H.
Qed.

Lemma visitEdges_store l st es :
  store (foldl (visitEdge l) st es) = store st.
Proof.
  revert st. induction es as [|e es IH]; intros st; [done|]. cbn [foldl].
  rewrite IH. unfold visitEdge. by case_decide.
Qed.

Lemma bfsStep_store es m i l q st :
  store (bfsStep es m i l q st) = raiseLevel m i l (store st).
Proof. unfold bfsStep. by rewrite visitEdges_store. Qed.

Lemma bfsLoop_frame {B} (f : FlowchartNode → B) fuel es m st :
  (∀ l n, f (setLevel l n) = f n) →
  f <$> store (bfsLoop fuel es m st) = f <$> store st.
Proof.
  intros H. revert st. induction fuel as [|fuel IH]; intros st; [done|].
  cbn [bfsLoop]. destruct (queue st) as [|[i l] q]; [done|].
  by rewrite IH, bfsStep_store, raiseLevel_frame.
Qed.

Lemma leveled_frame {B} (f : FlowchartNode → B) n0 ns es :
  (∀ l n, f (setLevel l n) = f n) → f <$> leveled n0 ns es = f <$> ns.
Proof.
  intros H. unfold leveled, bfs. rewrite bfsLoop_frame by done. cbn [store].
  unfold resetLevels. rewrite <- list_fmap_compose. apply list_fmap_ext.
  intros _ n _. apply H.
Qed.

Lemma forEachFrom_frame {A B} (f : FlowchartNode → B)
    (step : list FlowchartNode → A → nat → list FlowchartNode) k l ns :
  (∀ ns a i, f <$> step ns a i = f <$> ns) →
  f <$> forEachFrom step k l ns = f <$> ns.
Proof.
  intros H. revert k ns. induction l as [|a l IH]; intros k ns; [done|].
  cbn [forEachFrom]. by rewrite IH, H.
Qed.

Lemma snakeLayout_frame {B} (f : FlowchartNode → B) sorted ns :
  (∀ x y n, f (setXY x y n) = f n) → f <$> snakeLayout sorted ns = f <$> ns.
Proof.
  intros H. apply forEachFrom_frame. intros ns' r i.
  apply fmap_alter_frame. intros n. apply H.
Qed.

Lemma placeLevels_frame {B} (f : FlowchartNode → B) maxW levels ns :
  (∀ x y n, f (setXY x y n) = f n) →
  f <$> foldl (placeLevel maxW) ns levels = f <$> ns.
Proof.
  intros H. revert ns. induction levels as [|g levels IH]; intros ns; [done|].
  cbn [foldl]. rewrite IH. apply forEachFrom_frame. intros ns' r i.
  apply fmap_alter_frame. intros n. apply H.
Qed.

Lemma applyLayout_frame {B} (f : FlowchartNode → B) d ns :
  (∀ x y n, f (setXY x y n) = f n) → f <$> applyLayout d ns = f <$> ns.
Proof.
  intros H. destruct d; [apply placeLevels_frame|apply snakeLayout_frame]; done.
Qed.

Lemma computeLayout_frame {B} (f : FlowchartNode → B) d data :
  (∀ l n, f (setLevel l n) = f n) → (∀ x y n, f (setXY x y n) = f n) →
  f <$> nodes (computeLayout d data) = f <$> nodes data.
Proof.
  intros Hl Hxy. unfold computeLayout. destruct (nodes data) as [|n0 ns] eqn:E; [by rewrite E|].
  cbn [nodes]. by rewrite applyLayout_frame, leveled_frame.
Qed.

(** C8. [computeLayout] leaves the id, label and shape of every node as
    they were, node by node: the output lists the same nodes, as many and
    in the same order; what changes in a node is among level, x and y. *)
Theorem C8_frame d data :
  identity <$> nodes (computeLayout d data) = identity <$> nodes data
  ∧ length (nodes (computeLayout d data)) = length (nodes data)
  ∧ ∀ i n, nodes data !! i = Some n →
      ∃ n', nodes (computeLayout d data) !! i = Some n'
            ∧ node_id n' = node_id n ∧ node_label n' = node_label n
            ∧ node_shape n' = node_shape n.
Proof.
  assert (identity <$> nodes (computeLayout d data) = identity <$> nodes data) as H
    by by apply computeLayout_frame.
  split; [done|]. split.
  - by rewrite <- (length_fmap identity), H, length_fmap.
  - intros i n Hi.
    assert ((identity <$> nodes (computeLayout d data)) !! i = Some (identity n)) as H'
      by by rewrite H, list_lookup_fmap, Hi.
    rewrite list_lookup_fmap in H'.
    destruct (nodes (computeLayout d data) !! i) as [n'|]; [|done].
    exists n'. injection H' as H1 H2 H3. done.
Qed.

(** ** The sorted sequence is a rearrangement of all references *)

Lemma insertSorted_Permutation {A} (cmp : A → A → Z) a l :
  insertSorted cmp a l ≡ₚ a :: l.
Proof.
  induction l as [|b l IH]; [done|]. cbn [insertSorted].
  destruct (cmp a b <=? 0)%Z; [done|]. rewrite IH. apply Permutation_swap.
Qed.

Lemma stableSort_Permutation {A} (cmp : A → A → Z) l : stableSort cmp l ≡ₚ l.
Proof.
  induction l as [|a l IH]; [done|]. unfold stableSort in *. cbn [foldr].
  by rewrite insertSorted_Permutation, IH.
Qed.

Lemma stableSort_ext {A} (cmp cmp' : A → A → Z) l :
  (∀ a b, cmp a b = cmp' a b) → stableSort cmp l = stableSort cmp' l.
Proof.
  intros H. induction l as [|a l IH]; [done|]. unfold stableSort in *. cbn [foldr].
  rewrite IH. generalize (foldr (insertSorted cmp') [] l). intros s.
  induction s as [|b s IHs]; [done|]. cbn [insertSorted]. by rewrite H, IHs.
Qed.

Lemma sortedNodes_Permutation ns : sortedNodes ns ≡ₚ seq 0 (length ns).
Proof. apply stableSort_Permutation. Qed.

Lemma sortedNodes_NoDup ns : NoDup (sortedNodes ns).
Proof. rewrite sortedNodes_Permutation. apply NoDup_seq. Qed.

Lemma elem_of_sortedNodes ns r : r ∈ sortedNodes ns ↔ r < length ns.
Proof. rewrite sortedNodes_Permutation, elem_of_seq. lia. Qed.

(** Whatever [localeCompare] answers, levels never decrease along the
    sorted sequence. *)
Lemma insertSorted_key {A} (cmp : A → A → Z) (P : A → Prop) (key : A → Z) a l :
  (∀ a b, P a → P b → (cmp a b ≤ 0)%Z → (key a ≤ key b)%Z) →
  (∀ a b, P a → P b → (0 < cmp a b)%Z → (key b ≤ key a)%Z) →
  P a → Forall P l →
  StronglySorted (fun a b => (key a ≤ key b)%Z) l →
  StronglySorted (fun a b => (key a ≤ key b)%Z) (insertSorted cmp a l).
Proof.
  intros Hle Hgt Ha HP Hs. induction Hs as [|b l Hs IH Hb]; cbn [insertSorted].
  { repeat constructor. }
  apply Forall_cons in HP as [Pb HP].
  destruct (Z.leb_spec (cmp a b) 0) as [Hc|Hc].
  - constructor; [by constructor|]. constructor; [by apply Hle|].
    rewrite Forall_forall in Hb |- *. intros c Hc'.
    etrans; [by apply Hle|by apply Hb].
  - constructor; [by apply IH|].
    rewrite insertSorted_Permutation. constructor; [by apply Hgt|done].
Qed.

Lemma sortedNodes_by_level ns :
  StronglySorted (fun i j => (levelOf ns i ≤ levelOf ns j)%Z) (sortedNodes ns).
Proof.
  unfold sortedNodes.
  assert (Forall (fun r => r < length ns) (seq 0 (length ns))) as HP
    by (apply Forall_forall; intros r Hr%elem_of_seq; lia).
  revert HP. generalize (seq 0 (length ns)). intros l HP.
  induction HP as [|r l Hr HP IH]; [constructor|].
  unfold stableSort in *. cbn [foldr].
  apply (insertSorted_key _ (fun r => r < length ns)); try done.
  - intros i j [a Hi]%lookup_lt_is_Some [b Hj]%lookup_lt_is_Some.
    unfold compareRefs, levelOf, compareNodes. rewrite Hi, Hj. cbn.
    case_decide; lia.
  - intros i j [a Hi]%lookup_lt_is_Some [b Hj]%lookup_lt_is_Some.
    unfold compareRefs, levelOf, compareNodes. rewrite Hi, Hj. cbn.
    case_decide; lia.
  - fold (stableSort (compareRefs ns) l). by rewrite stableSort_Permutation.
Qed.

(** ** Reading a node after a [forEach] of placements *)

Section Placement.
Variables fx fy : nat → Z.

Lemma forEachFrom_place_notin k (l : list nat) ns r :
  r ∉ l → forEachFrom (placeAt fx fy) k l ns !! r = ns !! r.
Proof.
  revert k ns. induction l as [|a l IH]; intros k ns Hr; [done|].
  cbn [forEachFrom]. rewrite IH by set_solver.
  apply list_lookup_alter_ne. set_solver.
Qed.

Lemma forEachFrom_place_in k (l : list nat) ns i r :
  NoDup l → l !! i = Some r →
  forEachFrom (placeAt fx fy) k l ns !! r
  = setXY (fx (k + i)) (fy (k + i)) <$> ns !! r.
Proof.
  revert k ns i. induction l as [|a l IH]; intros k ns i Hnd Hi; [done|].
  apply NoDup_cons in Hnd as [Ha Hnd]. cbn [forEachFrom]. destruct i as [|i].
  - injection Hi as ->. rewrite forEachFrom_place_notin by done.
    rewrite Nat.add_0_r. apply list_lookup_alter_eq.
  - cbn in Hi. rewrite (IH _ _ i) by done.
    replace (S k + i) with (k + S i) by lia. f_equal.
    apply list_lookup_alter_ne. intros ->.
    apply Ha. by eapply list_elem_of_lookup_2.
Qed.
End Placement.

(** ** Levels are defined after level assignment *)

Lemma alter_Forall {A} (P : A → Prop) f i (l : list A) :
  (∀ a, P a → P (f a)) → Forall P l → Forall P (alter f i l).
Proof.
  intros Hf Hl. revert i. induction Hl as [|a l Ha Hl IH]; intros [|i]; cbn; auto.
Qed.

Lemma bfsLoop_Forall (P : FlowchartNode → Prop) fuel es m st :
  (∀ l n, P (setLevel l n)) →
  Forall P (store st) → Forall P (store (bfsLoop fuel es m st)).
Proof.
  intros HP. revert st. induction fuel as [|fuel IH]; intros st H; [done|].
  cbn [bfsLoop]. destruct (queue st) as [|[i l] q]; [done|].
  apply IH. rewrite bfsStep_store. unfold raiseLevel.
  destruct (m !! i) as [r|]; [|done].
  apply alter_Forall; [|done]. intros n _. apply HP.
Qed.

Lemma leveled_has_level n0 ns es :
  Forall (fun n => is_Some (node_level n)) (leveled n0 ns es).
Proof.
  unfold leveled, bfs. apply bfsLoop_Forall; [by eexists|]. cbn [store].
  unfold resetLevels. apply Forall_fmap, Forall_true. intros n. by eexists.
Qed.

Lemma levelOf_lookup ns r n :
  ns !! r = Some n → is_Some (node_level n) → node_level n = Some (levelOf ns r).
Proof.
  intros Hr [l Hl]. unfold levelOf, levelOr0. by rewrite Hr; cbn; rewrite Hl.
Qed.

(** ** The sorted sequence *)

Lemma fmap_eq_lookup {A B} (f : A → B) (l1 l2 : list A) k a :
  f <$> l1 = f <$> l2 → l1 !! k = Some a → ∃ b, l2 !! k = Some b ∧ f b = f a.
Proof.
  intros H Hk. assert ((f <$> l2) !! k = Some (f a)) as H'
    by by rewrite <- H, list_lookup_fmap, Hk.
  rewrite list_lookup_fmap in H'. destruct (l2 !! k) as [b|]; [|done].
  exists b. split; [done|]. by injection H'.
Qed.

Lemma computeLayout_cons d data n0 ns' :
  nodes data = n0 :: ns' →
  computeLayout d data =
    mkData (applyLayout d (leveled n0 (nodes data)
                                  (sanitizeEdges (nodes data) (edges data))))
           (sanitizeEdges (nodes data) (edges data)).
Proof. intros H. unfold computeLayout. by rewrite H. Qed.

Lemma leveled_length n0 ns es : length (leveled n0 ns es) = length ns.
Proof. by rewrite <- (length_fmap node_id), leveled_frame, length_fmap. Qed.

Lemma StronglySorted_lookup {A} (R : A → A → Prop) l i j a b :
  StronglySorted R l → i < j → l !! i = Some a → l !! j = Some b → R a b.
Proof.
  intros Hs. revert i j. induction Hs as [|c l Hs IH Hc]; intros i j Hij Hi Hj; [done|].
  destruct j as [|j]; [lia|]. cbn in Hj. destruct i as [|i].
  - injection Hi as ->. rewrite Forall_forall in Hc. apply Hc.
    by eapply list_elem_of_lookup_2.
  - cbn in Hi. apply (IH i j); [lia|done..].
Qed.

Lemma insertSorted_sorted {A} (cmp : A → A → Z) (P : A → Prop) a l :
  (∀ a b c, P a → P b → P c → (cmp a b ≤ 0)%Z → (cmp b c ≤ 0)%Z → (cmp a c ≤ 0)%Z) →
  (∀ a b, P a → P b → (0 < cmp a b)%Z → (cmp b a ≤ 0)%Z) →
  P a → Forall P l →
  StronglySorted (fun a b => (cmp a b ≤ 0)%Z) l →
  StronglySorted (fun a b => (cmp a b ≤ 0)%Z) (insertSorted cmp a l).
Proof.
  intros Htr Htot Ha HP Hs. induction Hs as [|b l Hs IH Hb]; cbn [insertSorted].
  { repeat constructor. }
  apply Forall_cons in HP as [Pb HP].
  destruct (Z.leb_spec (cmp a b) 0) as [Hc|Hc].
  - constructor; [by constructor|]. constructor; [done|].
    rewrite Forall_forall in Hb, HP |- *. intros c Hc'.
    apply (Htr a b c); auto.
  - constructor; [by apply IH|].
    rewrite insertSorted_Permutation. constructor; [by apply Htot|done].
Qed.

Lemma sortedNodes_sorted ns :
  (∀ a b c, (localeCompare a b ≤ 0)%Z → (localeCompare b c ≤ 0)%Z →
            (localeCompare a c ≤ 0)%Z) →
  (∀ a b, (0 < localeCompare a b)%Z → (localeCompare b a ≤ 0)%Z) →
  StronglySorted (fun i j => (compareRefs ns i j ≤ 0)%Z) (sortedNodes ns).
Proof.
  intros Htr Htot. unfold sortedNodes.
  assert (Forall (fun r => r < length ns) (seq 0 (length ns))) as HP
    by (apply Forall_forall; intros r Hr%elem_of_seq; lia).
  revert HP. generalize (seq 0 (length ns)). intros l HP.
  induction HP as [|r l Hr HP IH]; [constructor|].
  unfold stableSort in *. cbn [foldr].
  apply (insertSorted_sorted _ (fun r => r < length ns)); try done.
  - intros i j k [a Hi]%lookup_lt_is_Some [b Hj]%lookup_lt_is_Some
      [c Hk]%lookup_lt_is_Some.
    unfold compareRefs, compareNodes. rewrite Hi, Hj, Hk.
    repeat case_decide; try lia. apply Htr.
  - intros i j [a Hi]%lookup_lt_is_Some [b Hj]%lookup_lt_is_Some.
    unfold compareRefs, compareNodes. rewrite Hi, Hj.
    repeat case_decide; try lia. apply Htot.
  - fold (stableSort (compareRefs ns) l). by rewrite stableSort_Permutation.
Qed.

Lemma sortedSequence_order d data :
  sortedSequence data ≡ₚ seq 0 (length (nodes data))
  ∧ (∀ i j ri rj ni nj,
       i < j → sortedSequence data !! i = Some ri → sortedSequence data !! j = Some rj →
       nodes (computeLayout d data) !! ri = Some ni →
       nodes (computeLayout d data) !! rj = Some nj →
       ∃ li lj, node_level ni = Some li ∧ node_level nj = Some lj ∧ (li ≤ lj)%Z
         ∧ ((∀ a b c, (localeCompare a b ≤ 0)%Z → (localeCompare b c ≤ 0)%Z →
                      (localeCompare a c ≤ 0)%Z) →
            (∀ a b, (0 < localeCompare a b)%Z → (localeCompare b a ≤ 0)%Z) →
            li = lj → (localeCompare (node_id ni) (node_id nj) ≤ 0)%Z)).
Proof.
  destruct (nodes data) as [|n0 ns'] eqn:Hns.
  { unfold sortedSequence. rewrite Hns. split; [done|]. by intros [|?] j ri. }
  unfold sortedSequence. rewrite Hns, <- Hns.
  rewrite (computeLayout_cons d data n0 ns' Hns). cbn [nodes].
  set (L := leveled n0 (nodes data) (sanitizeEdges (nodes data) (edges data))).
  split; [unfold L; by rewrite sortedNodes_Permutation, leveled_length|].
  intros i j ri rj ni nj Hij Hi Hj Hni Hnj.
  destruct (fmap_eq_lookup (fun n => (node_id n, node_level n)) _ L ri ni
              (applyLayout_frame (fun n => (node_id n, node_level n)) d _
                 (fun _ _ _ => eq_refl)) Hni) as (mi & Hmi & [= Hidi Hli]).
  destruct (fmap_eq_lookup (fun n => (node_id n, node_level n)) _ L rj nj
              (applyLayout_frame (fun n => (node_id n, node_level n)) d _
                 (fun _ _ _ => eq_refl)) Hnj) as (mj & Hmj & [= Hidj Hlj]).
  pose proof (leveled_has_level n0 (nodes data)
                (sanitizeEdges (nodes data) (edges data))) as Hlev.
  fold L in Hlev. rewrite Forall_forall in Hlev.
  pose proof (levelOf_lookup L ri mi Hmi (Hlev _ (list_elem_of_lookup_2 _ _ _ Hmi))) as Hi'.
  pose proof (levelOf_lookup L rj mj Hmj (Hlev _ (list_elem_of_lookup_2 _ _ _ Hmj))) as Hj'.
  exists (levelOf L ri), (levelOf L rj).
  split; [congruence|]. split; [congruence|]. split.
  - apply (StronglySorted_lookup _ _ i j ri rj (sortedNodes_by_level L) Hij Hi Hj).
  - intros Htr Htot Heq.
    pose proof (StronglySorted_lookup _ _ i j ri rj (sortedNodes_sorted L Htr Htot)
                  Hij Hi Hj) as Hc.
    unfold compareRefs, compareNodes in Hc. rewrite Hmi, Hmj in Hc.
    unfold levelOf in Heq. rewrite Hmi, Hmj in Heq. cbn in Heq.
    case_decide; [done|]. by rewrite <- Hidi, <- Hidj.
Qed.

(** ** Zig-zag geometry *)

Lemma snakeLayout_lookup sorted ns i r :
  NoDup sorted → sorted !! i = Some r →
  snakeLayout sorted ns !! r =
    setXY (Z.of_nat (snakeCol i) * (NODE_WIDTH + X_GAP) + CANVAS_PADDING + NODE_WIDTH / 2)
          (Z.of_nat (snakeRow i) * (NODE_HEIGHT + Y_GAP) + CANVAS_PADDING + NODE_HEIGHT / 2)
      <$> ns !! r.
Proof.
  intros Hnd Hi. unfold snakeLayout.
  exact (forEachFrom_place_in
    (fun i => Z.of_nat (snakeCol i) * (NODE_WIDTH + X_GAP) + CANVAS_PADDING + NODE_WIDTH / 2)%Z
    (fun i => Z.of_nat (snakeRow i) * (NODE_HEIGHT + Y_GAP) + CANVAS_PADDING + NODE_HEIGHT / 2)%Z
    0 sorted ns i r Hnd Hi).
Qed.

(** C4. The sorted sequence lists every node exactly once, by level and,
    within a level, by id: levels never decrease along it and, when
    [localeCompare] is a total preorder, nodes of one level come in the
    order of their ids. Under the zig-zag direction the node at index [i]
    of this sequence is placed at row [i div 4] and column [i mod 4],
    reflected to [3 - i mod 4] on odd rows, with centre
    [x = col * (220 + 60) + 50 + 110] and [y = row * (140 + 100) + 50 + 70].
    On the nine-node chain the sequence is the chain itself, the node at
    index 4 is at column 3 of row 1 and the node at index 7 at column 0 of
    row 1. *)
Theorem C4_snake_geometry :
  (∀ data, sortedSequence data ≡ₚ seq 0 (length (nodes data)))
  ∧ (∀ data i j ri rj ni nj,
       i < j → sortedSequence data !! i = Some ri → sortedSequence data !! j = Some rj →
       nodes (computeLayout ZIG_ZAG data) !! ri = Some ni →
       nodes (computeLayout ZIG_ZAG data) !! rj = Some nj →
       ∃ li lj, node_level ni = Some li ∧ node_level nj = Some lj ∧ (li ≤ lj)%Z
         ∧ ((∀ a b c, (localeCompare a b ≤ 0)%Z → (localeCompare b c ≤ 0)%Z →
                      (localeCompare a c ≤ 0)%Z) →
            (∀ a b, (0 < localeCompare a b)%Z → (localeCompare b a ≤ 0)%Z) →
            li = lj → (localeCompare (node_id ni) (node_id nj) ≤ 0)%Z))
  ∧ (∀ data i r,
     sortedSequence data !! i = Some r →
     let row := i / 4 in
     let col := if Nat.odd row then 3 - i mod 4 else i mod 4 in
     ∃ n, nodes (computeLayout ZIG_ZAG data) !! r = Some n
          ∧ node_x n = Some (Z.of_nat col * (220 + 60) + 50 + 110)%Z
          ∧ node_y n = Some (Z.of_nat row * (140 + 100) + 50 + 70)%Z)
  ∧ sortedSequence chain9 = [0; 1; 2; 3; 4; 5; 6; 7; 8]
  ∧ (node_id <$> nodes (computeLayout ZIG_ZAG chain9) !! 4 = Some (str "n4")
     ∧ node_x <$> nodes (computeLayout ZIG_ZAG chain9) !! 4 = Some (Some (3 * (220 + 60) + 50 + 110)%Z)
     ∧ node_y <$> nodes (computeLayout ZIG_ZAG chain9) !! 4 = Some (Some (1 * (140 + 100) + 50 + 70)%Z))
  ∧ (node_id <$> nodes (computeLayout ZIG_ZAG chain9) !! 7 = Some (str "n7")
     ∧ node_x <$> nodes (computeLayout ZIG_ZAG chain9) !! 7 = Some (Some (0 * (220 + 60) + 50 + 110)%Z)
     ∧ node_y <$> nodes (computeLayout ZIG_ZAG chain9) !! 7 = Some (Some (1 * (140 + 100) + 50 + 70)%Z)).
Proof.
  split; [intros data; apply (proj1 (sortedSequence_order ZIG_ZAG data))|].
  split; [intros data; apply (proj2 (sortedSequence_order ZIG_ZAG data))|].
  split; [|by vm_compute].
  intros data i r Hi row col. unfold sortedSequence, computeLayout in *.
  destruct (nodes data) as [|n0 ns]; [done|].
  set (L := leveled _ _ _) in *. cbn [nodes applyLayout].
  rewrite (snakeLayout_lookup _ _ i) by (done || apply sortedNodes_NoDup).
  assert (r < length L) as Hr.
  { apply elem_of_sortedNodes. by eapply list_elem_of_lookup_2. }
  apply lookup_lt_is_Some in Hr as [n Hn]. rewrite Hn. cbn [fmap option_fmap option_map].
  eexists. split; [done|]. cbn [setXY node_x node_y].
  assert (snakeRow i = row) as -> by done.
  assert (snakeCol i = col) as ->.
  { unfold snakeCol, col. assert (snakeRow i = row) as -> by done.
    unfold SNAKE_COLUMNS. pose proof (Nat.mod_upper_bound row 2).
    destruct (Nat.odd row) eqn:E.
    - apply Nat.odd_spec in E as [m ->].
      replace ((2 * m + 1) mod 2) with 1 by (apply (Nat.mod_unique _ 2 m); lia).
      case_decide; lia.
    - rewrite <- Nat.negb_even in E. apply negb_false_iff, Nat.even_spec in E as [m ->].
      replace ((2 * m) mod 2) with 0 by (apply (Nat.mod_unique _ 2 m); lia).
      case_decide; lia. }
  done.
Qed.

(** ** Top-bottom geometry *)

Lemma pushToLevel_keys lvl r levels l :
  l ∈ (pushToLevel lvl r levels).*1 ↔ l = lvl ∨ l ∈ levels.*1.
Proof.
  induction levels as [|[l' row] levels IH]; cbn [pushToLevel].
  - cbn. rewrite list_elem_of_singleton, elem_of_nil. tauto.
  - case_decide as E; cbn [fmap list_fmap fst].
    + subst. rewrite !elem_of_cons. cbn. tauto.
    + rewrite !elem_of_cons, IH. cbn. tauto.
Qed.

Lemma pushToLevel_NoDup lvl r levels :
  NoDup levels.*1 → NoDup (pushToLevel lvl r levels).*1.
Proof.
  induction levels as [|[l' row] levels IH]; cbn [pushToLevel]; intros Hnd.
  - cbn. apply NoDup_singleton.
  - cbn in Hnd. apply NoDup_cons in Hnd as [Hl' Hnd]. case_decide as E; cbn.
    + apply NoDup_cons. done.
    + apply NoDup_cons. split; [|auto].
      rewrite pushToLevel_keys. intros [?|?]; done.
Qed.

Lemma pushToLevel_members lvl r levels :
  concat (pushToLevel lvl r levels).*2 ≡ₚ r :: concat levels.*2.
Proof.
  induction levels as [|[l' row] levels IH]; cbn [pushToLevel]; [done|].
  case_decide; cbn.
  - rewrite <- app_assoc. cbn. by rewrite <- Permutation_middle.
  - rewrite IH. by rewrite <- Permutation_middle.
Qed.

Lemma pushToLevel_Forall (P : Z → nat → Prop) lvl r levels :
  P lvl r →
  Forall (fun g => Forall (P g.1) g.2) levels →
  Forall (fun g => Forall (P g.1) g.2) (pushToLevel lvl r levels).
Proof.
  intros Hr. induction 1 as [|[l' row] levels Hg H IH]; cbn [pushToLevel].
  - repeat constructor. done.
  - case_decide; constructor; try done. cbn in *. subst.
    apply Forall_app. split; [done|]. by constructor.
Qed.

Lemma groupByLevel_spec ns sorted :
  let levels := groupByLevel ns sorted in
  NoDup levels.*1 ∧ concat levels.*2 ≡ₚ sorted
  ∧ Forall (fun g => Forall (fun r => levelOf ns r = g.1) g.2) levels.
Proof.
  unfold groupByLevel.
  cut (∀ acc done,
          NoDup acc.*1 → concat acc.*2 ≡ₚ done →
          Forall (fun g => Forall (fun r => levelOf ns r = g.1) g.2) acc →
          let levels := foldl (fun levels r => pushToLevel (levelOf ns r) r levels) acc sorted in
          NoDup levels.*1 ∧ concat levels.*2 ≡ₚ done ++ sorted
          ∧ Forall (fun g => Forall (fun r => levelOf ns r = g.1) g.2) levels).
  { intros H. apply (H [] []); [apply NoDup_nil_2|done|constructor]. }
  induction sorted as [|r sorted IH]; intros acc done H1 H2 H3.
  - cbn. by rewrite app_nil_r.
  - cbn [foldl]. replace (done ++ r :: sorted) with ((done ++ [r]) ++ sorted)
      by by rewrite <- app_assoc.
    apply IH.
    + by apply pushToLevel_NoDup.
    + rewrite pushToLevel_members, H2. by rewrite <- Permutation_cons_append.
    + by apply (pushToLevel_Forall (fun l r => levelOf ns r = l)).
Qed.

Lemma elem_of_concat {A} (x : A) (ls : list (list A)) :
  x ∈ concat ls ↔ ∃ l, x ∈ l ∧ l ∈ ls.
Proof.
  rewrite list_elem_of_In, in_concat.
  setoid_rewrite list_elem_of_In. split; intros (l & ? & ?); eauto.
Qed.

Lemma placeLevels_notin maxW levels ns r :
  r ∉ concat levels.*2 → foldl (placeLevel maxW) ns levels !! r = ns !! r.
Proof.
  revert ns. induction levels as [|g levels IH]; intros ns Hr; [done|].
  cbn in Hr. rewrite elem_of_app in Hr. cbn [foldl]. rewrite IH by tauto.
  unfold placeLevel, rowPlace.
  exact (forEachFrom_place_notin _ _ 0 g.2 ns r (fun H => Hr (or_introl H))).
Qed.

Lemma placeLevels_lookup maxW levels ns lvl row k r :
  NoDup (concat levels.*2) → (lvl, row) ∈ levels → row !! k = Some r →
  foldl (placeLevel maxW) ns levels !! r =
    setXY (startX maxW row + Z.of_nat k * (NODE_WIDTH + X_GAP) + NODE_WIDTH / 2)
          (lvl * (NODE_HEIGHT + Y_GAP) + CANVAS_PADDING + NODE_HEIGHT / 2)
      <$> ns !! r.
Proof.
  revert ns. induction levels as [|g levels IH]; intros ns Hnd Hg Hk.
  { by apply elem_of_nil in Hg. }
  cbn in Hnd. apply NoDup_app in Hnd as (Hrow & Hdisj & Hrest).
  cbn [foldl]. apply elem_of_cons in Hg as [<-|Hg].
  - assert (r ∈ row) as Hr by by eapply list_elem_of_lookup_2.
    rewrite placeLevels_notin by (by apply Hdisj).
    unfold placeLevel, rowPlace. cbn [fst snd].
    exact (forEachFrom_place_in _ _ 0 row ns k r Hrow Hk).
  - rewrite IH by done. f_equal.
    unfold placeLevel, rowPlace.
    apply (forEachFrom_place_notin _ _ 0 g.2 ns r).
    intros Hr. apply (Hdisj _ Hr). apply elem_of_concat.
    exists row. split; [by eapply list_elem_of_lookup_2|].
    apply list_elem_of_fmap. by exists (lvl, row).
Qed.

Lemma maxRowWidth_foldl m (levels : list (Z * list nat)) :
  let w := foldl (fun m g => Z.max m (Z.of_nat (length g.2) * (NODE_WIDTH + X_GAP))%Z) m levels in
  (m ≤ w)%Z
  ∧ (∀ g, g ∈ levels → (Z.of_nat (length g.2) * (NODE_WIDTH + X_GAP) ≤ w)%Z)
  ∧ (w = m ∨ ∃ g, g ∈ levels ∧ w = (Z.of_nat (length g.2) * (NODE_WIDTH + X_GAP))%Z).
Proof.
  revert m. induction levels as [|g levels IH]; intros m; cbn [foldl].
  - split; [lia|]. split; [|by left]. intros g Hg. by apply elem_of_nil in Hg.
  - destruct (IH (Z.max m (Z.of_nat (length g.2) * (NODE_WIDTH + X_GAP)))%Z) as (H1 & H2 & H3).
    split; [etrans; [|exact H1]; apply Z.le_max_l|]. split.
    + intros g' Hg'. apply elem_of_cons in Hg' as [->|Hg']; [|by apply H2].
      etrans; [|exact H1]. apply Z.le_max_r.
    + destruct H3 as [H3|(g' & Hg' & H3)].
      * rewrite H3.
        destruct (Z.max_spec m (Z.of_nat (length g.2) * (NODE_WIDTH + X_GAP))%Z) as [[_ E]|[_ E]];
          rewrite E; [right; exists g|left; done].
        split; [apply list_elem_of_here|done].
      * right. exists g'. split; [by apply list_elem_of_further|done].
Qed.

(** The division by two in [startX] is exact. *)
Lemma startX_exact levels row :
  (∃ l, (l, row) ∈ levels) →
  (2 * ((maxRowWidth levels - rowWidth row) / 2) = maxRowWidth levels - rowWidth row)%Z.
Proof.
  intros [l Hl]. destruct (maxRowWidth_foldl 0 levels) as (_ & _ & [H|(g & _ & H)]);
    fold (maxRowWidth levels) in H; rewrite H; unfold rowWidth, NODE_WIDTH, X_GAP.
  - symmetry. apply Z_div_exact_2; [lia|].
    replace (0 - (Z.of_nat (length row) * (220 + 60) - 60))%Z
      with ((30 - Z.of_nat (length row) * 140) * 2)%Z by lia.
    apply Z_mod_mult.
  - symmetry. apply Z_div_exact_2; [lia|].
    replace (Z.of_nat (length g.2) * (220 + 60) - (Z.of_nat (length row) * (220 + 60) - 60))%Z
      with ((Z.of_nat (length g.2) * 140 - Z.of_nat (length row) * 140 + 30) * 2)%Z by lia.
    apply Z_mod_mult.
Qed.

Lemma groupByLevel_row ns lvl row k r :
  (lvl, row) ∈ groupByLevel ns (sortedNodes ns) → row !! k = Some r →
  r < length ns ∧ levelOf ns r = lvl.
Proof.
  intros Hg Hk. destruct (groupByLevel_spec ns (sortedNodes ns)) as (_ & Hperm & Hlv).
  assert (r ∈ row) as Hr by by eapply list_elem_of_lookup_2.
  split.
  - apply elem_of_sortedNodes. rewrite <- Hperm. apply elem_of_concat.
    exists row. split; [done|]. apply list_elem_of_fmap. by exists (lvl, row).
  - rewrite Forall_forall in Hlv. specialize (Hlv _ Hg).
    rewrite Forall_forall in Hlv. by apply Hlv.
Qed.

Lemma groupByLevel_covers ns r :
  r < length ns →
  ∃ lvl row k, (lvl, row) ∈ groupByLevel ns (sortedNodes ns) ∧ row !! k = Some r.
Proof.
  intros Hr. destruct (groupByLevel_spec ns (sortedNodes ns)) as (_ & Hperm & _).
  apply elem_of_sortedNodes in Hr. rewrite <- Hperm in Hr.
  apply elem_of_concat in Hr as (row & Hr & Hrow).
  apply list_elem_of_fmap in Hrow as ([lvl row'] & -> & Hg).
  apply list_elem_of_lookup_1 in Hr as [k Hk]. by exists lvl, row', k.
Qed.

Lemma topBottomLayout_lookup ns lvl row k r :
  Forall (fun n => is_Some (node_level n)) ns →
  (lvl, row) ∈ groupByLevel ns (sortedNodes ns) → row !! k = Some r →
  ∃ n, topBottomLayout (sortedNodes ns) ns !! r = Some n
       ∧ node_level n = Some lvl
       ∧ node_x n = Some (startX (maxRowWidth (groupByLevel ns (sortedNodes ns))) row
                          + Z.of_nat k * (NODE_WIDTH + X_GAP) + NODE_WIDTH / 2)%Z
       ∧ node_y n = Some (lvl * (NODE_HEIGHT + Y_GAP) + CANVAS_PADDING + NODE_HEIGHT / 2)%Z.
Proof.
  intros Hlev Hg Hk. destruct (groupByLevel_row _ _ _ _ _ Hg Hk) as [Hr Hl].
  destruct (groupByLevel_spec ns (sortedNodes ns)) as (_ & Hperm & _).
  unfold topBottomLayout.
  rewrite (placeLevels_lookup _ _ _ lvl row k) by
    (done || rewrite Hperm; apply sortedNodes_NoDup).
  apply lookup_lt_is_Some in Hr as [n Hn]. rewrite Hn. eexists. split; [done|].
  cbn [setXY node_level node_x node_y]. split; [|done].
  rewrite <- Hl. apply levelOf_lookup; [done|].
  rewrite Forall_forall in Hlev. apply Hlev. by eapply list_elem_of_lookup_2.
Qed.

(** C5. Under the top-bottom direction the nodes are grouped by level, one
    row per level and every node in the row of its level; a row of [count]
    nodes has width [count * (220 + 60) - 60]; [maxRowWidth] is the greatest
    [count * (220 + 60)] over the rows; the [k]-th node of a row has centre
    [x = (maxRowWidth - rowWidth) / 2 + 50 + k * (220 + 60) + 110], the
    division being exact, and [y = level * (140 + 100) + 50 + 70]; so
    neighbours in a row are 280 apart and share their [y]. *)
Theorem C5_top_bottom_geometry data :
  let out := nodes (computeLayout TOP_BOTTOM data) in
  let groups := levelGroups data in
  let width (row : list nat) := (Z.of_nat (length row) * (220 + 60))%Z in
  let maxW := maxRowWidth groups in
  (NoDup groups.*1 ∧ NoDup (concat groups.*2)
   ∧ ∀ r n, out !! r = Some n →
       ∃ lvl row, (lvl, row) ∈ groups ∧ r ∈ row ∧ node_level n = Some lvl)
  ∧ ((∀ g, g ∈ groups → (width g.2 ≤ maxW)%Z)
     ∧ (groups ≠ [] → ∃ g, g ∈ groups ∧ maxW = width g.2))
  ∧ (∀ lvl row k r,
       (lvl, row) ∈ groups → row !! k = Some r →
       let rowW := (width row - 60)%Z in
       (2 * ((maxW - rowW) / 2) = maxW - rowW)%Z
       ∧ ∃ n, out !! r = Some n ∧ node_level n = Some lvl
            ∧ node_x n = Some ((maxW - rowW) / 2 + 50 + Z.of_nat k * (220 + 60) + 110)%Z
            ∧ node_y n = Some (lvl * (140 + 100) + 50 + 70)%Z)
  ∧ (∀ lvl row k r r',
       (lvl, row) ∈ groups → row !! k = Some r → row !! S k = Some r' →
       ∃ n n' x y, out !! r = Some n ∧ out !! r' = Some n'
            ∧ node_x n = Some x ∧ node_x n' = Some (x + 280)%Z
            ∧ node_y n = Some y ∧ node_y n' = Some y).
Proof.
  intros out groups width maxW.
  assert (∀ lvl row k r,
       (lvl, row) ∈ groups → row !! k = Some r →
       let rowW := (width row - 60)%Z in
       (2 * ((maxW - rowW) / 2) = maxW - rowW)%Z
       ∧ ∃ n, out !! r = Some n ∧ node_level n = Some lvl
            ∧ node_x n = Some ((maxW - rowW) / 2 + 50 + Z.of_nat k * (220 + 60) + 110)%Z
            ∧ node_y n = Some (lvl * (140 + 100) + 50 + 70)%Z) as Hpos.
  { intros lvl row k r Hg Hk rowW. split.
    { apply (startX_exact groups row). by exists lvl. }
    subst out groups maxW. unfold levelGroups, sortedSequence, computeLayout in *.
    destruct (nodes data) as [|n0 ns]; [by apply elem_of_nil in Hg|].
    cbn [nodes applyLayout].
    destruct (topBottomLayout_lookup _ lvl row k r (leveled_has_level _ _ _) Hg Hk)
      as (n & Hn & Hl & Hx & Hy).
    exists n. split; [done|]. split; [done|]. split; [|done].
    rewrite Hx. done. }
  split; [|split; [|split; [exact Hpos|]]].
  - subst out groups. unfold levelGroups, sortedSequence, computeLayout.
    destruct (nodes data) as [|n0 ns] eqn:E.
    { rewrite E. split; [apply NoDup_nil_2|]. split; [apply NoDup_nil_2|]. done. }
    set (L := leveled _ _ _). cbn [nodes].
    destruct (groupByLevel_spec L (sortedNodes L)) as (Hk & Hperm & _).
    split; [done|]. split; [rewrite Hperm; apply sortedNodes_NoDup|].
    intros r n Hn.
    assert (r < length L) as Hr.
    { apply lookup_lt_Some in Hn.
      rewrite <- (length_fmap node_id), applyLayout_frame, length_fmap in Hn; done. }
    destruct (groupByLevel_covers L r Hr) as (lvl & row & k & Hg & Hrk).
    exists lvl, row. split; [done|]. split; [by eapply list_elem_of_lookup_2|].
    destruct (topBottomLayout_lookup _ lvl row k r (leveled_has_level _ _ _) Hg Hrk)
      as (n' & Hn' & Hl & _).
    pose proof (eq_trans (eq_sym Hn) Hn') as [= ->]. done.
  - subst maxW. clear Hpos. clearbody groups.
    destruct (maxRowWidth_foldl 0 groups) as (_ & H2 & H3). split; [exact H2|].
    intros Hne. destruct H3 as [H3|H3]; [|exact H3].
    destruct groups as [|g gs]; [done|]. exists g. split; [apply list_elem_of_here|].
    pose proof (H2 g (list_elem_of_here _ _)) as Hg.
    unfold maxRowWidth. rewrite H3 in Hg |- *.
    unfold width, NODE_WIDTH, X_GAP in *. lia.
  - intros lvl row k r r' Hg Hk Hk'.
    destruct (Hpos _ _ _ _ Hg Hk) as (_ & n & Hn & _ & Hx & Hy).
    destruct (Hpos _ _ _ _ Hg Hk') as (_ & n' & Hn' & _ & Hx' & Hy').
    eexists n, n', _, _. split; [done|]. split; [done|]. split; [done|].
    split; [|done]. rewrite Hx'. f_equal. lia.
Qed.

(** ** The node map *)

Lemma fillNodeMap_lookup j ns m0 i k :
  fillNodeMap j ns m0 !! i = Some k →
  m0 !! i = Some k ∨ (j ≤ k ∧ (node_id <$> ns) !! (k - j) = Some i).
Proof.
  revert j m0. induction ns as [|n ns IH]; intros j m0 H; cbn in H; [by left|].
  apply IH in H as [H|[Hle H]].
  - rewrite lookup_insert in H. case_decide as E.
    + injection H as <-. right. split; [done|]. rewrite Nat.sub_diag. cbn. by f_equal.
    + by left.
  - right. split; [lia|]. by replace (k - j) with (S (k - S j)) by lia.
Qed.

Lemma fillNodeMap_is_Some j ns m0 i :
  is_Some (fillNodeMap j ns m0 !! i) ↔ is_Some (m0 !! i) ∨ i ∈ node_id <$> ns.
Proof.
  revert j m0. induction ns as [|n ns IH]; intros j m0; cbn [fillNodeMap].
  - rewrite fmap_nil, elem_of_nil. tauto.
  - rewrite IH, fmap_cons, elem_of_cons, lookup_insert. case_decide as E.
    + subst. split; [intros _; right; by left|intros _; left; by eexists].
    + split; [tauto|]. intros [?|[?|?]]; [tauto|congruence|tauto].
Qed.

Lemma buildNodeMap_lookup ns i k :
  buildNodeMap ns !! i = Some k → (node_id <$> ns) !! k = Some i.
Proof.
  intros [H|[_ H]]%fillNodeMap_lookup; [done|]. by rewrite Nat.sub_0_r in H.
Qed.

Lemma buildNodeMap_is_Some ns i :
  is_Some (buildNodeMap ns !! i) ↔ i ∈ nodeIds ns.
Proof.
  unfold buildNodeMap, nodeIds. rewrite fillNodeMap_is_Some, elem_of_list_to_set.
  rewrite lookup_empty. split; [intros [[? [=]]|?]; done|by right].
Qed.

(** With distinct ids every node is the one the map holds for its id. *)
Lemma buildNodeMap_NoDup ns i k :
  NoDup (node_id <$> ns) → (node_id <$> ns) !! k = Some i →
  buildNodeMap ns !! i = Some k.
Proof.
  intros Hnd Hk.
  assert (is_Some (buildNodeMap ns !! i)) as [k' Hk'].
  { apply buildNodeMap_is_Some, elem_of_list_to_set. by eapply list_elem_of_lookup_2. }
  rewrite Hk'. f_equal. apply buildNodeMap_lookup in Hk'.
  by eapply NoDup_lookup.
Qed.

(** ** The traversal keeps its invariant *)

Section Traversal.
Variables (es : list FlowchartEdge) (m : gmap jsstring nat).
Variables (root : jsstring) (ids : list jsstring).
Hypothesis Hm : ∀ i k, m !! i = Some k → ids !! k = Some i.
Hypothesis Htargets : ∀ e, e ∈ es → is_Some (m !! edge_target e).

Lemma nodeMap_inj i j k : m !! i = Some k → m !! j = Some k → i = j.
Proof. intros Hi%Hm Hj%Hm. congruence. Qed.

Lemma repLevel_raise_other s i l j :
  j ≠ i → repLevel m (raiseLevel m i l s) j = repLevel m s j.
Proof.
  intros Hne. unfold repLevel, raiseLevel.
  destruct (m !! i) as [k|] eqn:Hi; [|done].
  destruct (m !! j) as [k'|] eqn:Hj; [|done].
  unfold levelOf. rewrite list_lookup_alter_ne; [done|].
  intros ->. apply Hne. by eapply nodeMap_inj.
Qed.

Lemma repLevel_raise_same s i l :
  node_id <$> s = ids → is_Some (m !! i) →
  repLevel m (raiseLevel m i l s) i = Z.max (repLevel m s i) l.
Proof.
  intros Hids [k Hk]. unfold repLevel, raiseLevel. rewrite Hk.
  unfold levelOf. rewrite list_lookup_alter_eq.
  assert (is_Some (s !! k)) as [n Hn].
  { apply lookup_lt_is_Some. rewrite <- (length_fmap node_id), Hids.
    apply Hm in Hk. by eapply lookup_lt_Some. }
  by rewrite Hn.
Qed.

Lemma dequeue_inv E st i l q :
  bfsInv es m root ids E st → queue st = (i, l) :: q →
  bfsInv es m root ids E
    (mkBfs q (visited st) (raiseLevel m i l (store st)) (discovered st))
  ∧ E !! i = Some l ∧ i ∉ q.*1.
Proof.
  intros [] Hq. rewrite Hq in *. cbn in inv_queue_nodup0.
  apply NoDup_cons in inv_queue_nodup0 as [Hi Hnd].
  destruct (inv_queue0 i l) as [HE Hz]; [left|].
  split; [|done]. split; cbn [queue visited store discovered]; try done.
  - intros j l' Hj. destruct (inv_queue0 j l') as [HEj Hzj]; [by right|].
    split; [done|]. rewrite repLevel_raise_other; [done|].
    intros ->. apply Hi. apply list_elem_of_fmap. by exists (i, l').
  - intros j l' HEj Hj. destruct (decide (j = i)) as [->|Hne].
    + rewrite repLevel_raise_same by eauto. rewrite Hz.
      assert (l' = l) as -> by congruence. apply inv_nonneg0 in HE. lia.
    + rewrite repLevel_raise_other by done. apply inv_done0; [done|].
      cbn. rewrite elem_of_cons. tauto.
  - intros j HEj. rewrite repLevel_raise_other by congruence. auto.
  - intros k n Hk Hrep. unfold raiseLevel in Hk.
    destruct (m !! i) as [k'|] eqn:Hi'; [|eauto].
    destruct (decide (k' = k)) as [->|Hne].
    + rewrite list_lookup_alter_eq in Hk.
      destruct (store st !! k) as [n'|] eqn:Hn'; [|done]. injection Hk as <-.
      exfalso. apply Hrep. cbn. pose proof (Hm _ _ Hi') as Hid.
      rewrite <- inv_ids0, list_lookup_fmap, Hn' in Hid. injection Hid as ->. done.
    + rewrite list_lookup_alter_ne in Hk by done. eauto.
  - intros u v Huv. destruct (inv_disc0 u v Huv) as [Hu H]. split; [|done].
    cbn in Hu. rewrite elem_of_cons in Hu. tauto.
  - by rewrite raiseLevel_frame.
  - unfold raiseLevel. destruct (m !! i) as [k|]; [|done].
    apply alter_Forall; [|done]. intros n _. by eexists.
Qed.

Lemma visitEdge_inv E st e l :
  bfsInv es m root ids E st → e ∈ es →
  E !! edge_source e = Some l → edge_source e ∉ (queue st).*1 →
  ∃ E', bfsInv es m root ids E' (visitEdge l st e)
        ∧ E' !! edge_source e = Some l
        ∧ edge_source e ∉ (queue (visitEdge l st e)).*1.
Proof.
  intros [] He Hs Hsq. unfold visitEdge. case_decide as Hv.
  { exists E. done. }
  assert (E !! edge_target e = None) as Ht.
  { apply eq_None_not_Some. by rewrite <- inv_visited0. }
  assert (edge_target e ∉ (queue st).*1) as Htq.
  { intros ([j l'] & Heq & Hj)%list_elem_of_fmap. apply inv_queue0 in Hj as [Hj _].
    cbn in Heq. congruence. }
  assert (edge_source e ≠ edge_target e) as Hne by congruence.
  exists (<[edge_target e := (l + 1)%Z]> E).
  split; [|split]; cbn [queue visited store discovered].
  - split; cbn [queue visited store discovered]; try done.
    + rewrite lookup_insert_ne; [done|]. intros Heq. apply Hv, inv_visited0.
      rewrite Heq. by eexists.
    + intros i. rewrite elem_of_union, elem_of_singleton, lookup_insert, inv_visited0.
      case_decide; [split; [by eexists|by left]|].
      split; [intros [?|?]; [congruence|done]|by right].
    + intros i. rewrite lookup_insert. case_decide; [subst; auto|auto].
    + intros i l'. rewrite lookup_insert. case_decide; [|eauto].
      intros [= <-]. apply inv_nonneg0 in Hs. lia.
    + rewrite fmap_app. apply NoDup_app. split; [done|]. split.
      * intros i Hi. cbn. rewrite list_elem_of_singleton. by intros ->.
      * apply NoDup_singleton.
    + intros i l' [Hi|Hi]%elem_of_app.
      * destruct (inv_queue0 _ _ Hi) as [HEi Hz]. split; [|done].
        rewrite lookup_insert_ne; [done|congruence].
      * apply list_elem_of_singleton in Hi as [= -> ->].
        split; [by rewrite lookup_insert_eq|auto].
    + intros i l'. rewrite fmap_app, elem_of_app, lookup_insert.
      case_decide as Hi; [subst; cbn; rewrite list_elem_of_singleton; tauto|].
      intros HEi Hq. apply inv_done0; tauto.
    + intros i. rewrite lookup_insert. case_decide; [done|auto].
    + intros u v [Huv|Huv]%elem_of_app.
      * destruct (inv_disc0 u v Huv) as (Hu & lu & HEu & HEv). split.
        -- rewrite fmap_app, elem_of_app. cbn. rewrite list_elem_of_singleton.
           intros [?| ->]; [done|congruence].
        -- exists lu. rewrite !lookup_insert_ne by congruence. done.
      * apply list_elem_of_singleton in Huv as [= -> ->]. split.
        -- rewrite fmap_app, elem_of_app. cbn. rewrite list_elem_of_singleton. tauto.
        -- exists l. rewrite lookup_insert_ne by congruence.
           by rewrite lookup_insert_eq.
    + intros u v [Huv|Huv]%elem_of_app; [auto|].
      apply list_elem_of_singleton in Huv as [= -> ->]. by exists e.
    + intros i [->%elem_of_singleton|Hi]%elem_of_union; [|auto].
      apply (reachable_edge es root e); [|done..].
      apply inv_reach0, inv_visited0. by eexists.
  - rewrite lookup_insert_ne; [done|congruence].
  - rewrite fmap_app, elem_of_app. cbn. rewrite list_elem_of_singleton. tauto.
Qed.

Lemma visitEdges_inv E st outgoing i l :
  bfsInv es m root ids E st →
  (∀ e, e ∈ outgoing → e ∈ es ∧ edge_source e = i) →
  E !! i = Some l → i ∉ (queue st).*1 →
  ∃ E', bfsInv es m root ids E' (foldl (visitEdge l) st outgoing).
Proof.
  revert E st. induction outgoing as [|e outgoing IH]; intros E st Hinv Hout HE Hq.
  { by exists E. }
  cbn [foldl]. destruct (Hout e) as [He Hs]; [left|]. subst i.
  destruct (visitEdge_inv E st e l Hinv He HE Hq) as (E' & Hinv' & HE' & Hq').
  apply (IH E'); try done. intros e' He'. apply Hout. by right.
Qed.

Lemma bfsStep_inv E st i l q :
  bfsInv es m root ids E st → queue st = (i, l) :: q →
  ∃ E', bfsInv es m root ids E' (bfsStep es m i l q st).
Proof.
  intros Hinv Hq. destruct (dequeue_inv E st i l q Hinv Hq) as (Hinv' & HE & Hi).
  unfold bfsStep. apply (visitEdges_inv E _ _ i l); try done.
  intros e He%list_elem_of_filter. tauto.
Qed.

Lemma bfsLoop_inv fuel E st :
  bfsInv es m root ids E st →
  ∃ E', bfsInv es m root ids E' (bfsLoop fuel es m st).
Proof.
  revert E st. induction fuel as [|fuel IH]; intros E st Hinv; [by exists E|].
  cbn [bfsLoop]. destruct (queue st) as [|[i l] q] eqn:Hq; [by exists E|].
  destruct (bfsStep_inv E st i l q Hinv Hq) as [E' Hinv']. by apply (IH E').
Qed.
End Traversal.

(** ** The traversal ends *)

Lemma visitEdge_measure es l st e :
  e ∈ es →
  length (queue (visitEdge l st e)) + length (unvisitedTargets es (visitEdge l st e))
  ≤ length (queue st) + length (unvisitedTargets es st).
Proof.
  intros He. unfold visitEdge. case_decide as Hv; [done|].
  cbn [queue]. rewrite length_app. cbn [length].
  cut (length (unvisitedTargets es
         (mkBfs (queue st ++ [(edge_target e, (l + 1)%Z)])
                ({[edge_target e]} ∪ visited st) (store st)
                (discovered st ++ [(edge_source e, edge_target e)])))
       < length (unvisitedTargets es st)); [lia|].
  unfold unvisitedTargets. cbn [visited].
  rewrite (list_filter_iff _
    (fun e' => edge_target e' ≠ edge_target e ∧ edge_target e' ∉ visited st)).
  - rewrite <- list_filter_filter. apply (length_filter_lt _ _ e); [|tauto].
    apply list_elem_of_filter. done.
  - intros e'. rewrite not_elem_of_union, not_elem_of_singleton. done.
Qed.

Lemma visitEdges_measure es l st outgoing :
  (∀ e, e ∈ outgoing → e ∈ es) →
  length (queue (foldl (visitEdge l) st outgoing))
  + length (unvisitedTargets es (foldl (visitEdge l) st outgoing))
  ≤ length (queue st) + length (unvisitedTargets es st).
Proof.
  revert st. induction outgoing as [|e outgoing IH]; intros st Hout; [done|].
  cbn [foldl]. etrans; [apply IH|apply visitEdge_measure].
  - intros e' He'. apply Hout. by right.
  - apply Hout. left.
Qed.

Lemma bfsLoop_queue_empty fuel es m st :
  length (queue st) + length (unvisitedTargets es st) ≤ fuel →
  queue (bfsLoop fuel es m st) = [].
Proof.
  revert st. induction fuel as [|fuel IH]; intros st Hfuel; cbn [bfsLoop].
  - destruct (queue st); [done|]. cbn in Hfuel. lia.
  - destruct (queue st) as [|[i l] q] eqn:Hq; [done|]. apply IH.
    unfold bfsStep.
    etrans; [apply visitEdges_measure|].
    + intros e He%list_elem_of_filter. tauto.
    + cbn in Hfuel. unfold unvisitedTargets in *. cbn [queue visited]. lia.
Qed.

(** The fuel [bfs] gives the loop is enough: it stops on an empty queue. *)
Lemma bfs_queue_empty n0 ns es : queue (bfs n0 ns es) = [].
Proof.
  unfold bfs. apply bfsLoop_queue_empty. cbn [queue length].
  unfold unvisitedTargets. apply le_n_S, length_filter.
Qed.

(** ** The traversal [computeLayout] runs *)

Lemma findUntargeted_Some ns es n :
  findUntargeted ns es = Some n →
  ∃ k, ns !! k = Some n ∧ (node_id n ∉ targets es)
       ∧ (∀ j n', ns !! j = Some n' → j < k → node_id n' ∈ targets es).
Proof.
  unfold findUntargeted.
  destruct (list_find _ ns) as [[k n']|] eqn:H; [|done]. cbn. intros [= <-].
  apply list_find_Some in H as (Hk & Hn & Hfirst). exists k.
  split; [done|]. split; [done|]. intros j n'' Hj Hlt.
  destruct (decide (node_id n'' ∈ targets es)); [done|]. by destruct (Hfirst j n'').
Qed.

Lemma findUntargeted_None ns es :
  findUntargeted ns es = None → ∀ n, n ∈ ns → node_id n ∈ targets es.
Proof.
  unfold findUntargeted.
  destruct (list_find _ ns) as [[k n']|] eqn:H; [done|]. intros _ n Hn.
  apply list_find_None in H. rewrite Forall_forall in H.
  destruct (decide (node_id n ∈ targets es)); [done|]. by destruct (H n).
Qed.

Lemma startNodeId_in n0 ns es : n0 ∈ ns → startNodeId n0 ns es ∈ nodeIds ns.
Proof.
  intros H0. unfold startNodeId.
  assert (node_id n0 ∈ nodeIds ns) as Hn0.
  { apply elem_of_list_to_set, list_elem_of_fmap. eauto. }
  destruct (findUntargeted ns es) as [n|] eqn:H; [|done].
  destruct (node_id n) as [|c i] eqn:Hi; [done|]. rewrite <- Hi.
  apply findUntargeted_Some in H as (k & Hk & _).
  apply elem_of_list_to_set, list_elem_of_fmap. exists n.
  split; [done|]. by eapply list_elem_of_lookup_2.
Qed.

Lemma sanitizeEdges_target ns es e :
  e ∈ sanitizeEdges ns es → edge_target e ∈ nodeIds ns.
Proof.
  rewrite sanitizeEdges_filter, list_elem_of_filter.
  intros [[[_ H] _] _]. by apply elem_of_nodeIds.
Qed.

Lemma repLevel_reset m ns i : repLevel m (resetLevels ns) i = 0%Z.
Proof.
  unfold repLevel, levelOf, resetLevels. destruct (m !! i) as [k|]; [|done].
  rewrite list_lookup_fmap. by destruct (ns !! k).
Qed.

Lemma bfs_init_inv es m root ns :
  is_Some (m !! root) →
  bfsInv es m root (node_id <$> ns) {[root := 0%Z]}
         (mkBfs [(root, 0%Z)] {[root]} (resetLevels ns) []).
Proof.
  intros Hroot. split; cbn [queue visited store discovered].
  - apply lookup_singleton_eq.
  - intros i. rewrite elem_of_singleton, lookup_singleton. case_decide.
    + split; [by eexists|done].
    + split; [congruence|]. by intros [? [=]].
  - intros i. rewrite lookup_singleton. case_decide; [by subst|]. by intros [? [=]].
  - intros i l. rewrite lookup_singleton. case_decide; [|done]. intros [= <-]. lia.
  - cbn. apply NoDup_singleton.
  - intros i l [= -> ->]%list_elem_of_singleton.
    split; [apply lookup_singleton_eq|apply repLevel_reset].
  - intros i l. rewrite lookup_singleton. case_decide; [|done].
    intros _ Hi. exfalso. apply Hi. cbn. apply list_elem_of_singleton. done.
  - intros i _. apply repLevel_reset.
  - intros k n Hk _. unfold resetLevels in Hk. rewrite list_lookup_fmap in Hk.
    destruct (ns !! k); [|done]. by injection Hk as <-.
  - intros u v H. by apply elem_of_nil in H.
  - intros u v H. by apply elem_of_nil in H.
  - intros i ->%elem_of_singleton. constructor.
  - unfold resetLevels. rewrite <- list_fmap_compose. done.
  - unfold resetLevels. apply Forall_fmap, Forall_true. intros n. by eexists.
Qed.

Lemma bfs_spec n0 ns es :
  n0 ∈ ns → (∀ e, e ∈ es → edge_target e ∈ nodeIds ns) →
  ∃ E, bfsInv es (buildNodeMap ns) (startNodeId n0 ns es) (node_id <$> ns) E
              (bfs n0 ns es).
Proof.
  intros H0 Hes. unfold bfs.
  eapply bfsLoop_inv.
  - apply buildNodeMap_lookup.
  - intros e He. apply buildNodeMap_is_Some. auto.
  - apply bfs_init_inv, buildNodeMap_is_Some, startNodeId_in. done.
Qed.

(** ** Levels after [computeLayout] *)


Lemma discoveries_cons data n0 ns' :
  nodes data = n0 :: ns' →
  discoveries data =
    discovered (bfs n0 (nodes data) (sanitizeEdges (nodes data) (edges data))).
Proof. intros H. unfold discoveries. by rewrite H. Qed.

Lemma rootOf_cons data n0 ns' :
  nodes data = n0 :: ns' →
  rootOf data =
    Some (startNodeId n0 (nodes data) (sanitizeEdges (nodes data) (edges data))).
Proof. intros H. unfold rootOf. by rewrite H. Qed.

(** What the invariant says of a node once the queue is empty. *)
Lemma final_level es m root ids E st k n l :
  bfsInv es m root ids E st → queue st = [] →
  store st !! k = Some n → m !! (node_id n) = Some k →
  E !! (node_id n) = Some l → node_level n = Some l.
Proof.
  intros [] Hq Hk Hrep HE.
  rewrite (levelOf_lookup (store st) k n Hk).
  - f_equal. specialize (inv_done0 _ _ HE). rewrite Hq in inv_done0.
    unfold repLevel in inv_done0. rewrite Hrep in inv_done0.
    apply inv_done0. cbn. apply not_elem_of_nil.
  - rewrite Forall_forall in inv_levels0. apply inv_levels0.
    by eapply list_elem_of_lookup_2.
Qed.

Lemma final_level_fresh es m root ids E st k n :
  bfsInv es m root ids E st →
  store st !! k = Some n → E !! (node_id n) = None → node_level n = Some 0%Z.
Proof.
  intros [] Hk HE. destruct (decide (m !! (node_id n) = Some k)) as [Hrep|Hrep];
    [|by eapply inv_nonrep0].
  rewrite (levelOf_lookup (store st) k n Hk).
  - f_equal. specialize (inv_fresh0 _ HE). unfold repLevel in inv_fresh0.
    by rewrite Hrep in inv_fresh0.
  - rewrite Forall_forall in inv_levels0. apply inv_levels0.
    by eapply list_elem_of_lookup_2.
Qed.

(** The traversal of a non-empty graph: invariant, empty queue, and the
    link between the nodes returned and the nodes the traversal left. *)
Lemma computeLayout_traversal d data n0 ns' :
  nodes data = n0 :: ns' →
  let es := sanitizeEdges (nodes data) (edges data) in
  let st := bfs n0 (nodes data) es in
  ∃ E, bfsInv es (buildNodeMap (nodes data)) (startNodeId n0 (nodes data) es)
              (node_id <$> nodes data) E st
       ∧ queue st = []
       ∧ ∀ k n, nodes (computeLayout d data) !! k = Some n →
           ∃ n', store st !! k = Some n' ∧ node_id n' = node_id n
                 ∧ node_level n' = node_level n.
Proof.
  intros Hns es st. destruct (bfs_spec n0 (nodes data) es) as [E HE].
  { rewrite Hns. left. }
  { intros e. apply sanitizeEdges_target. }
  exists E. split; [done|]. split; [apply bfs_queue_empty|].
  intros k n Hk. rewrite (computeLayout_cons d data n0 ns' Hns) in Hk. cbn [nodes] in Hk.
  destruct (fmap_eq_lookup (fun n => (node_id n, node_level n))
              _ (leveled n0 (nodes data) es) k n
              (applyLayout_frame (fun n => (node_id n, node_level n)) d _
                 (fun _ _ _ => eq_refl)) Hk) as (n' & Hn' & Heq).
  exists n'. split; [done|]. by injection Heq.
Qed.

(** C2. After [computeLayout], the nodes the node map holds for the two ends
    of a discovering edge [(u, v)] have [level v = level u + 1]; when ids are
    distinct, as the data model has them, these are the only nodes with
    these ids, so the equation holds of every node [u] and [v]; and a node
    whose id cannot be reached from the root along the sanitized edges has
    level 0. *)
Theorem C2_bfs_leveling d data :
  let out := nodes (computeLayout d data) in
  (∀ u v, (u, v) ∈ discoveries data →
     ∃ ku kv nu nv l,
       buildNodeMap (nodes data) !! u = Some ku ∧ out !! ku = Some nu
       ∧ buildNodeMap (nodes data) !! v = Some kv ∧ out !! kv = Some nv
       ∧ node_id nu = u ∧ node_id nv = v
       ∧ node_level nu = Some l ∧ node_level nv = Some (l + 1)%Z)
  ∧ (NoDup (node_id <$> nodes data) →
     ∀ u v nu nv, (u, v) ∈ discoveries data →
       nu ∈ out → nv ∈ out → node_id nu = u → node_id nv = v →
       ∃ l, node_level nu = Some l ∧ node_level nv = Some (l + 1)%Z)
  ∧ (∀ r n, rootOf data = Some r → n ∈ out →
       ¬ reachable (edges (computeLayout d data)) r (node_id n) →
       node_level n = Some 0%Z).
Proof.
  intros out. destruct (nodes data) as [|n0 ns'] eqn:Hns.
  { subst out. unfold discoveries, rootOf, computeLayout. rewrite Hns.
    split; [|split].
    - intros u v H. by apply elem_of_nil in H.
    - intros _ u v nu nv H. by apply elem_of_nil in H.
    - done. }
  destruct (computeLayout_traversal d data n0 ns' Hns) as (E & Hinv & Hq & Hout).
  rewrite <- Hns in *. fold out in Hout.
  rewrite (discoveries_cons data n0 ns' Hns), (rootOf_cons data n0 ns' Hns).
  assert (edges (computeLayout d data) = sanitizeEdges (nodes data) (edges data)) as ->
    by by rewrite (computeLayout_cons d data n0 ns' Hns).
  set (es := sanitizeEdges (nodes data) (edges data)) in *.
  set (st := bfs n0 (nodes data) es) in *.
  assert (∀ k n l, out !! k = Some n → buildNodeMap (nodes data) !! (node_id n) = Some k →
            E !! (node_id n) = Some l → node_level n = Some l) as Hlevel.
  { intros k n l Hk Hrep HE. destruct (Hout k n Hk) as (n' & Hn' & Hid & Hl).
    rewrite <- Hl. rewrite <- Hid in Hrep, HE. by eapply final_level. }
  assert (∀ i k, buildNodeMap (nodes data) !! i = Some k →
            ∃ n, out !! k = Some n ∧ node_id n = i) as Hrep.
  { intros i k Hk. apply buildNodeMap_lookup in Hk.
    destruct (fmap_eq_lookup node_id (nodes data) out k) with (a := default n0 (nodes data !! k))
      as (n & Hn & Hid).
    - symmetry. by apply computeLayout_frame.
    - rewrite list_lookup_fmap in Hk. by destruct (nodes data !! k).
    - exists n. split; [done|]. rewrite Hid.
      rewrite list_lookup_fmap in Hk. destruct (nodes data !! k); [|done]. by injection Hk. }
  split; [|split].
  - intros u v Huv. destruct (inv_disc _ _ _ _ _ _ Hinv u v Huv) as (_ & l & HEu & HEv).
    destruct (inv_known _ _ _ _ _ _ Hinv u) as [ku Hku]; [by eexists|].
    destruct (inv_known _ _ _ _ _ _ Hinv v) as [kv Hkv]; [by eexists|].
    destruct (Hrep u ku Hku) as (nu & Hnu & Hidu).
    destruct (Hrep v kv Hkv) as (nv & Hnv & Hidv).
    exists ku, kv, nu, nv, l. repeat split; try done.
    + apply (Hlevel ku); by rewrite ?Hidu.
    + apply (Hlevel kv); by rewrite ?Hidv.
  - intros Hnd u v nu nv Huv [ku Hku]%list_elem_of_lookup_1 [kv Hkv]%list_elem_of_lookup_1 Hidu Hidv.
    destruct (inv_disc _ _ _ _ _ _ Hinv u v Huv) as (_ & l & HEu & HEv).
    assert (∀ k n, out !! k = Some n → buildNodeMap (nodes data) !! (node_id n) = Some k) as Hall.
    { intros k n Hk. apply buildNodeMap_NoDup; [done|].
      rewrite <- (computeLayout_frame node_id d data) by done.
      unfold out in Hk. by rewrite list_lookup_fmap, Hk. }
    exists l. split.
    + apply (Hlevel ku); [done|by apply Hall|by rewrite Hidu].
    + apply (Hlevel kv); [done|by apply Hall|by rewrite Hidv].
  - intros r n [= <-] [k Hk]%list_elem_of_lookup_1 Hunreach.
    destruct (Hout k n Hk) as (n' & Hn' & Hid & Hl). rewrite <- Hl.
    destruct (E !! (node_id n')) as [l|] eqn:HE; [|by eapply final_level_fresh].
    exfalso. apply Hunreach. rewrite <- Hid.
    apply (inv_reach _ _ _ _ _ _ Hinv), (inv_visited _ _ _ _ _ _ Hinv). by eexists.
Qed.

(** ** Every reachable id is discovered *)

Lemma bfsGrows_refl st : bfsGrows st st.
Proof. split; auto. Qed.

Lemma bfsGrows_trans st st' st'' :
  bfsGrows st st' → bfsGrows st' st'' → bfsGrows st st''.
Proof.
  intros [] []. split; auto.
  - intros j Hj. destruct (grows_queued1 j Hj) as [Hq|[Hv Hn]].
    + destruct (grows_queued0 j Hq) as [?|[? ?]]; [by left|right]. auto.
    + right. split; [done|]. intros ?. apply Hn. auto.
  - intros j Hj. destruct (grows_new1 j Hj) as [Hv|?]; [|auto].
    destruct (grows_new0 j Hv); auto.
  - intros v Hv. destruct (grows_discovered1 v Hv) as [Hv'|?]; [|auto].
    destruct (grows_discovered0 v Hv') as [?|[u Hu]]; eauto.
Qed.

Lemma visitEdge_grows l st e :
  bfsGrows st (visitEdge l st e) ∧ edge_target e ∈ visited (visitEdge l st e).
Proof.
  unfold visitEdge. case_decide as Hv; [split; [apply bfsGrows_refl|done]|].
  split; [|cbn; set_solver].
  split; cbn [queue visited discovered].
  - intros j Hj. apply elem_of_union. by right.
  - intros j Hj. rewrite fmap_app, elem_of_app. by left.
  - intros j. rewrite fmap_app, elem_of_app. cbn. rewrite list_elem_of_singleton.
    intros [?| ->]; [by left|right]. split; [set_solver|done].
  - intros j [->%elem_of_singleton|?]%elem_of_union; [right|by left].
    rewrite fmap_app, elem_of_app. cbn. rewrite list_elem_of_singleton. by right.
  - intros p Hp. rewrite elem_of_app. by left.
  - intros v [->%elem_of_singleton|?]%elem_of_union; [right|by left].
    exists (edge_source e). rewrite elem_of_app, list_elem_of_singleton. by right.
Qed.

Lemma visitEdges_grows l st outgoing :
  bfsGrows st (foldl (visitEdge l) st outgoing)
  ∧ ∀ e, e ∈ outgoing → edge_target e ∈ visited (foldl (visitEdge l) st outgoing).
Proof.
  revert st. induction outgoing as [|e outgoing IH]; intros st; cbn [foldl].
  { split; [apply bfsGrows_refl|]. intros e He. by apply elem_of_nil in He. }
  destruct (visitEdge_grows l st e) as [Hg He].
  destruct (IH (visitEdge l st e)) as [Hg' Hout].
  split; [by eapply bfsGrows_trans|].
  intros e' [->|He']%elem_of_cons; [|auto]. by apply (grows_visited _ _ Hg').
Qed.

Lemma bfsStep_closed es m root st i l q :
  bfsClosed es root st → queue st = (i, l) :: q →
  bfsClosed es root (bfsStep es m i l q st).
Proof.
  intros [] Hq. rewrite Hq in *. unfold bfsStep.
  set (st1 := mkBfs q (visited st) (raiseLevel m i l (store st)) (discovered st)).
  destruct (visitEdges_grows l st1 (filter (fun e => edge_source e = i) es))
    as [[] Hout].
  cbn [queue visited discovered st1] in *. split.
  - intros j Hj. destruct (grows_queued0 j Hj) as [Hj'|[? _]]; [|done].
    apply grows_visited0, closed_queue0. cbn. by right.
  - auto.
  - intros e He Hs Hsq. destruct (decide (edge_source e = i)) as [Hi|Hi].
    { apply Hout, list_elem_of_filter. done. }
    destruct (grows_new0 _ Hs) as [Hs'|?]; [|done].
    apply grows_visited0, closed_edges0; [done..|].
    cbn. rewrite elem_of_cons. intros [?|?]; [done|]. by apply Hsq, grows_queue0.
  - intros v Hv. destruct (grows_discovered0 v Hv) as [Hv'|?]; [|by right].
    destruct (closed_discovered0 v Hv') as [?|[u Hu]]; [by left|right].
    exists u. by apply grows_log0.
Qed.

Lemma bfsLoop_closed fuel es m root st :
  bfsClosed es root st → bfsClosed es root (bfsLoop fuel es m st).
Proof.
  revert st. induction fuel as [|fuel IH]; intros st Hc; [done|].
  cbn [bfsLoop]. destruct (queue st) as [|[i l] q] eqn:Hq; [done|].
  by apply IH, bfsStep_closed.
Qed.

Lemma bfs_closed n0 ns es : bfsClosed es (startNodeId n0 ns es) (bfs n0 ns es).
Proof.
  unfold bfs. apply bfsLoop_closed. split; cbn [queue visited discovered].
  - intros j Hj. cbn in Hj. apply list_elem_of_singleton in Hj as ->. set_solver.
  - set_solver.
  - intros e _ Hs Hq. destruct Hq. cbn. apply list_elem_of_singleton. set_solver.
  - intros v ->%elem_of_singleton. by left.
Qed.

Lemma bfs_visits_reachable n0 ns es v :
  reachable es (startNodeId n0 ns es) v → v ∈ visited (bfs n0 ns es).
Proof.
  pose proof (bfs_closed n0 ns es) as []. pose proof (bfs_queue_empty n0 ns es) as Hq.
  induction 1 as [|e v Hr IH He ->]; [done|].
  apply closed_edges0; [done..|]. rewrite Hq. cbn. apply not_elem_of_nil.
Qed.

(** The discovering edges are edges of the sanitized graph out of
    reachable ids, and every id reachable from the root, the root apart,
    is the target of one. *)
Lemma discoveries_sound d data u v :
  (u, v) ∈ discoveries data →
  ∃ e, e ∈ edges (computeLayout d data) ∧ edge_source e = u ∧ edge_target e = v.
Proof.
  destruct (nodes data) as [|n0 ns'] eqn:Hns.
  { unfold discoveries. rewrite Hns. intros H. by apply elem_of_nil in H. }
  destruct (computeLayout_traversal d data n0 ns' Hns) as (E & Hinv & _).
  rewrite (discoveries_cons data n0 ns' Hns), computeLayout_edges by by rewrite Hns.
  apply (inv_disc_edge _ _ _ _ _ _ Hinv).
Qed.

Lemma discoveries_complete d data r v :
  rootOf data = Some r → reachable (edges (computeLayout d data)) r v →
  v = r ∨ ∃ u, (u, v) ∈ discoveries data.
Proof.
  destruct (nodes data) as [|n0 ns'] eqn:Hns.
  { unfold rootOf. by rewrite Hns. }
  rewrite (rootOf_cons data n0 ns' Hns), (discoveries_cons data n0 ns' Hns).
  rewrite computeLayout_edges by by rewrite Hns.
  intros [= <-] Hr. apply bfs_visits_reachable in Hr.
  by apply (closed_discovered _ _ _ (bfs_closed _ _ _)).
Qed.

(** ** Root inference *)

(** When the first node that no sanitized edge targets has a non-empty id,
    it is the root; when every node is targeted, the first node is; and
    every node with the root's id ends with level 0. *)
Lemma root_inference d data n0 ns' :
  nodes data = n0 :: ns' →
  let es := edges (computeLayout d data) in
  (∀ k n, nodes data !! k = Some n → node_id n ∉ targets es →
     (∀ j n', nodes data !! j = Some n' → j < k → node_id n' ∈ targets es) →
     node_id n ≠ [] → rootOf data = Some (node_id n))
  ∧ ((∀ n, n ∈ nodes data → node_id n ∈ targets es) →
     rootOf data = Some (node_id n0))
  ∧ (∀ r n, rootOf data = Some r → n ∈ nodes (computeLayout d data) →
       node_id n = r → node_level n = Some 0%Z).
Proof.
  intros Hns es.
  destruct (computeLayout_traversal d data n0 ns' Hns) as (E & Hinv & Hq & Hout).
  subst es. rewrite (rootOf_cons data n0 ns' Hns).
  assert (edges (computeLayout d data) = sanitizeEdges (nodes data) (edges data)) as ->
    by by rewrite (computeLayout_cons d data n0 ns' Hns).
  set (es := sanitizeEdges (nodes data) (edges data)) in *.
  split; [|split].
  - intros k n Hk Hn Hfirst Hid. f_equal. unfold startNodeId.
    destruct (findUntargeted (nodes data) es) as [n''|] eqn:Hfind.
    + apply findUntargeted_Some in Hfind as (k'' & Hk'' & Hn'' & Hfirst'').
      destruct (Nat.lt_trichotomy k k'') as [Hlt|[->|Hlt]].
      * by destruct (Hn (Hfirst'' _ _ Hk Hlt)).
      * assert (n'' = n) as -> by congruence. by destruct (node_id n).
      * by destruct (Hn'' (Hfirst _ _ Hk'' Hlt)).
    + destruct Hn. eapply findUntargeted_None; [done|]. by eapply list_elem_of_lookup_2.
  - intros Hall. f_equal. unfold startNodeId.
    destruct (findUntargeted (nodes data) es) as [n|] eqn:Hfind; [|done].
    apply findUntargeted_Some in Hfind as (k & Hk & Hn & _).
    destruct Hn. apply Hall. by eapply list_elem_of_lookup_2.
  - intros r n [= <-] [k Hk]%list_elem_of_lookup_1 Hid.
    destruct (Hout k n Hk) as (n' & Hn' & Hid' & Hl). rewrite <- Hl.
    destruct (decide (buildNodeMap (nodes data) !! (node_id n') = Some k)) as [Hrep|Hrep].
    + eapply final_level; [done..|]. rewrite Hid', Hid. eapply inv_root. done.
    + eapply inv_nonrep; done.
Qed.

(** C3, at [emptyIdGraph]. The one sanitized edge targets the first node,
    so the first node no edge targets is the second one, whose id is the
    empty string; [||] then falls back to the first node, and the root is
    a node that an edge targets. *)
Theorem C3_root_inference_empty_id d :
  let out := computeLayout d emptyIdGraph in
  node_id <$> nodes emptyIdGraph = [str "A"; str ""]
  ∧ edges out = [plainEdge "" "A"]
  ∧ edge_target <$> edges out = [str "A"]
  ∧ findUntargeted (nodes emptyIdGraph) (edges out) = Some (plainNode "" RECTANGLE)
  ∧ rootOf emptyIdGraph = Some (str "A")
  ∧ node_level <$> nodes out = [Some 0%Z; Some 0%Z].
Proof.
  intros out. subst out. rewrite computeLayout_edges by done.
  do 5 (split; [by vm_compute|]).
  rewrite (computeLayout_cons d emptyIdGraph _ _ eq_refl). cbn [nodes].
  rewrite applyLayout_frame by done. by vm_compute.
Qed.

(** C10. The targets that root inference consults are those of the
    sanitized edges. In [ghostRootGraph] the raw edges target both nodes, so
    on them the fallback would choose [D]; sanitization drops [D → X], the
    only edge into [X], and [X] is the root: [D] ends one level below it. *)
Theorem C10_root_from_sanitized_edges d :
  (∀ data,
     rootOf data =
       match nodes data with
       | [] => None
       | n0 :: _ => Some (startNodeId n0 (nodes data) (edges (sanitize data)))
       end)
  ∧ (let g := ghostRootGraph in
     node_id <$> nodes g = [str "D"; str "X"]
     ∧ edge_target <$> edges g = [str "D"; str "X"]
     ∧ filter (fun e => edge_target e = str "X") (edges g) = [plainEdge "D" "X"]
     ∧ edges (sanitize g) = [plainEdge "X" "D"]
     ∧ edges (computeLayout d g) = edges (sanitize g)
     ∧ startNodeId (plainNode "D" DIAMOND) (nodes g) (edges g) = str "D"
     ∧ rootOf g = Some (str "X")
     ∧ (fun n => (node_id n, node_level n)) <$> nodes (computeLayout d g)
         = [(str "D", Some 1%Z); (str "X", Some 0%Z)]).
Proof.
  split; [intros data; reflexivity|]. intros g. subst g.
  rewrite computeLayout_edges by done.
  do 7 (split; [by vm_compute|]).
  rewrite (computeLayout_cons d ghostRootGraph _ _ eq_refl). cbn [nodes].
  rewrite applyLayout_frame by done. by vm_compute.
Qed.

(** ** What the steps read of the nodes *)

Lemma nodeIds_identity ns ns' :
  identity <$> ns = identity <$> ns' → nodeIds ns = nodeIds ns'.
Proof.
  intros H. unfold nodeIds. f_equal.
  change node_id with ((fun p : jsstring * jsstring * NodeShape => p.1.1) ∘ identity).
  by rewrite !list_fmap_compose, H.
Qed.

Lemma diamondNodeIds_identity ns ns' :
  identity <$> ns = identity <$> ns' → diamondNodeIds ns = diamondNodeIds ns'.
Proof.
  intros H. unfold diamondNodeIds. f_equal. revert ns' H.
  induction ns as [|n ns IH]; intros [|n' ns'] H; try done.
  injection H as Hid Hlab Hsh H. rewrite !filter_cons, <- Hsh.
  case_decide; csimpl; [rewrite Hid; f_equal|]; by apply IH.
Qed.

Lemma sanitizeEdges_identity ns ns' es :
  identity <$> ns = identity <$> ns' → sanitizeEdges ns es = sanitizeEdges ns' es.
Proof.
  intros H. unfold sanitizeEdges, removeGhostEdges, removeDangling.
  by rewrite (nodeIds_identity _ _ H), (diamondNodeIds_identity _ _ H).
Qed.

Lemma fillNodeMap_ids j ns ns' m0 :
  node_id <$> ns = node_id <$> ns' → fillNodeMap j ns m0 = fillNodeMap j ns' m0.
Proof.
  revert j m0 ns'. induction ns as [|n ns IH]; intros j m0 [|n' ns'] H; try done.
  injection H as Hid H. cbn [fillNodeMap]. rewrite Hid. by apply IH.
Qed.

Lemma findUntargeted_ids ns ns' es :
  node_id <$> ns = node_id <$> ns' →
  node_id <$> findUntargeted ns es = node_id <$> findUntargeted ns' es.
Proof.
  unfold findUntargeted. revert ns'.
  induction ns as [|n ns IH]; intros [|n' ns'] H; try done.
  injection H as Hid H. cbn [list_find]. rewrite <- Hid.
  case_decide; [cbn; by rewrite Hid|].
  specialize (IH ns' H).
  destruct (list_find _ ns) as [[k a]|], (list_find _ ns') as [[k' a']|]; done.
Qed.

Lemma startNodeId_ids n0 n0' ns ns' es :
  node_id n0 = node_id n0' → node_id <$> ns = node_id <$> ns' →
  startNodeId n0 ns es = startNodeId n0' ns' es.
Proof.
  intros H0 H. unfold startNodeId. pose proof (findUntargeted_ids ns ns' es H) as Hf.
  destruct (findUntargeted ns es) as [n|], (findUntargeted ns' es) as [n'|];
    try done.
  injection Hf as ->. by rewrite H0.
Qed.

Lemma identity_ids (ns ns' : list FlowchartNode) :
  identity <$> ns = identity <$> ns' → node_id <$> ns = node_id <$> ns'.
Proof.
  intros H.
  change node_id with ((fun p : jsstring * jsstring * NodeShape => p.1.1) ∘ identity).
  by rewrite !list_fmap_compose, H.
Qed.

(** ** The traversal does not read coordinates *)

Lemma raiseLevel_erase m i l s :
  eraseXY <$> raiseLevel m i l s = raiseLevel m i l (eraseXY <$> s).
Proof.
  unfold raiseLevel. destruct (m !! i) as [k|]; [|done].
  apply list_fmap_alter, Forall_true. done.
Qed.

Lemma visitEdges_mapStore f l st outgoing :
  foldl (visitEdge l) (mapStore f st) outgoing
  = mapStore f (foldl (visitEdge l) st outgoing).
Proof.
  revert st. induction outgoing as [|e outgoing IH]; intros st; [done|].
  cbn [foldl]. rewrite <- IH. f_equal.
  unfold visitEdge, mapStore. cbn [visited]. by case_decide.
Qed.

Lemma bfsLoop_erase fuel es m st :
  bfsLoop fuel es m (mapStore eraseXY st) = mapStore eraseXY (bfsLoop fuel es m st).
Proof.
  revert st. induction fuel as [|fuel IH]; intros st; [done|].
  cbn [bfsLoop mapStore queue]. destruct (queue st) as [|[i l] q]; [done|].
  rewrite <- IH. f_equal. unfold bfsStep. rewrite <- visitEdges_mapStore.
  f_equal. unfold mapStore. cbn [queue visited store discovered].
  by rewrite raiseLevel_erase.
Qed.

Lemma leveled_erase n0 n0' ns ns' es :
  node_id n0 = node_id n0' → identity <$> ns = identity <$> ns' →
  eraseXY <$> leveled n0 ns es = eraseXY <$> leveled n0' ns' es.
Proof.
  intros H0 H. pose proof (identity_ids _ _ H) as Hids.
  assert (∀ n1 l, eraseXY <$> leveled n1 l es
            = store (bfsLoop (S (length es)) es (buildNodeMap l)
                       (mkBfs [(startNodeId n1 l es, 0%Z)] {[startNodeId n1 l es]}
                              (eraseXY <$> resetLevels l) []))) as Hl.
  { intros n1 l. unfold leveled, bfs.
    change (mkBfs _ _ (eraseXY <$> resetLevels l) _)
      with (mapStore eraseXY (mkBfs [(startNodeId n1 l es, 0%Z)] {[startNodeId n1 l es]}
                                    (resetLevels l) [])).
    by rewrite bfsLoop_erase. }
  rewrite !Hl. unfold buildNodeMap.
  rewrite (fillNodeMap_ids 0 ns ns' ∅ Hids), (startNodeId_ids n0 n0' ns ns' es H0 Hids).
  do 2 f_equal. unfold resetLevels. rewrite <- !list_fmap_compose.
  change (eraseXY ∘ setLevel 0)
    with ((fun p : jsstring * jsstring * NodeShape =>
             mkNode p.1.1 p.1.2 p.2 None None (Some 0%Z)) ∘ identity).
  by rewrite !list_fmap_compose, H.
Qed.

(** ** The layout overwrites every coordinate *)

Lemma erase_lookup (l l' : list FlowchartNode) r :
  eraseXY <$> l = eraseXY <$> l' → eraseXY <$> l !! r = eraseXY <$> l' !! r.
Proof. intros H. by rewrite <- !list_lookup_fmap, H. Qed.

Lemma setXY_erase x y (o o' : option FlowchartNode) :
  eraseXY <$> o = eraseXY <$> o' → setXY x y <$> o = setXY x y <$> o'.
Proof.
  destruct o as [[]|], o' as [[]|]; cbn; try done. by intros [= -> -> -> ->].
Qed.

Lemma compareRefs_erase l l' i j :
  eraseXY <$> l = eraseXY <$> l' → compareRefs l i j = compareRefs l' i j.
Proof.
  intros H. unfold compareRefs.
  pose proof (erase_lookup l l' i H) as Hi. pose proof (erase_lookup l l' j H) as Hj.
  destruct (l !! i) as [[]|], (l' !! i) as [[]|]; try done;
    destruct (l !! j) as [[]|], (l' !! j) as [[]|]; try done.
  cbn in Hi, Hj. by injection Hi as -> -> -> ->; injection Hj as -> -> -> ->.
Qed.

Lemma sortedNodes_erase l l' :
  eraseXY <$> l = eraseXY <$> l' → sortedNodes l = sortedNodes l'.
Proof.
  intros H. unfold sortedNodes.
  assert (length l = length l') as <-
    by by rewrite <- (length_fmap eraseXY l), H, length_fmap.
  apply stableSort_ext. intros i j. by apply compareRefs_erase.
Qed.

Lemma levelOf_erase l l' r :
  eraseXY <$> l = eraseXY <$> l' → levelOf l r = levelOf l' r.
Proof.
  intros H. unfold levelOf. pose proof (erase_lookup l l' r H) as Hr.
  destruct (l !! r) as [[]|], (l' !! r) as [[]|]; try done.
  cbn in Hr. by injection Hr as -> -> -> ->.
Qed.

Lemma groupByLevel_erase l l' sorted :
  eraseXY <$> l = eraseXY <$> l' → groupByLevel l sorted = groupByLevel l' sorted.
Proof.
  intros H. unfold groupByLevel. generalize (@nil (Z * list nat)).
  induction sorted as [|r sorted IH]; intros acc; [done|].
  cbn [foldl]. by rewrite (levelOf_erase l l' r H), IH.
Qed.

Lemma applyLayout_erase d l l' :
  eraseXY <$> l = eraseXY <$> l' → applyLayout d l = applyLayout d l'.
Proof.
  intros H.
  assert (length l = length l') as Hlen
    by by rewrite <- (length_fmap eraseXY l), H, length_fmap.
  assert (∀ l0, length (applyLayout d l0) = length l0) as Hlay.
  { intros l0. by rewrite <- (length_fmap node_id), applyLayout_frame, length_fmap. }
  apply list_eq. intros r. destruct (decide (r < length l)) as [Hr|Hr].
  2:{ rewrite !lookup_ge_None_2; [done|rewrite Hlay; lia..]. }
  destruct d; unfold applyLayout.
  - destruct (groupByLevel_covers l r Hr) as (lvl & row & k & Hg & Hk).
    destruct (groupByLevel_spec l (sortedNodes l)) as (_ & Hperm & _).
    unfold topBottomLayout.
    rewrite <- (sortedNodes_erase l l' H), <- (groupByLevel_erase l l' _ H).
    rewrite !(placeLevels_lookup _ _ _ lvl row k r)
      by (done || rewrite Hperm; apply sortedNodes_NoDup).
    apply setXY_erase, erase_lookup, H.
  - assert (r ∈ sortedNodes l) as [i Hi]%list_elem_of_lookup_1
      by by apply elem_of_sortedNodes.
    rewrite <- (sortedNodes_erase l l' H).
    rewrite !(snakeLayout_lookup _ _ i r) by (done || apply sortedNodes_NoDup).
    apply setXY_erase, erase_lookup, H.
Qed.

(** Laying out the result of a layout is laying out the input. *)
Lemma computeLayout_again d d' data :
  computeLayout d' (computeLayout d data) = computeLayout d' data.
Proof.
  destruct (nodes data) as [|n0 ns'] eqn:Hns.
  { by rewrite (computeLayout_nil d data Hns). }
  pose proof (computeLayout_frame identity d data (fun _ _ => eq_refl)
                (fun _ _ _ => eq_refl)) as Hid.
  assert (edges (computeLayout d data) = sanitizeEdges (nodes data) (edges data)) as Hes
    by (apply computeLayout_edges; by rewrite Hns).
  assert (∃ n1 ns1, nodes (computeLayout d data) = n1 :: ns1 ∧ node_id n1 = node_id n0)
    as (n1 & ns1 & Hns1 & Hn1).
  { destruct (nodes (computeLayout d data)) as [|n1 ns1]; rewrite Hns in Hid; [done|].
    exists n1, ns1. split; [done|]. by injection Hid. }
  rewrite (computeLayout_cons d' _ n1 ns1 Hns1), (computeLayout_cons d' data n0 ns' Hns).
  rewrite Hes, (sanitizeEdges_identity _ _ _ Hid), sanitizeEdges_idemp.
  f_equal. by apply applyLayout_erase, leveled_erase.
Qed.

(** C6. Laying out again with the same direction the graph a call returned
    (which is the content of the mutated argument) returns it once more, so
    every node keeps its x and y; and after any sequence of direction
    switches a layout with direction [d] gives what one layout of the
    input with [d] gives. *)
Theorem C6_layout_determinism :
  (∀ d data, computeLayout d (computeLayout d data) = computeLayout d data)
  ∧ (∀ d d' data,
       computeLayout d (computeLayout d' (computeLayout d data)) = computeLayout d data)
  ∧ (∀ d ds data,
       computeLayout d (foldl (fun g d' => computeLayout d' g) data ds)
       = computeLayout d data)
  ∧ (∀ d ds data,
       let again := computeLayout d (foldl (fun g d' => computeLayout d' g) data ds) in
       (fun n => (node_x n, node_y n)) <$> nodes again
       = (fun n => (node_x n, node_y n)) <$> nodes (computeLayout d data)).
Proof.
  assert (∀ d ds data,
       computeLayout d (foldl (fun g d' => computeLayout d' g) data ds)
       = computeLayout d data) as Hseq.
  { intros d ds. induction ds as [|d' ds IH]; intros data; [done|].
    cbn [foldl]. by rewrite IH, computeLayout_again. }
  split; [intros; apply computeLayout_again|].
  split; [intros; by rewrite !computeLayout_again|].
  split; [exact Hseq|]. intros d ds data again. subst again. by rewrite Hseq.
Qed.

(** * Further properties of [computeLayout] *)

(** ** Where each node ends *)

Ltac geometry :=
  unfold NODE_WIDTH, NODE_HEIGHT, X_GAP, Y_GAP, CANVAS_PADDING in *;
  change (220 / 2)%Z with 110%Z in *; change (140 / 2)%Z with 70%Z in *.

Lemma computeLayout_length d data :
  length (nodes (computeLayout d data)) = length (nodes data).
Proof.
  by rewrite <- (length_fmap node_id), computeLayout_frame, length_fmap.
Qed.


Lemma sortedNodes_length ns : length (sortedNodes ns) = length ns.
Proof. by rewrite sortedNodes_Permutation, length_seq. Qed.

Lemma snakeCol_lt i : snakeCol i < 4.
Proof.
  unfold snakeCol, SNAKE_COLUMNS. pose proof (Nat.mod_upper_bound i 4).
  case_decide; lia.
Qed.

(** The node at reference [r] after a zig-zag layout. *)
Lemma snake_node data r n :
  nodes (computeLayout ZIG_ZAG data) !! r = Some n → nodes data ≠ [] →
  ∃ i, sortedSequence data !! i = Some r ∧ i < length (nodes data)
       ∧ node_x n = Some (Z.of_nat (snakeCol i) * 280 + 160)%Z
       ∧ node_y n = Some (Z.of_nat (snakeRow i) * 240 + 120)%Z.
Proof.
  intros Hn Hne. destruct (nodes data) as [|n0 ns'] eqn:Hns; [done|].
  rewrite (computeLayout_cons _ data n0 ns' Hns) in Hn. cbn [nodes applyLayout] in Hn.
  unfold sortedSequence. rewrite Hns, <- Hns.
  set (L := leveled n0 (nodes data) (sanitizeEdges (nodes data) (edges data))) in *.
  assert (r < length L) as Hr.
  { apply lookup_lt_Some in Hn.
    by rewrite <- (length_fmap node_id), snakeLayout_frame, length_fmap in Hn. }
  assert (r ∈ sortedNodes L) as [i Hi]%list_elem_of_lookup_1
    by by apply elem_of_sortedNodes.
  exists i. split; [done|]. split.
  { apply lookup_lt_Some in Hi.
    rewrite sortedNodes_length in Hi. unfold L in Hi. by rewrite leveled_length in Hi. }
  rewrite (snakeLayout_lookup _ _ i r (sortedNodes_NoDup _) Hi) in Hn.
  destruct (L !! r) as [nL|]; [|done]. injection Hn as <-.
  cbn [setXY node_x node_y]. geometry. split; f_equal; lia.
Qed.

(** The node at reference [r] after a top-bottom layout. *)
Lemma topBottom_node data r n :
  nodes (computeLayout TOP_BOTTOM data) !! r = Some n → nodes data ≠ [] →
  ∃ lvl row k, (lvl, row) ∈ levelGroups data ∧ row !! k = Some r
       ∧ node_level n = Some lvl
       ∧ node_x n = Some (startX (maxRowWidth (levelGroups data)) row
                          + Z.of_nat k * 280 + 110)%Z
       ∧ node_y n = Some (lvl * 240 + 120)%Z.
Proof.
  intros Hn Hne. destruct (nodes data) as [|n0 ns'] eqn:Hns; [done|].
  rewrite (computeLayout_cons _ data n0 ns' Hns) in Hn. cbn [nodes applyLayout] in Hn.
  unfold levelGroups, sortedSequence. rewrite Hns, <- Hns.
  set (L := leveled n0 (nodes data) (sanitizeEdges (nodes data) (edges data))) in *.
  assert (r < length L) as Hr.
  { apply lookup_lt_Some in Hn. unfold topBottomLayout in Hn.
    by rewrite <- (length_fmap node_id), placeLevels_frame, length_fmap in Hn. }
  destruct (groupByLevel_covers L r Hr) as (lvl & row & k & Hg & Hk).
  exists lvl, row, k. split; [done|]. split; [done|].
  destruct (topBottomLayout_lookup L lvl row k r (leveled_has_level _ _ _) Hg Hk)
    as (n' & Hn' & Hl & Hx & Hy).
  pose proof (eq_trans (eq_sym Hn) Hn') as [= ->].
  split; [done|]. rewrite Hx, Hy. geometry. split; f_equal; lia.
Qed.

Lemma levelGroups_cons data n0 ns' :
  nodes data = n0 :: ns' →
  levelGroups data =
    groupByLevel (leveled n0 (nodes data) (sanitizeEdges (nodes data) (edges data)))
      (sortedNodes (leveled n0 (nodes data) (sanitizeEdges (nodes data) (edges data)))).
Proof. intros H. unfold levelGroups, sortedSequence. by rewrite H. Qed.

(** Rows of one level are one row. *)
Lemma levelGroups_row_unique data lvl row row' :
  (lvl, row) ∈ levelGroups data → (lvl, row') ∈ levelGroups data → row = row'.
Proof.
  destruct (nodes data) as [|n0 ns'] eqn:Hns.
  { unfold levelGroups. rewrite Hns. intros H. by apply elem_of_nil in H. }
  rewrite (levelGroups_cons data n0 ns' Hns). set (L := leveled _ _ _).
  destruct (groupByLevel_spec L (sortedNodes L)) as (Hnd & _ & _).
  revert Hnd. generalize (groupByLevel L (sortedNodes L)). intros G Hnd H1 H2.
  induction G as [|[l0 r0] G IH]; [by apply elem_of_nil in H1|].
  cbn in Hnd. apply NoDup_cons in Hnd as [Hl0 Hnd].
  apply elem_of_cons in H1 as [[= -> ->]|H1], H2 as [[= <-]|H2]; try done.
  - destruct Hl0. apply list_elem_of_fmap. by exists (l0, row').
  - destruct Hl0. apply list_elem_of_fmap. by exists (lvl, row).
  - by apply IH.
Qed.

Lemma levelGroups_row_NoDup data lvl row :
  (lvl, row) ∈ levelGroups data → NoDup row.
Proof.
  destruct (nodes data) as [|n0 ns'] eqn:Hns.
  { unfold levelGroups. rewrite Hns. intros H. by apply elem_of_nil in H. }
  rewrite (levelGroups_cons data n0 ns' Hns). set (L := leveled _ _ _).
  destruct (groupByLevel_spec L (sortedNodes L)) as (_ & Hperm & _).
  assert (NoDup (concat (groupByLevel L (sortedNodes L)).*2)) as Hnd
    by (rewrite Hperm; apply sortedNodes_NoDup).
  revert Hnd. generalize (groupByLevel L (sortedNodes L)). intros G Hnd Hg.
  induction G as [|[l0 r0] G IH]; [by apply elem_of_nil in Hg|].
  cbn in Hnd. apply NoDup_app in Hnd as (H0 & _ & Hrest).
  apply elem_of_cons in Hg as [[= -> ->]|Hg]; [done|by apply IH].
Qed.

Lemma levelGroups_width data lvl row :
  (lvl, row) ∈ levelGroups data →
  (Z.of_nat (length row) * 280 ≤ maxRowWidth (levelGroups data))%Z.
Proof.
  intros Hg. destruct (maxRowWidth_foldl 0 (levelGroups data)) as (_ & H & _).
  apply (H _ Hg).
Qed.

(** Levels are never negative. *)
Lemma computeLayout_level_nonneg d data n :
  nodes data ≠ [] → n ∈ nodes (computeLayout d data) →
  ∃ l, node_level n = Some l ∧ (0 ≤ l)%Z.
Proof.
  intros Hne [k Hk]%list_elem_of_lookup_1.
  destruct (nodes data) as [|n0 ns'] eqn:Hns; [done|]. rewrite <- Hns in *.
  destruct (computeLayout_traversal d data n0 ns' Hns) as (E & Hinv & Hq & Hout).
  destruct (Hout k n Hk) as (n' & Hn' & Hid & Hl). rewrite <- Hl.
  destruct (E !! (node_id n')) as [l|] eqn:HE.
  - destruct (decide (buildNodeMap (nodes data) !! (node_id n') = Some k)) as [Hrep|Hrep].
    + exists l. split; [by eapply final_level|]. by eapply inv_nonneg.
    + exists 0%Z. split; [by eapply inv_nonrep|done].
  - exists 0%Z. split; [by eapply final_level_fresh|done].
Qed.

Lemma computeLayout_nonempty d data r n :
  nodes (computeLayout d data) !! r = Some n → nodes data ≠ [].
Proof.
  intros Hn%lookup_lt_Some Hnil. rewrite computeLayout_length, Hnil in Hn.
  cbn in Hn. lia.
Qed.

(** The member [k] of a row after a top-bottom layout. *)
Lemma topBottom_member data lvl row k r :
  (lvl, row) ∈ levelGroups data → row !! k = Some r →
  ∃ n, nodes (computeLayout TOP_BOTTOM data) !! r = Some n
       ∧ node_level n = Some lvl
       ∧ node_x n = Some (startX (maxRowWidth (levelGroups data)) row
                          + Z.of_nat k * 280 + 110)%Z
       ∧ node_y n = Some (lvl * 240 + 120)%Z.
Proof.
  intros Hg Hk. destruct (nodes data) as [|n0 ns'] eqn:Hns.
  { unfold levelGroups in Hg. rewrite Hns in Hg. by apply elem_of_nil in Hg. }
  rewrite (computeLayout_cons _ data n0 ns' Hns). cbn [nodes applyLayout].
  rewrite (levelGroups_cons data n0 ns' Hns) in *.
  destruct (topBottomLayout_lookup _ lvl row k r (leveled_has_level _ _ _) Hg Hk)
    as (n & Hn & Hl & Hx & Hy).
  exists n. split; [done|]. split; [done|].
  rewrite Hx, Hy. geometry. split; f_equal; lia.
Qed.

Lemma startX_ge data lvl row :
  (lvl, row) ∈ levelGroups data →
  (80 ≤ startX (maxRowWidth (levelGroups data)) row)%Z.
Proof.
  intros Hg. pose proof (levelGroups_width data lvl row Hg) as Hw.
  pose proof (startX_exact (levelGroups data) row (ex_intro _ lvl Hg)) as Hex.
  unfold startX, rowWidth in *. geometry. lia.
Qed.

(** X1. After [computeLayout] on a graph with nodes, every node has a level,
    which is not negative, and both coordinates, with [x >= 160] and
    [y >= 120]: the renderer's fallbacks [node.x || 0] and [node.y || 0]
    never apply. *)
Theorem X1_every_node_placed d data n :
  nodes data ≠ [] → n ∈ nodes (computeLayout d data) →
  ∃ l x y, node_level n = Some l ∧ (0 ≤ l)%Z
           ∧ node_x n = Some x ∧ node_y n = Some y
           ∧ (160 ≤ x)%Z ∧ (120 ≤ y)%Z.
Proof.
  intros Hne Hn. destruct (computeLayout_level_nonneg d data n Hne Hn) as (l & Hl & Hl0).
  apply list_elem_of_lookup_1 in Hn as [r Hr]. destruct d.
  - destruct (topBottom_node data r n Hr Hne) as (lvl & row & k & Hg & Hk & Hl' & Hx & Hy).
    pose proof (startX_ge data lvl row Hg).
    assert (lvl = l) as -> by congruence.
    eexists l, _, _. repeat split; try done; lia.
  - destruct (snake_node data r n Hr Hne) as (i & Hi & _ & Hx & Hy).
    eexists l, _, _. repeat split; try done; lia.
Qed.

(** X2. Two different nodes never get the same place: their centres are at
    least 280 apart horizontally or at least 240 apart vertically, more than
    the 190 by 100 the widest and tallest drawn shape takes. *)
Theorem X2_centres_apart d data r r' n n' :
  r ≠ r' →
  nodes (computeLayout d data) !! r = Some n →
  nodes (computeLayout d data) !! r' = Some n' →
  ∃ x y x' y', node_x n = Some x ∧ node_y n = Some y
               ∧ node_x n' = Some x' ∧ node_y n' = Some y'
               ∧ (280 ≤ Z.abs (x - x') ∨ 240 ≤ Z.abs (y - y'))%Z.
Proof.
  intros Hne Hr Hr'. pose proof (computeLayout_nonempty _ _ _ _ Hr) as Hnz. destruct d.
  - destruct (topBottom_node data r n Hr Hnz) as (lvl & row & k & Hg & Hk & _ & Hx & Hy).
    destruct (topBottom_node data r' n' Hr' Hnz)
      as (lvl' & row' & k' & Hg' & Hk' & _ & Hx' & Hy').
    eexists _, _, _, _. do 4 (split; [done|]).
    destruct (decide (lvl = lvl')) as [<-|Hl]; [left|right; lia].
    assert (row' = row) as -> by by eapply levelGroups_row_unique.
    assert (k ≠ k') by congruence. lia.
  - destruct (snake_node data r n Hr Hnz) as (i & Hi & _ & Hx & Hy).
    destruct (snake_node data r' n' Hr' Hnz) as (i' & Hi' & _ & Hx' & Hy').
    eexists _, _, _, _. do 4 (split; [done|]).
    assert (i ≠ i') as Hii by congruence.
    destruct (decide (snakeRow i = snakeRow i')) as [Hrow|Hrow]; [left|right; lia].
    assert (snakeCol i ≠ snakeCol i'); [|lia].
    unfold snakeCol. rewrite <- Hrow. unfold snakeRow, SNAKE_COLUMNS in *.
    pose proof (Nat.div_mod_eq i 4). pose proof (Nat.div_mod_eq i' 4).
    pose proof (Nat.mod_upper_bound i 4). pose proof (Nat.mod_upper_bound i' 4).
    case_decide; lia.
Qed.

(** X3. The zig-zag layout uses four columns and as few rows as the nodes
    need: every [x] is one of 160, 440, 720, 1000 and every [y] is at most
    [((count - 1) div 4) * 240 + 120]. *)
Theorem X3_zigzag_extent data n :
  n ∈ nodes (computeLayout ZIG_ZAG data) →
  ∃ x y, node_x n = Some x ∧ node_y n = Some y
         ∧ (x = 160 ∨ x = 440 ∨ x = 720 ∨ x = 1000)%Z
         ∧ (120 ≤ y ≤ Z.of_nat ((length (nodes data) - 1) / 4) * 240 + 120)%Z.
Proof.
  intros [r Hr]%list_elem_of_lookup_1.
  pose proof (computeLayout_nonempty _ _ _ _ Hr) as Hnz.
  destruct (snake_node data r n Hr Hnz) as (i & _ & Hi & Hx & Hy).
  eexists _, _. do 2 (split; [done|]). split.
  - pose proof (snakeCol_lt i). lia.
  - assert (snakeRow i ≤ (length (nodes data) - 1) / 4); [|lia].
    apply Nat.Div0.div_le_mono. lia.
Qed.

(** X4. The top-bottom layout centres every row on one vertical axis: the
    [x] of the node [k] places from the left and the [x] of the node [k]
    places from the right of a row add up to [maxRowWidth + 100], whatever
    the row. *)
Theorem X4_rows_centred data lvl row k k' r r' n n' :
  (lvl, row) ∈ levelGroups data →
  row !! k = Some r → row !! k' = Some r' → k + k' + 1 = length row →
  nodes (computeLayout TOP_BOTTOM data) !! r = Some n →
  nodes (computeLayout TOP_BOTTOM data) !! r' = Some n' →
  ∃ x x', node_x n = Some x ∧ node_x n' = Some x'
          ∧ (x + x' = maxRowWidth (levelGroups data) + 100)%Z.
Proof.
  intros Hg Hk Hk' Hlen Hn Hn'.
  destruct (topBottom_member data lvl row k r Hg Hk) as (m & Hm & _ & Hx & _).
  destruct (topBottom_member data lvl row k' r' Hg Hk') as (m' & Hm' & _ & Hx' & _).
  assert (m = n) as -> by congruence. assert (m' = n') as -> by congruence.
  eexists _, _. do 2 (split; [done|]).
  pose proof (startX_exact (levelGroups data) row (ex_intro _ lvl Hg)) as Hex.
  unfold startX, rowWidth in *. geometry. lia.
Qed.

(** X5. The direction decides coordinates only: with either direction
    [computeLayout] returns the same edges and, node by node, the same id,
    label, shape and level. *)
Theorem X5_direction_sets_coordinates_only d d' data :
  edges (computeLayout d data) = edges (computeLayout d' data)
  ∧ (fun n => (identity n, node_level n)) <$> nodes (computeLayout d data)
    = (fun n => (identity n, node_level n)) <$> nodes (computeLayout d' data).
Proof.
  destruct (nodes data) as [|n0 ns'] eqn:Hns.
  { by rewrite !(computeLayout_nil _ data Hns). }
  rewrite !(computeLayout_cons _ data n0 ns' Hns). cbn [nodes edges].
  split; [done|]. by rewrite !applyLayout_frame.
Qed.

(** X6. [computeLayout] reads of a graph with nodes only the ids, labels and
    shapes of its nodes, in order, and the edges that survive sanitization:
    two graphs that agree on these get the same result, whatever levels and
    coordinates their nodes carry and whatever edges sanitization drops. *)
Theorem X6_reads_identity_and_kept_edges d data data' :
  nodes data ≠ [] →
  identity <$> nodes data = identity <$> nodes data' →
  edges (sanitize data) = edges (sanitize data') →
  computeLayout d data = computeLayout d data'.
Proof.
  intros Hne Hid Hes. cbn [sanitize edges] in Hes.
  destruct (nodes data) as [|n0 ns] eqn:Hns; [done|].
  destruct (nodes data') as [|n0' ns'] eqn:Hns'; [done|].
  rewrite (computeLayout_cons d data n0 ns Hns), (computeLayout_cons d data' n0' ns' Hns').
  rewrite Hns, Hns', Hes. f_equal.
  apply applyLayout_erase, leveled_erase; [|done]. by injection Hid.
Qed.


(** X7. The sequence the layout walks lists every node once, with levels
    that never decrease, whatever [localeCompare] answers; when
    [localeCompare] is a total preorder (its sign is transitive and its two
    readings of a pair do not both say "after"), nodes of one level come in
    the order of their ids. *)
Theorem X7_sorted_sequence d data :
  sortedSequence data ≡ₚ seq 0 (length (nodes data))
  ∧ (∀ i j ri rj ni nj,
       i < j → sortedSequence data !! i = Some ri → sortedSequence data !! j = Some rj →
       nodes (computeLayout d data) !! ri = Some ni →
       nodes (computeLayout d data) !! rj = Some nj →
       ∃ li lj, node_level ni = Some li ∧ node_level nj = Some lj ∧ (li ≤ lj)%Z
         ∧ ((∀ a b c, (localeCompare a b ≤ 0)%Z → (localeCompare b c ≤ 0)%Z →
                      (localeCompare a c ≤ 0)%Z) →
            (∀ a b, (0 < localeCompare a b)%Z → (localeCompare b a ≤ 0)%Z) →
            li = lj → (localeCompare (node_id ni) (node_id nj) ≤ 0)%Z)).
Proof. apply sortedSequence_order. Qed.

(** X8. In a laid-out graph the renderer's test for a vertical route,
    [Math.abs(tx - sx) < 20], holds of two nodes exactly when they have the
    same [x]: centres of one layout differ in [x] by multiples of 140. *)
Theorem X8_vertical_route_is_same_column d data n n' x x' :
  n ∈ nodes (computeLayout d data) → n' ∈ nodes (computeLayout d data) →
  node_x n = Some x → node_x n' = Some x' →
  isVerticalRoute x x' = true ↔ x = x'.
Proof.
  intros [r Hr]%list_elem_of_lookup_1 [r' Hr']%list_elem_of_lookup_1 Hx Hx'.
  unfold isVerticalRoute. rewrite bool_decide_eq_true.
  pose proof (computeLayout_nonempty _ _ _ _ Hr) as Hnz.
  assert (∃ k, (x' - x = 140 * k)%Z) as [k Hk]; [|split; [intros ?|intros ->]; lia].
  destruct d.
  - destruct (topBottom_node data r n Hr Hnz) as (lvl & row & j & Hg & _ & _ & Hx1 & _).
    destruct (topBottom_node data r' n' Hr' Hnz) as (lvl' & row' & j' & Hg' & _ & _ & Hx1' & _).
    pose proof (startX_exact (levelGroups data) row (ex_intro _ lvl Hg)) as He.
    pose proof (startX_exact (levelGroups data) row' (ex_intro _ lvl' Hg')) as He'.
    assert (x = startX (maxRowWidth (levelGroups data)) row + Z.of_nat j * 280 + 110)%Z
      as -> by congruence.
    assert (x' = startX (maxRowWidth (levelGroups data)) row' + Z.of_nat j' * 280 + 110)%Z
      as -> by congruence.
    unfold startX, rowWidth in *. geometry.
    exists (Z.of_nat (length row) - Z.of_nat (length row')
            + 2 * (Z.of_nat j' - Z.of_nat j))%Z. lia.
  - destruct (snake_node data r n Hr Hnz) as (i & _ & _ & Hx1 & _).
    destruct (snake_node data r' n' Hr' Hnz) as (i' & _ & _ & Hx1' & _).
    exists (2 * (Z.of_nat (snakeCol i') - Z.of_nat (snakeCol i)))%Z.
    assert (x = Z.of_nat (snakeCol i) * 280 + 160)%Z as -> by congruence.
    assert (x' = Z.of_nat (snakeCol i') * 280 + 160)%Z as -> by congruence. lia.
Qed.

Lemma findNode_is_Some ns i : is_Some (findNode ns i) ↔ i ∈ nodeIds ns.
Proof.
  unfold findNode. rewrite elem_of_nodeIds, Exists_exists. split.
  - destruct (list_find _ ns) as [[k n]|] eqn:H; [|by intros [? [=]]]. intros _.
    apply list_find_Some in H as (Hk & Hn & _). exists n.
    split; [by eapply list_elem_of_lookup_2|done].
  - intros (n & Hn & Hid).
    destruct (list_find (fun n => node_id n = i) ns) as [[k m]|] eqn:H; [by eexists|].
    apply list_find_None in H. rewrite Forall_forall in H. by destruct (H n Hn).
Qed.

(** X9. The renderer skips exactly the edges the first sanitization rule
    removes, those with an end that names no node; of a graph
    [computeLayout] returned for a non-empty node list it skips none, and
    the nodes it finds for the two ends of an edge are different nodes. *)
Theorem X9_renderer_draws_every_kept_edge d :
  (∀ data, drawnEdges data = removeDangling (nodes data) (edges data))
  ∧ (∀ data, nodes data ≠ [] →
       drawnEdges (computeLayout d data) = edges (computeLayout d data)
       ∧ ∀ e, e ∈ edges (computeLayout d data) →
           ∃ src trg, findNode (nodes (computeLayout d data)) (edge_source e) = Some src
                      ∧ findNode (nodes (computeLayout d data)) (edge_target e) = Some trg
                      ∧ node_id src = edge_source e ∧ node_id trg = edge_target e
                      ∧ src ≠ trg).
Proof.
  assert (∀ data, drawnEdges data = removeDangling (nodes data) (edges data)) as Hdrawn.
  { intros data. unfold drawnEdges, removeDangling. apply list_filter_iff.
    intros e. by rewrite !findNode_is_Some. }
  split; [done|]. intros data Hne.
  assert (nodeIds (nodes (computeLayout d data)) = nodeIds (nodes data)) as Hids.
  { unfold nodeIds. by rewrite computeLayout_frame. }
  assert (∀ e, e ∈ edges (computeLayout d data) → passesFilters (nodes data) e) as Hpass.
  { intros e. rewrite computeLayout_edges, sanitizeEdges_filter, list_elem_of_filter by done.
    tauto. }
  split.
  - rewrite Hdrawn. unfold removeDangling. rewrite Hids.
    rewrite computeLayout_edges, sanitizeEdges_filter by done.
    apply list_filter_filter_r. intros e ([Hs Ht] & _). by rewrite !elem_of_nodeIds.
  - intros e He. destruct (Hpass e He) as ([Hs Ht] & Hloop & _).
    apply elem_of_nodeIds in Hs, Ht. rewrite <- Hids in Hs, Ht.
    apply findNode_is_Some in Hs as [src Hsrc], Ht as [trg Htrg].
    exists src, trg. split; [done|]. split; [done|].
    assert (∀ i n, findNode (nodes (computeLayout d data)) i = Some n → node_id n = i) as Hfound.
    { intros i n. unfold findNode.
      destruct (list_find _ _) as [[k m]|] eqn:H; [|done]. intros [= <-].
      by apply list_find_Some in H as (_ & Hn & _). }
    pose proof (Hfound _ _ Hsrc). pose proof (Hfound _ _ Htrg).
    split; [done|]. split; [done|]. intros ->. apply Hloop. congruence.
Qed.

(** ** Levels are distances *)

Section Distance.
Variables (es : list FlowchartEdge) (m : gmap jsstring nat).
Variables (root : jsstring) (ids : list jsstring).
Hypothesis Hm : ∀ i k, m !! i = Some k → ids !! k = Some i.
Hypothesis Htargets : ∀ e, e ∈ es → is_Some (m !! edge_target e).

Lemma dequeue_dist E c st i l q :
  bfsInv es m root ids E st → bfsDist es m root c None st →
  queue st = (i, l) :: q →
  let st1 := mkBfs q (visited st) (raiseLevel m i l (store st)) (discovered st) in
  bfsDist es m root l (Some i) st1
  ∧ i ∈ visited st1 ∧ (i ∉ (queue st1).*1) ∧ repLevel m (store st1) i = l.
Proof.
  intros Hinv [] Hq st1.
  destruct (dequeue_inv es m root ids Hm E st i l q Hinv Hq) as (Hinv1 & HE & Hi).
  assert (repLevel m (raiseLevel m i l (store st)) i = l) as Hl
    by by eapply (inv_done _ _ _ _ _ _ Hinv1).
  assert (∀ j, j ≠ i →
            repLevel m (raiseLevel m i l (store st)) j = repLevel m (store st) j) as Hother.
  { intros j Hj. by apply (repLevel_raise_other m ids Hm). }
  rewrite Hq in *. cbn in dist_sorted0.
  apply StronglySorted_inv in dist_sorted0 as [Hsorted Hhead].
  destruct (dist_range0 i l) as [Hcl _]; [left|].
  assert (i ∈ visited st) as Hiv by (apply dist_queue_visited0; cbn; left).
  split; [|done]. subst st1. split; cbn [queue visited store discovered].
  - lia.
  - intros j l' Hj. destruct (dist_range0 j l') as [_ ?]; [by right|]. split; [|lia].
    rewrite Forall_forall in Hhead. apply Hhead, list_elem_of_fmap. by exists (j, l').
  - done.
  - intros j Hj. apply dist_queue_visited0. cbn. by right.
  - intros j Hv Hj. destruct (decide (j = i)) as [->|Hne]; [lia|].
    rewrite Hother by done. etrans; [apply dist_done0|done]; [done|].
    cbn. rewrite elem_of_cons. tauto.
  - intros j l' Hj. apply dist_path_queue0. by right.
  - intros j Hv Hj. destruct (decide (j = i)) as [->|Hne].
    + rewrite Hl. apply dist_path_queue0. left.
    + rewrite Hother by done. apply dist_path_done0; [done|].
      cbn. rewrite elem_of_cons. tauto.
  - intros e He Hs Hsq Hcur.
    assert (edge_source e ≠ i) as Hsi by congruence.
    destruct (dist_relaxed0 e He Hs) as (Ht & Htq & Htd); [|done|].
    { cbn. rewrite elem_of_cons. tauto. }
    rewrite Hq in Htq, Htd.
    split; [done|]. cbn [queue store]. rewrite (Hother _ Hsi). split.
    + intros l' Hl'. apply Htq. by right.
    + intros Htn. destruct (decide (edge_target e = i)) as [Hti|Hti].
      * rewrite Hti, Hl. apply Htq. rewrite Hti. left.
      * rewrite Hother by done. apply Htd. cbn. rewrite elem_of_cons. tauto.
Qed.

Lemma visitEdge_relaxed_stable l st e e' :
  (∀ j, j ∈ (queue st).*1 → j ∈ visited st) →
  relaxed m st e' → relaxed m (visitEdge l st e) e'.
Proof.
  intros Hqv (Ht & Htq & Htd). unfold visitEdge. case_decide as Hv; [done|].
  split; cbn [queue visited store]; [set_solver|]. split.
  - intros l' [?|[= Heq _]%list_elem_of_singleton]%elem_of_app; [by apply Htq|].
    destruct Hv. by rewrite <- Heq.
  - intros Hn. apply Htd. intros ?. apply Hn. rewrite fmap_app, elem_of_app. by left.
Qed.

Lemma visitEdge_dist l st e i :
  bfsDist es m root l (Some i) st → e ∈ es → edge_source e = i →
  i ∈ visited st → i ∉ (queue st).*1 → repLevel m (store st) i = l →
  bfsDist es m root l (Some i) (visitEdge l st e)
  ∧ relaxed m (visitEdge l st e) e
  ∧ i ∈ visited (visitEdge l st e) ∧ (i ∉ (queue (visitEdge l st e)).*1)
  ∧ repLevel m (store (visitEdge l st e)) i = l.
Proof.
  intros Hd He Hs Hiv Hiq Hl. pose proof Hd as [].
  unfold visitEdge. case_decide as Hv.
  { split; [done|]. split; [|done]. split; [done|]. rewrite Hs, Hl. split.
    - intros l' Hl'. apply dist_range0 in Hl'. lia.
    - intros Hn. specialize (dist_done0 _ Hv Hn). lia. }
  assert (edge_target e ∉ (queue st).*1) as Htq by (intros ?; apply Hv; auto).
  assert (edge_target e ≠ i) as Hti by congruence.
  split; [|split; [|split; [|split]]]; cbn [queue visited store discovered].
  - split; cbn [queue visited store discovered]; try done.
    + intros j l' [Hj|[= -> ->]%list_elem_of_singleton]%elem_of_app;
        [by apply (dist_range0 j)|lia].
    + rewrite fmap_app. apply StronglySorted_app. split; [|split; [done|repeat constructor]].
      intros l1 l2 ([j l1'] & -> & Hj)%list_elem_of_fmap Hl2. cbn in Hl2.
      apply list_elem_of_singleton in Hl2 as ->. apply dist_range0 in Hj. cbn. lia.
    + intros j. rewrite fmap_app, elem_of_app. cbn. rewrite list_elem_of_singleton.
      intros [?| ->]; apply elem_of_union; [right; auto|left; by apply elem_of_singleton].
    + intros j. rewrite fmap_app, elem_of_app. cbn. rewrite list_elem_of_singleton.
      intros [->%elem_of_singleton|Hj]%elem_of_union Hn; [tauto|]. apply dist_done0; tauto.
    + intros j l' [Hj|[= -> ->]%list_elem_of_singleton]%elem_of_app;
        [by apply dist_path_queue0|].
      replace (Z.to_nat (l + 1)) with (S (Z.to_nat l)) by lia.
      apply (pathLen_edge es root _ e); [|done..].
      rewrite Hs, <- Hl. by apply dist_path_done0.
    + intros j. rewrite fmap_app, elem_of_app. cbn. rewrite list_elem_of_singleton.
      intros [->%elem_of_singleton|Hj]%elem_of_union Hn; [tauto|].
      apply dist_path_done0; tauto.
    + intros e' He'. rewrite fmap_app, elem_of_app. cbn. rewrite list_elem_of_singleton.
      intros [->%elem_of_singleton|Hs']%elem_of_union Hn Hcur; [tauto|].
      destruct (dist_relaxed0 e' He' Hs') as (Ht & Htq' & Htd); [tauto|done|].
      split; [apply elem_of_union; by right|]. cbn [queue store]. split.
      * intros l' [?|[= Heq _]%list_elem_of_singleton]%elem_of_app;
          [by apply Htq'|]. destruct Hv. by rewrite <- Heq.
      * intros Hn'. apply Htd. intros ?. apply Hn'. rewrite fmap_app, elem_of_app. by left.
  - split; cbn [queue visited store];
      [apply elem_of_union; left; by apply elem_of_singleton|]. rewrite Hs, Hl. split.
    + intros l' [Hl'|[= ->]%list_elem_of_singleton]%elem_of_app; [|done].
      destruct Htq. apply list_elem_of_fmap. by exists (edge_target e, l').
    + intros Hn. destruct Hn. rewrite fmap_app, elem_of_app. cbn.
      rewrite list_elem_of_singleton. by right.
  - apply elem_of_union. by right.
  - rewrite fmap_app, elem_of_app. cbn. rewrite list_elem_of_singleton.
    intros [?|?]; [done|congruence].
  - done.
Qed.

Lemma visitEdges_dist (P : FlowchartEdge → Prop) l st outgoing i :
  bfsDist es m root l (Some i) st →
  (∀ e, e ∈ outgoing → e ∈ es ∧ edge_source e = i) →
  i ∈ visited st → i ∉ (queue st).*1 → repLevel m (store st) i = l →
  (∀ e, P e → relaxed m st e) →
  bfsDist es m root l (Some i) (foldl (visitEdge l) st outgoing)
  ∧ ∀ e, P e ∨ e ∈ outgoing → relaxed m (foldl (visitEdge l) st outgoing) e.
Proof.
  revert P st. induction outgoing as [|e outgoing IH]; intros P st Hd Hout Hiv Hiq Hl HP.
  { split; [done|]. intros e [?|He]; [auto|]. by apply elem_of_nil in He. }
  cbn [foldl]. destruct (Hout e) as [He Hs]; [left|].
  destruct (visitEdge_dist l st e i Hd He Hs Hiv Hiq Hl) as (Hd' & Hr & Hiv' & Hiq' & Hl').
  destruct (IH (fun e' => P e' ∨ e' = e) (visitEdge l st e) Hd') as [Hd'' Hrs]; try done.
  { intros e' He'. apply Hout. by right. }
  { intros e' [He'| ->]; [|done].
    apply visitEdge_relaxed_stable; [by destruct Hd|auto]. }
  split; [done|]. intros e' [He'|[->|He']%elem_of_cons]; apply Hrs; auto.
Qed.

Lemma bfsStep_dist E c st i l q :
  bfsInv es m root ids E st → bfsDist es m root c None st →
  queue st = (i, l) :: q →
  bfsDist es m root l None (bfsStep es m i l q st).
Proof.
  intros Hinv Hd Hq.
  destruct (dequeue_dist E c st i l q Hinv Hd Hq) as (Hd1 & Hiv & Hiq & Hl).
  unfold bfsStep.
  destruct (visitEdges_dist (fun _ => False) l _ (filter (fun e => edge_source e = i) es) i
              Hd1) as [[] Hrel]; try done.
  { intros e He%list_elem_of_filter. tauto. }
  split; try done. intros e He Hs Hsq _.
  destruct (decide (edge_source e = i)) as [Hi|Hi].
  - apply Hrel. right. by apply list_elem_of_filter.
  - apply dist_relaxed0; try done. congruence.
Qed.

Lemma bfsLoop_dist fuel E c st :
  bfsInv es m root ids E st → bfsDist es m root c None st →
  ∃ c', bfsDist es m root c' None (bfsLoop fuel es m st).
Proof.
  revert E c st. induction fuel as [|fuel IH]; intros E c st Hinv Hd; [by exists c|].
  cbn [bfsLoop]. destruct (queue st) as [|[i l] q] eqn:Hq; [by exists c|].
  destruct (bfsStep_inv es m root ids Hm Htargets E st i l q Hinv Hq) as [E' Hinv'].
  apply (IH E' l); [done|]. by eapply bfsStep_dist.
Qed.
End Distance.

Lemma bfs_init_dist es m root ns :
  bfsDist es m root 0 None (mkBfs [(root, 0%Z)] {[root]} (resetLevels ns) []).
Proof.
  split; cbn [queue visited store discovered].
  - done.
  - intros j l [= -> ->]%list_elem_of_singleton. lia.
  - cbn. repeat constructor.
  - intros j Hj. cbn in Hj. apply list_elem_of_singleton in Hj as ->. set_solver.
  - intros j ->%elem_of_singleton Hn. destruct Hn. cbn. by apply list_elem_of_singleton.
  - intros j l [= -> ->]%list_elem_of_singleton. constructor.
  - intros j ->%elem_of_singleton Hn. destruct Hn. cbn. by apply list_elem_of_singleton.
  - intros e _ ->%elem_of_singleton Hn. destruct Hn. cbn. by apply list_elem_of_singleton.
Qed.

(** What the traversal of [computeLayout] leaves: to every visited id a
    path as long as its stored level, and every edge out of a visited id
    relaxed. *)
Lemma bfs_distances n0 ns es :
  n0 ∈ ns → (∀ e, e ∈ es → edge_target e ∈ nodeIds ns) →
  let st := bfs n0 ns es in
  let root := startNodeId n0 ns es in
  (∀ j, j ∈ visited st →
     (0 ≤ repLevel (buildNodeMap ns) (store st) j)%Z
     ∧ pathLen es root (Z.to_nat (repLevel (buildNodeMap ns) (store st) j)) j)
  ∧ (∀ e, e ∈ es → edge_source e ∈ visited st →
       edge_target e ∈ visited st
       ∧ (repLevel (buildNodeMap ns) (store st) (edge_target e)
          ≤ repLevel (buildNodeMap ns) (store st) (edge_source e) + 1)%Z)
  ∧ repLevel (buildNodeMap ns) (store st) root = 0%Z.
Proof.
  intros H0 Hes st root.
  assert (is_Some (buildNodeMap ns !! root)) as Hroot
    by by apply buildNodeMap_is_Some, startNodeId_in.
  assert (∀ e, e ∈ es → is_Some (buildNodeMap ns !! edge_target e)) as Ht
    by (intros e He; apply buildNodeMap_is_Some; auto).
  destruct (bfs_spec n0 ns es H0 Hes) as [E Hinv].
  destruct (bfsLoop_dist es (buildNodeMap ns) root (node_id <$> ns)
              (buildNodeMap_lookup ns) Ht (S (length es)) {[root := 0%Z]} 0 _
              (bfs_init_inv es _ root ns Hroot) (bfs_init_dist es _ root ns))
    as [c Hd].
  change (bfsDist es (buildNodeMap ns) root c None st) in Hd.
  change (bfsInv es (buildNodeMap ns) root (node_id <$> ns) E st) in Hinv.
  assert (queue st = []) as Hq by apply bfs_queue_empty.
  clearbody st root. destruct Hd. rewrite Hq in *.
  assert (∀ j : jsstring, j ∉ ([] : list (jsstring * Z)).*1) as Hnil
    by (intros j; cbn; apply not_elem_of_nil).
  split; [|split].
  - intros j Hj. split; [|by apply dist_path_done0].
    apply (inv_visited _ _ _ _ _ _ Hinv) in Hj as [l Hl].
    rewrite (inv_done _ _ _ _ _ _ Hinv j l Hl) by (rewrite Hq; apply Hnil).
    by eapply inv_nonneg.
  - intros e He Hs. destruct (dist_relaxed0 e He Hs) as (Hv & _ & Hd); [apply Hnil|done|].
    split; [done|]. apply Hd. rewrite Hq. apply Hnil.
  - apply (inv_done _ _ _ _ _ _ Hinv); [by eapply inv_root|]. rewrite Hq. apply Hnil.
Qed.

Lemma pathLen_reachable es r k v : pathLen es r k v → reachable es r v.
Proof. induction 1; [constructor|]. by eapply reachable_edge. Qed.

Lemma reachable_pathLen es r v : reachable es r v → ∃ k, pathLen es r k v.
Proof.
  induction 1 as [|e v _ [k Hk] He ->]; [exists 0; constructor|].
  exists (S k). by eapply pathLen_edge.
Qed.

(** With distinct ids, the level a node ends with is the level stored for
    its id. *)
Lemma computeLayout_repLevel d data n0 ns' n :
  nodes data = n0 :: ns' → NoDup (node_id <$> nodes data) →
  n ∈ nodes (computeLayout d data) →
  node_level n =
    Some (repLevel (buildNodeMap (nodes data))
            (store (bfs n0 (nodes data) (sanitizeEdges (nodes data) (edges data))))
            (node_id n)).
Proof.
  intros Hns Hnd [k Hk]%list_elem_of_lookup_1.
  destruct (computeLayout_traversal d data n0 ns' Hns) as (E & Hinv & _ & Hout).
  destruct (Hout k n Hk) as (n' & Hn' & Hid & Hl). rewrite <- Hl, <- Hid.
  assert (buildNodeMap (nodes data) !! (node_id n') = Some k) as Hrep.
  { apply buildNodeMap_NoDup; [done|].
    rewrite <- (inv_ids _ _ _ _ _ _ Hinv), list_lookup_fmap, Hn'. done. }
  unfold repLevel. rewrite Hrep. apply levelOf_lookup; [done|].
  pose proof (inv_levels _ _ _ _ _ _ Hinv) as Hlev. rewrite Forall_forall in Hlev.
  apply Hlev. by eapply list_elem_of_lookup_2.
Qed.

Lemma bfs_distances_of data n0 ns' :
  nodes data = n0 :: ns' →
  let es := sanitizeEdges (nodes data) (edges data) in
  let st := bfs n0 (nodes data) es in
  let root := startNodeId n0 (nodes data) es in
  (∀ j, j ∈ visited st →
     (0 ≤ repLevel (buildNodeMap (nodes data)) (store st) j)%Z
     ∧ pathLen es root (Z.to_nat (repLevel (buildNodeMap (nodes data)) (store st) j)) j)
  ∧ (∀ e, e ∈ es → edge_source e ∈ visited st →
       edge_target e ∈ visited st
       ∧ (repLevel (buildNodeMap (nodes data)) (store st) (edge_target e)
          ≤ repLevel (buildNodeMap (nodes data)) (store st) (edge_source e) + 1)%Z)
  ∧ repLevel (buildNodeMap (nodes data)) (store st) root = 0%Z.
Proof.
  intros Hns. apply bfs_distances.
  - rewrite Hns. left.
  - intros e. apply sanitizeEdges_target.
Qed.

(** X10. With distinct ids, the level of a node that the root reaches along
    the sanitized edges is the number of edges of a shortest path from the
    root to it: a path of that length exists and none is shorter. *)
Theorem X10_levels_are_distances d data r n :
  NoDup (node_id <$> nodes data) → rootOf data = Some r →
  n ∈ nodes (computeLayout d data) →
  reachable (edges (computeLayout d data)) r (node_id n) →
  ∃ k, node_level n = Some (Z.of_nat k)
       ∧ pathLen (edges (computeLayout d data)) r k (node_id n)
       ∧ ∀ k', pathLen (edges (computeLayout d data)) r k' (node_id n) → k ≤ k'.
Proof.
  intros Hnd Hroot Hn. destruct (nodes data) as [|n0 ns'] eqn:Hns.
  { unfold rootOf in Hroot. by rewrite Hns in Hroot. }
  rewrite <- Hns in *.
  rewrite (rootOf_cons data n0 ns' Hns) in Hroot. injection Hroot as <-.
  rewrite computeLayout_edges by by rewrite Hns.
  rewrite (computeLayout_repLevel d data n0 ns' n Hns Hnd Hn).
  destruct (bfs_distances_of data n0 ns' Hns) as (Hpath & Hrel & Hr0).
  set (es := sanitizeEdges (nodes data) (edges data)) in *.
  set (st := bfs n0 (nodes data) es) in *.
  set (m := buildNodeMap (nodes data)) in *.
  intros Hreach. pose proof (bfs_visits_reachable _ _ _ _ Hreach) as Hv. fold st in Hv.
  destruct (Hpath _ Hv) as [H0 Hp].
  exists (Z.to_nat (repLevel m (store st) (node_id n))).
  split; [f_equal; lia|]. split; [done|].
  assert (∀ k v, pathLen es (startNodeId n0 (nodes data) es) k v →
            v ∈ visited st ∧ (repLevel m (store st) v ≤ Z.of_nat k)%Z) as Hmin.
  { induction 1 as [|k e v Hp' [IHv IHl] He ->].
    - split; [|lia]. apply (bfs_visits_reachable n0 (nodes data) es). constructor.
    - destruct (Hrel e He IHv) as [Htv Htl]. split; [done|lia]. }
  intros k' Hk'. destruct (Hmin _ _ Hk') as [_ Hle]. lia.
Qed.

(** X11. With distinct ids, an edge of the result that leaves a node the
    root reaches ends at most one level below its source, and exactly one
    level below when it is a discovering edge; in the top-bottom layout,
    where a level is a row 240 apart from the next, it ends at most one row
    below, and a discovering edge exactly one row below. *)
Theorem X11_edges_descend_one_row data r e nu nv :
  NoDup (node_id <$> nodes data) → rootOf data = Some r →
  e ∈ edges (computeLayout TOP_BOTTOM data) →
  reachable (edges (computeLayout TOP_BOTTOM data)) r (edge_source e) →
  nu ∈ nodes (computeLayout TOP_BOTTOM data) →
  nv ∈ nodes (computeLayout TOP_BOTTOM data) →
  node_id nu = edge_source e → node_id nv = edge_target e →
  ∃ lu lv yu yv,
    node_level nu = Some lu ∧ node_level nv = Some lv
    ∧ node_y nu = Some yu ∧ node_y nv = Some yv
    ∧ (lv ≤ lu + 1)%Z ∧ (yv ≤ yu + 240)%Z
    ∧ ((edge_source e, edge_target e) ∈ discoveries data →
       lv = (lu + 1)%Z ∧ yv = (yu + 240)%Z).
Proof.
  intros Hnd Hroot He Hreach Hnu Hnv Hidu Hidv.
  destruct (nodes data) as [|n0 ns'] eqn:Hns.
  { unfold rootOf in Hroot. by rewrite Hns in Hroot. }
  rewrite <- Hns in *.
  assert (nodes data ≠ []) as Hne by by rewrite Hns.
  rewrite (rootOf_cons data n0 ns' Hns) in Hroot. injection Hroot as <-.
  rewrite computeLayout_edges in He, Hreach by done.
  pose proof (computeLayout_repLevel _ data n0 ns' nu Hns Hnd Hnu) as Hlu.
  pose proof (computeLayout_repLevel _ data n0 ns' nv Hns Hnd Hnv) as Hlv.
  destruct (bfs_distances_of data n0 ns' Hns) as (_ & Hrel & _).
  destruct (Hrel e He (bfs_visits_reachable _ _ _ _ Hreach)) as [_ Hle].
  rewrite <- Hidu, <- Hidv in Hle.
  apply list_elem_of_lookup_1 in Hnu as [ku Hku], Hnv as [kv Hkv].
  destruct (topBottom_node data ku nu Hku Hne) as (lu & _ & _ & _ & _ & Hlu' & _ & Hyu).
  destruct (topBottom_node data kv nv Hkv Hne) as (lv & _ & _ & _ & _ & Hlv' & _ & Hyv).
  rewrite Hlu' in Hlu. rewrite Hlv' in Hlv. injection Hlu as Hlu. injection Hlv as Hlv.
  exists lu, lv, (lu * 240 + 120)%Z, (lv * 240 + 120)%Z.
  do 4 (split; [done|]). split; [lia|]. split; [lia|].
  intros Hd. rewrite (discoveries_cons data n0 ns' Hns) in Hd.
  destruct (computeLayout_traversal TOP_BOTTOM data n0 ns' Hns) as (E & Hinv & Hq & _).
  destruct (inv_disc _ _ _ _ _ _ Hinv _ _ Hd) as (_ & l & HEu & HEv).
  assert (∀ j l', E !! j = Some l' →
     repLevel (buildNodeMap (nodes data))
       (store (bfs n0 (nodes data) (sanitizeEdges (nodes data) (edges data)))) j = l')
    as Hdone.
  { intros j l' Hj. apply (inv_done _ _ _ _ _ _ Hinv _ _ Hj).
    rewrite Hq. cbn. apply not_elem_of_nil. }
  rewrite <- Hidu in HEu. rewrite <- Hidv in HEv.
  apply Hdone in HEu, HEv. lia.
Qed.

(** * Text wrapping *)

Lemma splitSpaces_cons s : ∃ w ws, splitSpaces s = w :: ws.
Proof.
  induction s as [|c s (w & ws & IH)]; cbn; [by eexists _, _|].
  destruct (c =? 32)%N; [by eexists _, _|]. rewrite IH. by eexists _, _.
Qed.

Lemma splitSpaces_no_space s : Forall (fun w => 32%N ∉ w) (splitSpaces s).
Proof.
  induction s as [|c s IH]; cbn.
  { repeat constructor. apply not_elem_of_nil. }
  destruct (N.eqb_spec c 32) as [->|Hc].
  { constructor; [apply not_elem_of_nil|done]. }
  destruct (splitSpaces s) as [|w ws].
  { repeat constructor. rewrite list_elem_of_singleton. congruence. }
  apply Forall_cons in IH as [Hw Hws]. constructor; [|done].
  rewrite not_elem_of_cons. split; [congruence|done].
Qed.

Lemma joinSpaces_cons_cons a b rest :
  joinSpaces (a :: b :: rest) = a ++ 32%N :: joinSpaces (b :: rest).
Proof. done. Qed.

Lemma joinSpaces_splitSpaces s : joinSpaces (splitSpaces s) = s.
Proof.
  induction s as [|c s IH]; [done|]. cbn [splitSpaces].
  destruct (splitSpaces_cons s) as (w & ws & Hs). rewrite Hs in *.
  destruct (N.eqb_spec c 32) as [->|Hc].
  - by rewrite joinSpaces_cons_cons, IH.
  - rewrite <- IH. by destruct ws.
Qed.

Lemma joinSpaces_merge ls a b rest :
  joinSpaces (ls ++ a :: b :: rest) = joinSpaces (ls ++ (a ++ 32%N :: b) :: rest).
Proof.
  induction ls as [|l ls IH].
  - cbn [app]. rewrite joinSpaces_cons_cons. destruct rest as [|c rest]; [done|].
    rewrite !joinSpaces_cons_cons. by rewrite <- app_assoc.
  - destruct ls as [|x xs]; cbn [app] in *.
    + by rewrite (joinSpaces_cons_cons l a), (joinSpaces_cons_cons l (a ++ 32%N :: b)), IH.
    + by rewrite !(joinSpaces_cons_cons l x), IH.
Qed.

Lemma joinSpaces_snoc_nil ls : ls ≠ [] → joinSpaces (ls ++ [[]]) = joinSpaces ls ++ [32%N].
Proof.
  induction ls as [|l ls IH]; [done|]. intros _. destruct ls as [|x xs]; [done|].
  cbn [app] in *. rewrite !(joinSpaces_cons_cons l x), <- app_assoc. cbn [app].
  do 2 f_equal. by apply IH.
Qed.

Lemma wrapWords_join maxChars lines cur words lines' cur' :
  wrapWords maxChars lines cur words = (lines', cur') →
  joinSpaces (lines' ++ [cur']) = joinSpaces (lines ++ cur :: words).
Proof.
  revert lines cur. induction words as [|w ws IH]; intros lines cur H; cbn in H.
  { by injection H as <- <-. }
  destruct (Z.of_nat (length cur + 1 + length w) <=? maxChars)%Z.
  - rewrite (IH _ _ H). by rewrite joinSpaces_merge.
  - rewrite (IH _ _ H). by rewrite <- app_assoc.
Qed.

(** X12. [wrapText] loses nothing but a last empty line: joined with
    spaces, its lines give back the text when the text is not empty and
    does not end with a space; in every case they give back the text once
    the empty line that [if (currentLine)] left out is put back. *)
Theorem X12_wrapText_round_trip text maxChars :
  (joinSpaces (wrapText text maxChars) = text
   ∨ joinSpaces (wrapText text maxChars ++ [[]]) = text)
  ∧ (text ≠ [] → last text ≠ Some 32%N → joinSpaces (wrapText text maxChars) = text).
Proof.
  unfold wrapText. destruct (splitSpaces_cons text) as (w0 & ws & Hs).
  pose proof (joinSpaces_splitSpaces text) as Hj. rewrite Hs in *.
  destruct (wrapWords maxChars [] w0 ws) as [lines cur] eqn:Hw.
  apply wrapWords_join in Hw. cbn [app] in Hw. rewrite Hj in Hw.
  destruct cur as [|c cur]; [|split; [by left|done]].
  split; [by right|]. intros Hne Hlast.
  destruct (decide (lines = [])) as [->|Hl]; [by destruct Hne|].
  rewrite joinSpaces_snoc_nil in Hw by done. destruct Hlast.
  by rewrite <- Hw, last_snoc.
Qed.

Lemma wrapWords_width maxChars lines cur words lines' cur' :
  let fits (l : jsstring) := (Z.of_nat (length l) ≤ maxChars)%Z ∨ 32%N ∉ l in
  wrapWords maxChars lines cur words = (lines', cur') →
  Forall fits lines → fits cur → Forall (fun w => 32%N ∉ w) words →
  Forall fits lines' ∧ fits cur'.
Proof.
  intros fits. revert lines cur. induction words as [|w ws IH];
    intros lines cur H Hl Hc Hw; cbn in H.
  { by injection H as <- <-. }
  apply Forall_cons in Hw as [Hw Hws].
  destruct (Z.leb_spec (Z.of_nat (length cur + 1 + length w)) maxChars) as [Hfit|Hfit].
  - apply (IH _ _ H); [done| |done]. left. rewrite length_app. cbn [length]. lia.
  - apply (IH _ _ H); [|by right|done]. apply Forall_app. split; [done|by constructor].
Qed.

(** X13. A line [wrapText] returns is longer than [maxCharsPerLine] only
    when it is one word with no space to break at. *)
Theorem X13_wrapText_width text maxChars l :
  l ∈ wrapText text maxChars →
  (Z.of_nat (length l) ≤ maxChars)%Z ∨ 32%N ∉ l.
Proof.
  unfold wrapText. destruct (splitSpaces_cons text) as (w0 & ws & Hs).
  pose proof (splitSpaces_no_space text) as Hno. rewrite Hs in *.
  apply Forall_cons in Hno as [Hw0 Hws].
  destruct (wrapWords maxChars [] w0 ws) as [lines cur] eqn:Hw.
  destruct (wrapWords_width maxChars [] w0 ws lines cur Hw) as [Hl Hc]; [done|by right|done|].
  rewrite Forall_forall in Hl.
  destruct cur as [|c cur]; [by apply Hl|].
  intros [?| ->%list_elem_of_singleton]%elem_of_app; [by apply Hl|done].
Qed.

Lemma firstWord_app_space a w : firstWord (a ++ 32%N :: w) = firstWord a.
Proof.
  induction a as [|c a IH]; [done|]. cbn. destruct (c =? 32)%N; [done|]. by rewrite IH.
Qed.

Lemma firstWord_no_space w : 32%N ∉ w → firstWord w = w.
Proof.
  induction w as [|c w IH]; [done|]. rewrite not_elem_of_cons. intros [Hc Hw]. cbn.
  destruct (N.eqb_spec c 32); [congruence|]. by rewrite IH.
Qed.

Lemma greedy_snoc maxChars ls a b :
  greedy maxChars (ls ++ [a]) →
  (maxChars < Z.of_nat (length a + 1 + length (firstWord b)))%Z →
  greedy maxChars ((ls ++ [a]) ++ [b]).
Proof.
  clear localeCompare.
  induction ls as [|l ls IH]; intros Hg Hab; [done|].
  destruct ls as [|x xs]; cbn [app greedy] in *; [tauto|].
  split; [tauto|]. apply IH; tauto.
Qed.

Lemma greedy_last maxChars ls a a' :
  greedy maxChars (ls ++ [a]) → firstWord a' = firstWord a →
  greedy maxChars (ls ++ [a']).
Proof.
  clear localeCompare.
  induction ls as [|l ls IH]; intros Hg Ha; [done|].
  destruct ls as [|x xs]; cbn [app greedy] in *; [rewrite Ha; tauto|].
  split; [tauto|]. apply IH; tauto.
Qed.

Lemma greedy_init maxChars ls a : greedy maxChars (ls ++ [a]) → greedy maxChars ls.
Proof.
  clear localeCompare.
  induction ls as [|l ls IH]; intros Hg; [done|].
  destruct ls as [|x xs]; cbn [app greedy] in *; [done|].
  split; [tauto|]. apply IH; tauto.
Qed.

Lemma wrapWords_greedy maxChars lines cur words lines' cur' :
  wrapWords maxChars lines cur words = (lines', cur') →
  greedy maxChars (lines ++ [cur]) → Forall (fun w => 32%N ∉ w) words →
  greedy maxChars (lines' ++ [cur']).
Proof.
  revert lines cur. induction words as [|w ws IH]; intros lines cur H Hg Hw; cbn in H.
  { by injection H as <- <-. }
  apply Forall_cons in Hw as [Hw Hws].
  destruct (Z.leb_spec (Z.of_nat (length cur + 1 + length w)) maxChars) as [Hfit|Hfit].
  - apply (IH _ _ H); [|done]. eapply greedy_last; [done|apply firstWord_app_space].
  - apply (IH _ _ H); [|done]. apply greedy_snoc; [done|].
    by rewrite firstWord_no_space.
Qed.

(** X14. [wrapText] breaks a line only when it must: where a line is
    followed by another, the line, a space and the first word of the next
    line together are longer than [maxCharsPerLine]. *)
Theorem X14_wrapText_greedy text maxChars :
  greedy maxChars (wrapText text maxChars)
  ∧ ∀ i a b, wrapText text maxChars !! i = Some a →
             wrapText text maxChars !! S i = Some b →
             (maxChars < Z.of_nat (length a + 1 + length (firstWord b)))%Z.
Proof.
  assert (greedy maxChars (wrapText text maxChars)) as Hg.
  { unfold wrapText. destruct (splitSpaces_cons text) as (w0 & ws & Hs).
    pose proof (splitSpaces_no_space text) as Hno. rewrite Hs in *.
    apply Forall_cons in Hno as [Hw0 Hws].
    destruct (wrapWords maxChars [] w0 ws) as [lines cur] eqn:Hw.
    pose proof (wrapWords_greedy maxChars [] w0 ws lines cur Hw I Hws) as Hg.
    destruct cur; [by eapply greedy_init|done]. }
  split; [done|]. revert Hg. generalize (wrapText text maxChars). intros ls.
  induction ls as [|l ls IH]; intros Hg i a b Ha Hb; [done|].
  destruct ls as [|x xs]; [done|]. cbn [greedy] in Hg. destruct Hg as [Hlx Hg].
  destruct i as [|i]; [cbn in Ha, Hb; congruence|]. by apply (IH Hg i).
Qed.

(** * The caller's direction switch *)

(** X15. [handleLayoutChange] keeps the displayed graph the layout of the
    generated graph in the selected direction: from a state that shows
    [computeLayout] of a graph [raw] in its direction, any switches later
    the state shows [computeLayout] of [raw] in the direction selected
    last; a state with no graph keeps none. *)
Theorem X15_handleLayoutChange_invariant raw :
  (∀ d st, app_data st = Some (computeLayout (app_layoutDirection st) raw) →
           let st' := handleLayoutChange d st in
           app_layoutDirection st' = d
           ∧ app_data st' = Some (computeLayout (app_layoutDirection st') raw))
  ∧ (∀ ds st, app_data st = Some (computeLayout (app_layoutDirection st) raw) →
              let st' := foldl (fun s d => handleLayoutChange d s) st ds in
              app_data st' = Some (computeLayout (app_layoutDirection st') raw))
  ∧ (∀ d st, app_data st = None → app_data (handleLayoutChange d st) = None).
Proof.
  assert (∀ d st, app_data st = Some (computeLayout (app_layoutDirection st) raw) →
           app_data (handleLayoutChange d st)
           = Some (computeLayout (app_layoutDirection (handleLayoutChange d st)) raw))
    as Hstep.
  { intros d st H. unfold handleLayoutChange. rewrite H. cbn.
    by rewrite computeLayout_again. }
  split; [intros d st H; split; [done|by apply Hstep]|]. split.
  - intros ds. induction ds as [|d ds IH]; intros st H; [done|].
    cbn [foldl]. apply IH. by apply Hstep.
  - intros d st H. unfold handleLayoutChange. by rewrite H.
Qed.

(** * Shape of the layouts *)

(** The node at index [i] of the sorted sequence after a zig-zag layout. *)
Lemma snake_member data i r :
  sortedSequence data !! i = Some r →
  ∃ n, nodes (computeLayout ZIG_ZAG data) !! r = Some n
       ∧ node_x n = Some (Z.of_nat (snakeCol i) * 280 + 160)%Z
       ∧ node_y n = Some (Z.of_nat (snakeRow i) * 240 + 120)%Z.
Proof.
  intros Hi. destruct (nodes data) as [|n0 ns'] eqn:Hns.
  { unfold sortedSequence in Hi. by rewrite Hns in Hi. }
  unfold sortedSequence in Hi. rewrite Hns, <- Hns in Hi.
  rewrite (computeLayout_cons _ data n0 ns' Hns). cbn [nodes applyLayout].
  set (L := leveled n0 (nodes data) (sanitizeEdges (nodes data) (edges data))) in *.
  rewrite (snakeLayout_lookup _ _ i r (sortedNodes_NoDup _) Hi).
  assert (r < length L) as [nL HnL]%lookup_lt_is_Some.
  { apply elem_of_sortedNodes. by eapply list_elem_of_lookup_2. }
  rewrite HnL. eexists. split; [done|].
  cbn [setXY node_x node_y]. geometry. split; f_equal; lia.
Qed.

(** X16. The zig-zag layout is one continuous path: a node and the next
    one of the sorted sequence sit in neighbouring cells, side by side in
    one row (280 apart) or, where the path turns, one above the other in
    one column (240 apart). *)
Theorem X16_zigzag_neighbours data i r r' n n' :
  sortedSequence data !! i = Some r → sortedSequence data !! S i = Some r' →
  nodes (computeLayout ZIG_ZAG data) !! r = Some n →
  nodes (computeLayout ZIG_ZAG data) !! r' = Some n' →
  ∃ x y x' y', node_x n = Some x ∧ node_y n = Some y
               ∧ node_x n' = Some x' ∧ node_y n' = Some y'
               ∧ ((y' = y ∧ Z.abs (x' - x) = 280%Z) ∨ (x' = x ∧ y' = (y + 240)%Z)).
Proof.
  intros Hi Hi' Hn Hn'.
  destruct (snake_member data i r Hi) as (m & Hm & Hx & Hy).
  destruct (snake_member data (S i) r' Hi') as (m' & Hm' & Hx' & Hy').
  assert (m = n) as -> by congruence. assert (m' = n') as -> by congruence.
  eexists _, _, _, _. do 4 (split; [done|]).
  unfold snakeCol, snakeRow, SNAKE_COLUMNS.
  pose proof (Nat.div_mod_eq i 4). pose proof (Nat.div_mod_eq (S i) 4).
  pose proof (Nat.mod_upper_bound i 4). pose proof (Nat.mod_upper_bound (S i) 4).
  pose proof (Nat.div_mod_eq (i / 4) 2). pose proof (Nat.div_mod_eq (S i / 4) 2).
  pose proof (Nat.mod_upper_bound (i / 4) 2). pose proof (Nat.mod_upper_bound (S i / 4) 2).
  repeat case_decide; lia.
Qed.

Lemma level_below d data n l :
  n ∈ nodes (computeLayout d data) → node_level n = Some l → (0 < l)%Z →
  ∃ n', n' ∈ nodes (computeLayout d data) ∧ node_level n' = Some (l - 1)%Z.
Proof.
  intros [k Hk]%list_elem_of_lookup_1 Hl Hpos.
  pose proof (computeLayout_nonempty _ _ _ _ Hk) as Hne.
  destruct (nodes data) as [|n0 ns'] eqn:Hns; [done|]. rewrite <- Hns in *.
  destruct (computeLayout_traversal d data n0 ns' Hns) as (E & Hinv & Hq & Hout).
  set (es := sanitizeEdges (nodes data) (edges data)) in *.
  destruct (Hout k n Hk) as (n1 & Hn1 & Hid & Hl1). rewrite <- Hl1 in Hl.
  destruct (E !! (node_id n1)) as [l1|] eqn:HE.
  2:{ rewrite (final_level_fresh _ _ _ _ _ _ _ _ Hinv Hn1 HE) in Hl. injection Hl as <-. lia. }
  destruct (decide (buildNodeMap (nodes data) !! (node_id n1) = Some k)) as [Hrep|Hrep].
  2:{ rewrite (inv_nonrep _ _ _ _ _ _ Hinv _ _ Hn1 Hrep) in Hl. injection Hl as <-. lia. }
  rewrite (final_level _ _ _ _ _ _ _ _ _ Hinv Hq Hn1 Hrep HE) in Hl. injection Hl as ->.
  assert (node_id n1 ∈ visited (bfs n0 (nodes data) es)) as Hv
    by (apply (inv_visited _ _ _ _ _ _ Hinv); by eexists).
  destruct (closed_discovered _ _ _ (bfs_closed n0 (nodes data) es) _ Hv) as [Hroot|[u Hu]].
  { rewrite Hroot, (inv_root _ _ _ _ _ _ Hinv) in HE. injection HE as <-. lia. }
  destruct (inv_disc _ _ _ _ _ _ Hinv _ _ Hu) as (_ & lu & HEu & HEv).
  assert (lu = l - 1)%Z as -> by (rewrite HE in HEv; injection HEv; lia).
  destruct (inv_known _ _ _ _ _ _ Hinv u) as [ku Hku]; [by eexists|].
  pose proof (buildNodeMap_lookup _ _ _ Hku) as Hidu.
  rewrite <- (inv_ids _ _ _ _ _ _ Hinv), list_lookup_fmap in Hidu.
  destruct (store (bfs n0 (nodes data) es) !! ku) as [nu|] eqn:Hnu; [|done].
  injection Hidu as Hidu.
  destruct (fmap_eq_lookup (fun n => (node_id n, node_level n))
              (store (bfs n0 (nodes data) es)) (nodes (computeLayout d data)) ku nu)
    as (n' & Hn' & [= _ Hl']).
  { rewrite (computeLayout_cons d data n0 ns' Hns). cbn [nodes].
    symmetry. by apply applyLayout_frame. }
  { done. }
  exists n'. split; [by eapply list_elem_of_lookup_2|]. rewrite Hl'.
  eapply final_level; [done..| |]; by rewrite Hidu.
Qed.

(** X17. Levels leave no gap: when a node has a level above 0, some node has
    the level just below, so the rows of the top-bottom layout follow one
    another from the first without an empty row between. *)
Theorem X17_levels_contiguous d data n l :
  n ∈ nodes (computeLayout d data) → node_level n = Some l → (0 < l)%Z →
  ∃ n', n' ∈ nodes (computeLayout d data) ∧ node_level n' = Some (l - 1)%Z.
Proof. apply level_below. Qed.

Lemma level_chain d data k :
  (∃ n, n ∈ nodes (computeLayout d data) ∧ node_level n = Some (Z.of_nat k)) →
  ∃ ks, length ks = S k ∧ NoDup ks
        ∧ ∀ r, r ∈ ks →
            ∃ m lv, nodes (computeLayout d data) !! r = Some m
                    ∧ node_level m = Some lv ∧ (lv ≤ Z.of_nat k)%Z.
Proof.
  induction k as [|k IH]; intros (n & Hn & Hl).
  - apply list_elem_of_lookup_1 in Hn as [r Hr]. exists [r].
    split; [done|]. split; [apply NoDup_singleton|].
    intros r' ->%list_elem_of_singleton. by exists n, 0%Z.
  - destruct (level_below d data n _ Hn Hl) as (n' & Hn' & Hl'); [lia|].
    replace (Z.of_nat (S k) - 1)%Z with (Z.of_nat k) in Hl' by lia.
    destruct IH as (ks & Hlen & Hnd & Hks); [by exists n'|].
    apply list_elem_of_lookup_1 in Hn as [r Hr]. exists (r :: ks).
    split; [cbn; by rewrite Hlen|]. split.
    + apply NoDup_cons. split; [|done]. intros (m & lv & Hm & Hlv & Hle)%Hks.
      assert (m = n) as -> by congruence. rewrite Hl in Hlv. injection Hlv as <-. lia.
    + intros r' [->|Hr']%elem_of_cons; [by exists n, (Z.of_nat (S k))|].
      destruct (Hks r' Hr') as (m & lv & Hm & Hlv & Hle). exists m, lv.
      split; [done|]. split; [done|lia].
Qed.

Lemma level_lt_count d data n l :
  n ∈ nodes (computeLayout d data) → nodes data ≠ [] → node_level n = Some l →
  (0 ≤ l < Z.of_nat (length (nodes data)))%Z.
Proof.
  intros Hn Hne Hl.
  destruct (computeLayout_level_nonneg d data n Hne Hn) as (l' & Hl' & Hl0).
  assert (l' = l) as -> by congruence. split; [done|].
  destruct (level_chain d data (Z.to_nat l)) as (ks & Hlen & Hnd & Hks).
  { exists n. split; [done|]. rewrite Hl. f_equal. lia. }
  assert (ks ⊆+ seq 0 (length (nodes data))) as Hsub%submseteq_length.
  { apply NoDup_submseteq; [done|]. intros r (m & _ & Hm%lookup_lt_Some & _)%Hks.
    rewrite computeLayout_length in Hm. apply elem_of_seq. lia. }
  rewrite length_seq in Hsub. lia.
Qed.

(** X18. A level is less than the number of nodes, so the top-bottom layout
    of [count] nodes has at most [count] rows: every [y] is at most
    [(count - 1) * 240 + 120]. *)
Theorem X18_levels_bounded data n :
  nodes data ≠ [] →
  (∀ d l, n ∈ nodes (computeLayout d data) → node_level n = Some l →
          (0 ≤ l < Z.of_nat (length (nodes data)))%Z)
  ∧ (n ∈ nodes (computeLayout TOP_BOTTOM data) →
     ∃ y, node_y n = Some y
          ∧ (120 ≤ y ≤ (Z.of_nat (length (nodes data)) - 1) * 240 + 120)%Z).
Proof.
  intros Hne. split; [intros d l Hn Hl; by eapply level_lt_count|].
  intros Hn. pose proof Hn as [r Hr]%list_elem_of_lookup_1.
  destruct (topBottom_node data r n Hr Hne) as (lvl & _ & _ & _ & _ & Hl & _ & Hy).
  pose proof (level_lt_count TOP_BOTTOM data n lvl Hn Hne Hl).
  eexists. split; [done|]. lia.
Qed.

End Layout.

(** * Instances, with code-unit order for [localeCompare] *)

(** Code-unit order is a total preorder. *)
Lemma codeUnitCompare_trans a b c :
  (codeUnitCompare a b ≤ 0)%Z → (codeUnitCompare b c ≤ 0)%Z →
  (codeUnitCompare a c ≤ 0)%Z.
Proof.
  revert b c. induction a as [|x a IH]; intros [|y b] [|z c]; cbn; try lia.
  repeat case_match; try lia;
    repeat match goal with
           | H : (_ <? _)%N = true |- _ => apply N.ltb_lt in H
           | H : (_ <? _)%N = false |- _ => apply N.ltb_ge in H
           end; try lia.
  apply IH.
Qed.

Lemma codeUnitCompare_total a b :
  (0 < codeUnitCompare a b)%Z → (codeUnitCompare b a ≤ 0)%Z.
Proof.
  revert b. induction a as [|x a IH]; intros [|y b]; cbn; try lia.
  repeat case_match; try lia;
    repeat match goal with
           | H : (_ <? _)%N = true |- _ => apply N.ltb_lt in H
           | H : (_ <? _)%N = false |- _ => apply N.ltb_ge in H
           end; try lia.
  apply IH.
Qed.

Lemma X1_every_node_placed_witness :
  nodes scenarioA ≠ []
  ∧ ∃ n, nodes (computeLayout codeUnitCompare ZIG_ZAG scenarioA) !! 5 = Some n
         ∧ ∃ l x y, node_level n = Some l ∧ (0 ≤ l)%Z
                    ∧ node_x n = Some x ∧ node_y n = Some y
                    ∧ (160 ≤ x)%Z ∧ (120 ≤ y)%Z.
Proof.
  assert (nodes scenarioA ≠ []) as Hne by discriminate.
  split; [exact Hne|].
  destruct (nodes (computeLayout codeUnitCompare ZIG_ZAG scenarioA) !! 5)
    as [n|] eqn:Hn; [|by vm_compute in Hn].
  exists n. split; [reflexivity|].
  exact (X1_every_node_placed codeUnitCompare ZIG_ZAG scenarioA n Hne
           (list_elem_of_lookup_2 _ _ _ Hn)).
Defined.

Lemma X2_centres_apart_witness :
  0 ≠ 1
  ∧ ∃ n n', nodes (computeLayout codeUnitCompare TOP_BOTTOM scenarioA) !! 0 = Some n
            ∧ nodes (computeLayout codeUnitCompare TOP_BOTTOM scenarioA) !! 1 = Some n'
            ∧ ∃ x y x' y', node_x n = Some x ∧ node_y n = Some y
                           ∧ node_x n' = Some x' ∧ node_y n' = Some y'
                           ∧ (280 ≤ Z.abs (x - x') ∨ 240 ≤ Z.abs (y - y'))%Z.
Proof.
  assert (0 ≠ 1) as H01 by discriminate.
  split; [exact H01|].
  destruct (nodes (computeLayout codeUnitCompare TOP_BOTTOM scenarioA) !! 0)
    as [n|] eqn:Hn; [|by vm_compute in Hn].
  destruct (nodes (computeLayout codeUnitCompare TOP_BOTTOM scenarioA) !! 1)
    as [n'|] eqn:Hn'; [|by vm_compute in Hn'].
  exists n, n'. split; [reflexivity|]. split; [reflexivity|].
  exact (X2_centres_apart codeUnitCompare TOP_BOTTOM scenarioA 0 1 n n' H01 Hn Hn').
Defined.

Lemma X3_zigzag_extent_witness :
  ∃ n, nodes (computeLayout codeUnitCompare ZIG_ZAG chain9) !! 8 = Some n
       ∧ ∃ x y, node_x n = Some x ∧ node_y n = Some y
                ∧ (x = 160 ∨ x = 440 ∨ x = 720 ∨ x = 1000)%Z
                ∧ (120 ≤ y ≤ Z.of_nat ((length (nodes chain9) - 1) / 4) * 240 + 120)%Z.
Proof.
  destruct (nodes (computeLayout codeUnitCompare ZIG_ZAG chain9) !! 8)
    as [n|] eqn:Hn; [|by vm_compute in Hn].
  exists n. split; [reflexivity|].
  exact (X3_zigzag_extent codeUnitCompare chain9 n (list_elem_of_lookup_2 _ _ _ Hn)).
Defined.

Lemma X4_rows_centred_witness :
  (3%Z, [3; 4]) ∈ levelGroups codeUnitCompare scenarioA
  ∧ 0 + 1 + 1 = length [3; 4]
  ∧ ∃ n n', nodes (computeLayout codeUnitCompare TOP_BOTTOM scenarioA) !! 3 = Some n
            ∧ nodes (computeLayout codeUnitCompare TOP_BOTTOM scenarioA) !! 4 = Some n'
            ∧ ∃ x x', node_x n = Some x ∧ node_x n' = Some x'
                      ∧ (x + x' = maxRowWidth (levelGroups codeUnitCompare scenarioA) + 100)%Z.
Proof.
  assert ((3%Z, [3; 4]) ∈ levelGroups codeUnitCompare scenarioA) as Hg
    by (apply (bool_decide_unpack _); vm_compute; exact I).
  split; [exact Hg|]. split; [reflexivity|].
  destruct (nodes (computeLayout codeUnitCompare TOP_BOTTOM scenarioA) !! 3)
    as [n|] eqn:Hn; [|by vm_compute in Hn].
  destruct (nodes (computeLayout codeUnitCompare TOP_BOTTOM scenarioA) !! 4)
    as [n'|] eqn:Hn'; [|by vm_compute in Hn'].
  exists n, n'. split; [reflexivity|]. split; [reflexivity|].
  exact (X4_rows_centred codeUnitCompare scenarioA 3%Z [3; 4] 0 1 3 4 n n'
           Hg eq_refl eq_refl eq_refl Hn Hn').
Defined.

Lemma X6_reads_identity_and_kept_edges_witness :
  nodes scenarioA ≠ []
  ∧ identity <$> nodes scenarioA
    = identity <$> nodes (mkData (nodes scenarioA)
                                 (edges scenarioA ++ [plainEdge "S" "S"; plainEdge "E" "Z"]))
  ∧ edges (sanitize scenarioA)
    = edges (sanitize (mkData (nodes scenarioA)
                              (edges scenarioA ++ [plainEdge "S" "S"; plainEdge "E" "Z"])))
  ∧ computeLayout codeUnitCompare ZIG_ZAG scenarioA
    = computeLayout codeUnitCompare ZIG_ZAG
        (mkData (nodes scenarioA)
                (edges scenarioA ++ [plainEdge "S" "S"; plainEdge "E" "Z"])).
Proof.
  assert (nodes scenarioA ≠ []) as Hne by discriminate.
  assert (edges (sanitize scenarioA)
          = edges (sanitize (mkData (nodes scenarioA)
                     (edges scenarioA ++ [plainEdge "S" "S"; plainEdge "E" "Z"]))))
    as He by (vm_compute; reflexivity).
  split; [exact Hne|]. split; [reflexivity|]. split; [exact He|].
  exact (X6_reads_identity_and_kept_edges codeUnitCompare ZIG_ZAG scenarioA _
           Hne eq_refl He).
Defined.

Lemma X7_sorted_sequence_witness :
  4 < 5
  ∧ sortedSequence codeUnitCompare scenarioA !! 4 = Some 3
  ∧ sortedSequence codeUnitCompare scenarioA !! 5 = Some 4
  ∧ ∃ ni nj, nodes (computeLayout codeUnitCompare TOP_BOTTOM scenarioA) !! 3 = Some ni
             ∧ nodes (computeLayout codeUnitCompare TOP_BOTTOM scenarioA) !! 4 = Some nj
             ∧ node_level ni = node_level nj
             ∧ (codeUnitCompare (node_id ni) (node_id nj) ≤ 0)%Z.
Proof.
  assert (4 < 5) as H45 by lia.
  assert (sortedSequence codeUnitCompare scenarioA !! 4 = Some 3) as H3
    by (vm_compute; reflexivity).
  assert (sortedSequence codeUnitCompare scenarioA !! 5 = Some 4) as H4
    by (vm_compute; reflexivity).
  split; [exact H45|]. split; [exact H3|]. split; [exact H4|].
  destruct (nodes (computeLayout codeUnitCompare TOP_BOTTOM scenarioA) !! 3)
    as [ni|] eqn:Hi; [|by vm_compute in Hi].
  destruct (nodes (computeLayout codeUnitCompare TOP_BOTTOM scenarioA) !! 4)
    as [nj|] eqn:Hj; [|by vm_compute in Hj].
  assert (node_level ni = node_level nj) as Heq.
  { vm_compute in Hi, Hj. injection Hi as <-. injection Hj as <-. reflexivity. }
  exists ni, nj. split; [reflexivity|]. split; [reflexivity|]. split; [exact Heq|].
  destruct (proj2 (X7_sorted_sequence codeUnitCompare TOP_BOTTOM scenarioA)
              4 5 3 4 ni nj H45 H3 H4 Hi Hj) as (li & lj & Hli & Hlj & _ & Hord).
  apply (Hord codeUnitCompare_trans codeUnitCompare_total). congruence.
Defined.

Lemma X8_vertical_route_is_same_column_witness :
  ∃ n n', nodes (computeLayout codeUnitCompare ZIG_ZAG chain9) !! 0 = Some n
          ∧ nodes (computeLayout codeUnitCompare ZIG_ZAG chain9) !! 7 = Some n'
          ∧ node_x n = Some 160%Z ∧ node_x n' = Some 160%Z
          ∧ (isVerticalRoute 160 160 = true ↔ 160%Z = 160%Z).
Proof.
  destruct (nodes (computeLayout codeUnitCompare ZIG_ZAG chain9) !! 0)
    as [n|] eqn:Hn; [|by vm_compute in Hn].
  destruct (nodes (computeLayout codeUnitCompare ZIG_ZAG chain9) !! 7)
    as [n'|] eqn:Hn'; [|by vm_compute in Hn'].
  assert (node_x n = Some 160%Z) as Hx.
  { pose proof Hn as H. vm_compute in H. injection H as <-. reflexivity. }
  assert (node_x n' = Some 160%Z) as Hx'.
  { pose proof Hn' as H. vm_compute in H. injection H as <-. reflexivity. }
  exists n, n'. split; [reflexivity|]. split; [reflexivity|].
  split; [exact Hx|]. split; [exact Hx'|].
  exact (X8_vertical_route_is_same_column codeUnitCompare ZIG_ZAG chain9 n n' 160 160
           (list_elem_of_lookup_2 _ _ _ Hn) (list_elem_of_lookup_2 _ _ _ Hn') Hx Hx').
Defined.

Lemma X9_renderer_draws_every_kept_edge_witness :
  nodes scenarioA ≠ []
  ∧ drawnEdges (computeLayout codeUnitCompare TOP_BOTTOM scenarioA)
    = edges (computeLayout codeUnitCompare TOP_BOTTOM scenarioA).
Proof.
  assert (nodes scenarioA ≠ []) as Hne by discriminate.
  split; [exact Hne|].
  exact (proj1 (proj2 (X9_renderer_draws_every_kept_edge codeUnitCompare TOP_BOTTOM)
                  scenarioA Hne)).
Defined.

Lemma C1_sanitization_witness :
  nodes scenarioA ≠ []
  ∧ edges (computeLayout codeUnitCompare TOP_BOTTOM scenarioA)
    = filter (passesFilters (nodes scenarioA)) (edges scenarioA).
Proof.
  split; [done|].
  apply (C1_sanitization_characterization codeUnitCompare TOP_BOTTOM scenarioA). done.
Defined.

Lemma C2_bfs_leveling_witness :
  NoDup (node_id <$> nodes scenarioA)
  ∧ (str "B", str "C") ∈ discoveries scenarioA
  ∧ ∃ nu nv l,
      nodes (computeLayout codeUnitCompare TOP_BOTTOM scenarioA) !! 2 = Some nu
      ∧ nodes (computeLayout codeUnitCompare TOP_BOTTOM scenarioA) !! 3 = Some nv
      ∧ node_id nu = str "B" ∧ node_id nv = str "C"
      ∧ node_level nu = Some l ∧ node_level nv = Some (l + 1)%Z.
Proof.
  assert (NoDup (node_id <$> nodes scenarioA)) as Hnd
    by (apply (bool_decide_unpack _); vm_compute; exact I).
  assert ((str "B", str "C") ∈ discoveries scenarioA) as Hd
    by (apply (bool_decide_unpack _); vm_compute; exact I).
  split; [exact Hnd|]. split; [exact Hd|].
  destruct (nodes (computeLayout codeUnitCompare TOP_BOTTOM scenarioA) !! 2)
    as [nu|] eqn:Hu; [|by vm_compute in Hu].
  destruct (nodes (computeLayout codeUnitCompare TOP_BOTTOM scenarioA) !! 3)
    as [nv|] eqn:Hv; [|by vm_compute in Hv].
  assert (node_id nu = str "B") as Hidu
    by (vm_compute in Hu; injection Hu as <-; reflexivity).
  assert (node_id nv = str "C") as Hidv
    by (vm_compute in Hv; injection Hv as <-; reflexivity).
  destruct (C2_bfs_leveling codeUnitCompare TOP_BOTTOM scenarioA) as (_ & H & _).
  destruct (H Hnd (str "B") (str "C") nu nv Hd
              (list_elem_of_lookup_2 _ _ _ Hu) (list_elem_of_lookup_2 _ _ _ Hv)
              Hidu Hidv) as [l Hl].
  exists nu, nv, l. split; [reflexivity|]. split; [reflexivity|].
  split; [exact Hidu|]. split; [exact Hidv|]. exact Hl.
Defined.

Lemma C4_snake_geometry_witness :
  sortedSequence codeUnitCompare chain9 !! 4 = Some 4
  ∧ (∃ n, nodes (computeLayout codeUnitCompare ZIG_ZAG chain9) !! 4 = Some n
          ∧ node_x n = Some (Z.of_nat 3 * (220 + 60) + 50 + 110)%Z
          ∧ node_y n = Some (Z.of_nat 1 * (140 + 100) + 50 + 70)%Z)
  ∧ 4 < 5
  ∧ sortedSequence codeUnitCompare scenarioA !! 4 = Some 3
  ∧ sortedSequence codeUnitCompare scenarioA !! 5 = Some 4
  ∧ ∃ ni nj, nodes (computeLayout codeUnitCompare ZIG_ZAG scenarioA) !! 3 = Some ni
             ∧ nodes (computeLayout codeUnitCompare ZIG_ZAG scenarioA) !! 4 = Some nj
             ∧ node_level ni = node_level nj
             ∧ (codeUnitCompare (node_id ni) (node_id nj) ≤ 0)%Z.
Proof.
  split; [by vm_compute|].
  split.
  { apply (proj1 (proj2 (proj2 (C4_snake_geometry codeUnitCompare))) chain9 4 4).
    by vm_compute. }
  assert (4 < 5) as H45 by lia.
  assert (sortedSequence codeUnitCompare scenarioA !! 4 = Some 3) as H3
    by (vm_compute; reflexivity).
  assert (sortedSequence codeUnitCompare scenarioA !! 5 = Some 4) as H4
    by (vm_compute; reflexivity).
  split; [exact H45|]. split; [exact H3|]. split; [exact H4|].
  destruct (nodes (computeLayout codeUnitCompare ZIG_ZAG scenarioA) !! 3)
    as [ni|] eqn:Hi; [|by vm_compute in Hi].
  destruct (nodes (computeLayout codeUnitCompare ZIG_ZAG scenarioA) !! 4)
    as [nj|] eqn:Hj; [|by vm_compute in Hj].
  assert (node_level ni = node_level nj) as Heq.
  { vm_compute in Hi, Hj. injection Hi as <-. injection Hj as <-. reflexivity. }
  exists ni, nj. split; [reflexivity|]. split; [reflexivity|]. split; [exact Heq|].
  destruct (proj1 (proj2 (C4_snake_geometry codeUnitCompare))
              scenarioA 4 5 3 4 ni nj H45 H3 H4 Hi Hj)
    as (li & lj & Hli & Hlj & _ & Hord).
  apply (Hord codeUnitCompare_trans codeUnitCompare_total). congruence.
Defined.

Lemma C5_top_bottom_geometry_witness :
  (3%Z, [3; 4]) ∈ levelGroups codeUnitCompare scenarioA
  ∧ [3; 4] !! 1 = Some 4
  ∧ ∃ n, nodes (computeLayout codeUnitCompare TOP_BOTTOM scenarioA) !! 4 = Some n
         ∧ node_level n = Some 3%Z
         ∧ node_x n = Some ((560 - (2 * (220 + 60) - 60)) / 2 + 50 + 1 * (220 + 60) + 110)%Z
         ∧ node_y n = Some (3 * (140 + 100) + 50 + 70)%Z.
Proof.
  assert ((3%Z, [3; 4]) ∈ levelGroups codeUnitCompare scenarioA) as Hg
    by (apply (bool_decide_unpack _); vm_compute; exact I).
  split; [exact Hg|]. split; [done|].
  destruct (C5_top_bottom_geometry codeUnitCompare scenarioA) as (_ & _ & H & _).
  destruct (H 3%Z [3; 4] 1 4 Hg eq_refl) as (_ & n & Hn & Hl & Hx & Hy).
  exists n. split; [exact Hn|]. split; [exact Hl|]. split; [|exact Hy].
  rewrite Hx. by vm_compute.
Defined.

Lemma C8_frame_witness :
  nodes scenarioA !! 2 = Some (plainNode "B" DIAMOND)
  ∧ ∃ n', nodes (computeLayout codeUnitCompare ZIG_ZAG scenarioA) !! 2 = Some n'
          ∧ node_id n' = str "B" ∧ node_label n' = str "B" ∧ node_shape n' = DIAMOND.
Proof.
  split; [done|].
  apply (proj2 (proj2 (C8_frame codeUnitCompare ZIG_ZAG scenarioA)) 2 (plainNode "B" DIAMOND)).
  done.
Defined.

Lemma C9_empty_graph_witness :
  nodes noNodes = []
  ∧ computeLayout codeUnitCompare ZIG_ZAG noNodes = noNodes
  ∧ edges (computeLayout codeUnitCompare ZIG_ZAG noNodes) = edges noNodes.
Proof.
  split; [done|]. apply (C9_empty_graph_guard codeUnitCompare ZIG_ZAG noNodes). done.
Defined.

Lemma X10_levels_are_distances_witness :
  NoDup (node_id <$> nodes scenarioA)
  ∧ rootOf scenarioA = Some (str "S")
  ∧ ∃ n, nodes (computeLayout codeUnitCompare ZIG_ZAG scenarioA) !! 2 = Some n
         ∧ reachable (edges (computeLayout codeUnitCompare ZIG_ZAG scenarioA))
                     (str "S") (node_id n)
         ∧ ∃ k, node_level n = Some (Z.of_nat k)
                ∧ pathLen (edges (computeLayout codeUnitCompare ZIG_ZAG scenarioA))
                          (str "S") k (node_id n)
                ∧ ∀ k', pathLen (edges (computeLayout codeUnitCompare ZIG_ZAG scenarioA))
                                (str "S") k' (node_id n) → k ≤ k'.
Proof.
  assert (NoDup (node_id <$> nodes scenarioA)) as Hnd
    by (apply (bool_decide_unpack _); vm_compute; exact I).
  assert (rootOf scenarioA = Some (str "S")) as Hr by (vm_compute; reflexivity).
  split; [exact Hnd|]. split; [exact Hr|].
  destruct (nodes (computeLayout codeUnitCompare ZIG_ZAG scenarioA) !! 2)
    as [n|] eqn:Hn; [|by vm_compute in Hn].
  assert (node_id n = str "B") as Hid.
  { pose proof Hn as H. vm_compute in H. injection H as <-. reflexivity. }
  assert (reachable (edges (computeLayout codeUnitCompare ZIG_ZAG scenarioA))
                    (str "S") (node_id n)) as Hreach.
  { rewrite Hid.
    apply (reachable_edge _ _ (plainEdge "A" "B")); [| |reflexivity].
    - apply (reachable_edge _ _ (plainEdge "S" "A")); [| |reflexivity].
      + apply reachable_root.
      + apply (bool_decide_unpack _); vm_compute; exact I.
    - apply (bool_decide_unpack _); vm_compute; exact I. }
  exists n. split; [reflexivity|]. split; [exact Hreach|].
  exact (X10_levels_are_distances codeUnitCompare ZIG_ZAG scenarioA (str "S") n
           Hnd Hr (list_elem_of_lookup_2 _ _ _ Hn) Hreach).
Defined.

Lemma X11_edges_descend_one_row_witness :
  NoDup (node_id <$> nodes scenarioA)
  ∧ rootOf scenarioA = Some (str "S")
  ∧ plainEdge "A" "B" ∈ edges (computeLayout codeUnitCompare TOP_BOTTOM scenarioA)
  ∧ reachable (edges (computeLayout codeUnitCompare TOP_BOTTOM scenarioA))
              (str "S") (str "A")
  ∧ (str "A", str "B") ∈ discoveries scenarioA
  ∧ ∃ nu nv, nodes (computeLayout codeUnitCompare TOP_BOTTOM scenarioA) !! 1 = Some nu
             ∧ nodes (computeLayout codeUnitCompare TOP_BOTTOM scenarioA) !! 2 = Some nv
             ∧ node_id nu = str "A" ∧ node_id nv = str "B"
             ∧ ∃ lu yu, node_level nu = Some lu ∧ node_level nv = Some (lu + 1)%Z
                        ∧ node_y nu = Some yu ∧ node_y nv = Some (yu + 240)%Z.
Proof.
  assert (NoDup (node_id <$> nodes scenarioA)) as Hnd
    by (apply (bool_decide_unpack _); vm_compute; exact I).
  assert (rootOf scenarioA = Some (str "S")) as Hr by (vm_compute; reflexivity).
  assert (plainEdge "A" "B" ∈ edges (computeLayout codeUnitCompare TOP_BOTTOM scenarioA))
    as He by (apply (bool_decide_unpack _); vm_compute; exact I).
  assert (reachable (edges (computeLayout codeUnitCompare TOP_BOTTOM scenarioA))
                    (str "S") (str "A")) as Hreach.
  { apply (reachable_edge _ _ (plainEdge "S" "A")); [| |reflexivity].
    - apply reachable_root.
    - apply (bool_decide_unpack _); vm_compute; exact I. }
  assert ((str "A", str "B") ∈ discoveries scenarioA) as Hd
    by (apply (bool_decide_unpack _); vm_compute; exact I).
  split; [exact Hnd|]. split; [exact Hr|]. split; [exact He|].
  split; [exact Hreach|]. split; [exact Hd|].
  destruct (nodes (computeLayout codeUnitCompare TOP_BOTTOM scenarioA) !! 1)
    as [nu|] eqn:Hu; [|by vm_compute in Hu].
  destruct (nodes (computeLayout codeUnitCompare TOP_BOTTOM scenarioA) !! 2)
    as [nv|] eqn:Hv; [|by vm_compute in Hv].
  assert (node_id nu = str "A") as Hidu.
  { pose proof Hu as H. vm_compute in H. injection H as <-. reflexivity. }
  assert (node_id nv = str "B") as Hidv.
  { pose proof Hv as H. vm_compute in H. injection H as <-. reflexivity. }
  destruct (X11_edges_descend_one_row codeUnitCompare scenarioA (str "S")
              (plainEdge "A" "B") nu nv Hnd Hr He Hreach
              (list_elem_of_lookup_2 _ _ _ Hu) (list_elem_of_lookup_2 _ _ _ Hv)
              Hidu Hidv)
    as (lu & lv & yu & yv & Hlu & Hlv & Hyu & Hyv & _ & _ & Hdisc).
  destruct (Hdisc Hd) as [-> ->].
  exists nu, nv. split; [reflexivity|]. split; [reflexivity|].
  split; [exact Hidu|]. split; [exact Hidv|].
  exists lu, yu. split; [exact Hlu|]. split; [exact Hlv|]. split; [exact Hyu|].
  exact Hyv.
Defined.

Lemma X12_wrapText_round_trip_witness :
  str "Check the input" ≠ []
  ∧ last (str "Check the input") ≠ Some 32%N
  ∧ joinSpaces (wrapText (str "Check the input") 9) = str "Check the input".
Proof.
  assert (str "Check the input" ≠ []) as Hne by discriminate.
  assert (last (str "Check the input") ≠ Some 32%N) as Hl by discriminate.
  split; [exact Hne|]. split; [exact Hl|].
  exact (proj2 (X12_wrapText_round_trip (str "Check the input") 9) Hne Hl).
Defined.

Lemma X13_wrapText_width_witness :
  str "Check the" ∈ wrapText (str "Check the input") 9
  ∧ ((Z.of_nat (length (str "Check the")) ≤ 9)%Z ∨ 32%N ∉ str "Check the").
Proof.
  assert (str "Check the" ∈ wrapText (str "Check the input") 9) as Hin
    by (apply (bool_decide_unpack _); vm_compute; exact I).
  split; [exact Hin|].
  exact (X13_wrapText_width (str "Check the input") 9 (str "Check the") Hin).
Defined.

Lemma X14_wrapText_greedy_witness :
  wrapText (str "Check the input") 9 !! 0 = Some (str "Check the")
  ∧ wrapText (str "Check the input") 9 !! 1 = Some (str "input")
  ∧ (9 < Z.of_nat (length (str "Check the") + 1 + length (firstWord (str "input"))))%Z.
Proof.
  assert (wrapText (str "Check the input") 9 !! 0 = Some (str "Check the")) as H0
    by (vm_compute; reflexivity).
  assert (wrapText (str "Check the input") 9 !! 1 = Some (str "input")) as H1
    by (vm_compute; reflexivity).
  split; [exact H0|]. split; [exact H1|].
  exact (proj2 (X14_wrapText_greedy (str "Check the input") 9) 0 _ _ H0 H1).
Defined.

Lemma X15_handleLayoutChange_invariant_witness :
  app_data (mkApp TOP_BOTTOM (Some (computeLayout codeUnitCompare TOP_BOTTOM scenarioA)))
  = Some (computeLayout codeUnitCompare TOP_BOTTOM scenarioA)
  ∧ app_data (handleLayoutChange codeUnitCompare ZIG_ZAG
                (mkApp TOP_BOTTOM (Some (computeLayout codeUnitCompare TOP_BOTTOM scenarioA))))
    = Some (computeLayout codeUnitCompare ZIG_ZAG scenarioA).
Proof.
  split; [reflexivity|].
  exact (proj2 (proj1 (X15_handleLayoutChange_invariant codeUnitCompare scenarioA)
                  ZIG_ZAG
                  (mkApp TOP_BOTTOM
                         (Some (computeLayout codeUnitCompare TOP_BOTTOM scenarioA)))
                  eq_refl)).
Defined.

Lemma X16_zigzag_neighbours_witness :
  sortedSequence codeUnitCompare chain9 !! 3 = Some 3
  ∧ sortedSequence codeUnitCompare chain9 !! 4 = Some 4
  ∧ ∃ n n', nodes (computeLayout codeUnitCompare ZIG_ZAG chain9) !! 3 = Some n
            ∧ nodes (computeLayout codeUnitCompare ZIG_ZAG chain9) !! 4 = Some n'
            ∧ ∃ x y x' y', node_x n = Some x ∧ node_y n = Some y
                           ∧ node_x n' = Some x' ∧ node_y n' = Some y'
                           ∧ ((y' = y ∧ Z.abs (x' - x) = 280%Z)
                              ∨ (x' = x ∧ y' = (y + 240)%Z)).
Proof.
  assert (sortedSequence codeUnitCompare chain9 !! 3 = Some 3) as H3
    by (vm_compute; reflexivity).
  assert (sortedSequence codeUnitCompare chain9 !! 4 = Some 4) as H4
    by (vm_compute; reflexivity).
  split; [exact H3|]. split; [exact H4|].
  destruct (nodes (computeLayout codeUnitCompare ZIG_ZAG chain9) !! 3)
    as [n|] eqn:Hn; [|by vm_compute in Hn].
  destruct (nodes (computeLayout codeUnitCompare ZIG_ZAG chain9) !! 4)
    as [n'|] eqn:Hn'; [|by vm_compute in Hn'].
  exists n, n'. split; [reflexivity|]. split; [reflexivity|].
  exact (X16_zigzag_neighbours codeUnitCompare chain9 3 3 4 n n' H3 H4 Hn Hn').
Defined.

Lemma X17_levels_contiguous_witness :
  ∃ n, nodes (computeLayout codeUnitCompare TOP_BOTTOM scenarioA) !! 4 = Some n
       ∧ node_level n = Some 3%Z ∧ (0 < 3)%Z
       ∧ ∃ n', n' ∈ nodes (computeLayout codeUnitCompare TOP_BOTTOM scenarioA)
               ∧ node_level n' = Some (3 - 1)%Z.
Proof.
  destruct (nodes (computeLayout codeUnitCompare TOP_BOTTOM scenarioA) !! 4)
    as [n|] eqn:Hn; [|by vm_compute in Hn].
  assert (node_level n = Some 3%Z) as Hl.
  { pose proof Hn as H. vm_compute in H. injection H as <-. reflexivity. }
  assert (0 < 3)%Z as H03 by lia.
  exists n. split; [reflexivity|]. split; [exact Hl|]. split; [exact H03|].
  exact (X17_levels_contiguous codeUnitCompare TOP_BOTTOM scenarioA n 3
           (list_elem_of_lookup_2 _ _ _ Hn) Hl H03).
Defined.

Lemma X18_levels_bounded_witness :
  nodes scenarioA ≠ []
  ∧ ∃ n, nodes (computeLayout codeUnitCompare TOP_BOTTOM scenarioA) !! 4 = Some n
         ∧ ∃ y, node_y n = Some y
                ∧ (120 ≤ y ≤ (Z.of_nat (length (nodes scenarioA)) - 1) * 240 + 120)%Z.
Proof.
  assert (nodes scenarioA ≠ []) as Hne by discriminate.
  split; [exact Hne|].
  destruct (nodes (computeLayout codeUnitCompare TOP_BOTTOM scenarioA) !! 4)
    as [n|] eqn:Hn; [|by vm_compute in Hn].
  exists n. split; [reflexivity|].
  exact (proj2 (X18_levels_bounded codeUnitCompare scenarioA n Hne)
           (list_elem_of_lookup_2 _ _ _ Hn)).
Defined.
